(** * Game-tree search of ChessBot ([search.py]): a shallow embedding

    The module [search.py] implements a baseline [random] mover and the three
    searches [minimax], [alphabeta] and [stochastic] (with its sampling helper
    [stochasticHelper]) on top of the chess library: [chess.lib.availableMoves],
    [chess.lib.getPromote], [makeMove], [evaluate] and [encode].  The library
    is a parameter of the development; the search code is transcribed
    function by function.

    The library functions are taken to return (they raise nothing), numbers
    are never [nan], and the recursion limit of the interpreter is left out:
    a recursion is cut by an explicit bound on the nested calls instead, and
    the facts below say when the bound does not matter. *)

From Stdlib Require Import List ZArith QArith Qcanon Bool Lia.
From Stdlib Require Import Orders OrdersTac.
Import ListNotations.

Close Scope Qc_scope.
Close Scope Q_scope.

Set Implicit Arguments.

(** ** Python numbers

    The values handled by the searches are Python numbers: what [evaluate]
    returns, and the floats [-math.inf] and [math.inf].  A Python [int] and a
    finite [float] are both rational numbers and Python compares them exactly,
    so a number is modelled as a canonical rational or one of the two
    infinities.  [nan] is left out: the searches never create one from
    ordinary numbers. *)

Inductive value : Type :=
| NegInf
| Num (q : Qc)
| PosInf.

Definition value_compare (a b : value) : comparison :=
  match a, b with
  | NegInf, NegInf => Eq
  | NegInf, _ => Lt
  | Num _, NegInf => Gt
  | Num p, Num q => Qccompare p q
  | Num _, PosInf => Lt
  | PosInf, PosInf => Eq
  | PosInf, _ => Gt
  end.

(** [a < b], [a > b] and [a <= b] of Python. *)
Definition py_lt (a b : value) : bool :=
  match value_compare a b with Lt => true | _ => false end.

Definition py_gt (a b : value) : bool := py_lt b a.

Definition py_le (a b : value) : bool :=
  match value_compare a b with Gt => false | _ => true end.

(** [max(a, b)] and [min(a, b)] of Python: the first argument is kept unless
    the second is strictly beyond it. *)
Definition py_max (a b : value) : value := if py_gt b a then b else a.
Definition py_min (a b : value) : value := if py_lt b a then b else a.

(** The order of the numbers, as propositions. *)
Module ValueOrder.
Definition t := value.
Definition eq := @Logic.eq value.
Definition lt (a b : value) : Prop := value_compare a b = Lt.
Definition le (a b : value) : Prop := value_compare a b <> Gt.
End ValueOrder.

Infix "<v" := ValueOrder.lt (at level 70, no associativity).
Infix "<=v" := ValueOrder.le (at level 70, no associativity).

(** ** Outcomes of a call

    A call returns, raises one of the two exceptions the search code itself
    can raise ([moves[0]] on an empty list, [sum / breadth] with
    [breadth == 0]), or has not come back within the allotted number of
    nested calls. *)

Inductive exn : Type :=
| IndexError
| ZeroDivisionError.

Inductive result (A : Type) : Type :=
| Return (a : A)
| Raise (e : exn)
| NoFuel.

Arguments Raise {A} e.
Arguments NoFuel {A}.

Definition bind {A B : Type} (r : result A) (k : A -> result B) : result B :=
  match r with
  | Return a => k a
  | Raise e => Raise e
  | NoFuel => NoFuel
  end.

Notation "x <- r ;; k" := (bind r (fun x => k))
  (at level 61, r at next level, right associativity).
Notation "' pat <- r ;; k" := (bind r (fun x => match x with pat => k end))
  (at level 61, pat pattern, r at next level, right associativity).

(** ** The chess library

    What [search.py] imports: the list of pieces of a side ([board[side]]),
    the square of a piece ([piece[:2]]), [chess.lib.availableMoves],
    [chess.lib.getPromote], [makeMove], [evaluate] and [encode]; keys of a
    move tree are compared as dictionary keys are. *)

Class ChessLib : Type := {
  Board : Type;
  Flags : Type;
  Piece : Type;
  Square : Type;
  Promote : Type;
  Key : Type;
  Key_eq_dec : forall a b : Key, {a = b} + {a <> b};
  pieces : bool -> Board -> list Piece;
  piece_square : Piece -> Square;
  availableMoves : bool -> Board -> Piece -> Flags -> list Square;
  getPromote : bool -> Board -> Square -> Square -> Promote;
  makeMove : bool -> Board -> Square -> Square -> Flags -> Promote ->
             bool * Board * Flags;
  evaluate : Board -> value;
  encode : Square -> Square -> Promote -> Key
}.

(** [+] and [/] of Python on numbers, used by [stochastic] only.  The rounding
    of floats is not fixed here. *)
Class PyArith : Type := {
  py_add : value -> value -> value;
  py_truediv : value -> Z -> value
}.

Section Search.

Context {lib : ChessLib} {arith : PyArith}.

(** A move is the list [[fro, to, promote]]. *)
Record Move : Type := mkMove {
  fro : Square;
  to : Square;
  promote : Promote
}.

(** ** Move trees: nested dictionaries, in insertion order *)

#[warnings="-register-all"]
Inductive MoveTree : Type :=
| Dict (items : list (Key * MoveTree)).

Definition items_of (t : MoveTree) : list (Key * MoveTree) :=
  match t with Dict items => items end.

(** [{}] *)
Definition empty : MoveTree := Dict [].

(** [k in d] and [d[k]] *)
Fixpoint lookup (k : Key) (items : list (Key * MoveTree)) : option MoveTree :=
  match items with
  | [] => None
  | (k', v) :: rest => if Key_eq_dec k k' then Some v else lookup k rest
  end.

(** [d[k] = v]: an existing key keeps its place, a new one goes last. *)
Fixpoint set_items (k : Key) (v : MoveTree) (items : list (Key * MoveTree))
  : list (Key * MoveTree) :=
  match items with
  | [] => [(k, v)]
  | (k', v') :: rest =>
      if Key_eq_dec k k' then (k', v) :: rest
      else (k', v') :: set_items k v rest
  end.

Definition setitem (k : Key) (v : MoveTree) (d : MoveTree) : MoveTree :=
  Dict (set_items k v (items_of d)).

(** [d.update(other)]: every item of [other] is stored into [d], in order. *)
Definition update (d other : MoveTree) : MoveTree :=
  fold_left (fun acc kv => setitem (fst kv) (snd kv) acc) (items_of other) d.

(** The number of nodes of a move tree: its keys, at every level. *)
Fixpoint node_count (t : MoveTree) : nat :=
  match t with
  | Dict items =>
      (fix count (l : list (Key * MoveTree)) : nat :=
         match l with
         | [] => 0
         | (_, sub) :: rest => S (node_count sub) + count rest
         end) items
  end.

Definition SearchResult : Type := value * list Move * MoveTree.

(** ** [generateMoves]

    The generator is always consumed whole ([list(...)], a comprehension):
    it is the list of what it yields. *)

Definition generateMoves (side : bool) (board : Board) (flags : Flags)
  : list Move :=
  flat_map
    (fun piece =>
       let fro := piece_square piece in
       map (fun to => mkMove fro to (getPromote side board fro to))
           (availableMoves side board piece flags))
    (pieces side board).

(** [encode] of the three components of a move. *)
Definition encodeMove (move : Move) : Key :=
  encode (fro move) (to move) (promote move).

(** [makeMove(side, board, move[0], move[1], flags, move[2])] *)
Definition applyMove (side : bool) (board : Board) (flags : Flags)
  (move : Move) : bool * Board * Flags :=
  makeMove side board (fro move) (to move) flags (promote move).

(** ** [random]

    The chooser is an argument; it may keep a state (a random generator, a
    script), threaded as [cs], and it may raise. *)

Definition random {CS : Type} (side : bool) (board : Board) (flags : Flags)
  (chooser : list Move -> CS -> result (Move * CS)) (cs : CS)
  : result (SearchResult * CS) :=
  let moves := generateMoves side board flags in
  if Nat.ltb 0 (length moves) then
    '(move, cs) <- chooser moves cs ;;
    let '(newside, newboard, newflags) := applyMove side board flags move in
    let value := evaluate newboard in
    Return ((value, [move], Dict [(encodeMove move, empty)]), cs)
  else
    Return ((evaluate board, [], empty), cs).

(** ** [minimax]

    The two [for move in moves] loops, over the moves still to visit, with
    the loop variables [heuristic], [bestMove], [bestList] and [moveTree];
    [recur] is the recursive call. *)

Definition LoopState : Type := value * Move * list Move * MoveTree.

Fixpoint minimax_max_loop
  (recur : bool -> Board -> Flags -> Z -> result SearchResult)
  (side : bool) (board : Board) (flags : Flags) (depth : Z)
  (moves : list Move) (heuristic : value) (bestMove : Move)
  (bestList : list Move) (moveTree : MoveTree) : result LoopState :=
  match moves with
  | [] => Return (heuristic, bestMove, bestList, moveTree)
  | move :: moves' =>
      let encodedMove := encodeMove move in
      let '(newSide, newBoard, newFlags) := applyMove side board flags move in
      '(moveValue, moveList_d1, moveTree_d1) <-
        recur newSide newBoard newFlags (depth - 1)%Z ;;
      let moveTree := setitem encodedMove moveTree_d1 moveTree in
      if py_gt moveValue heuristic then
        minimax_max_loop recur side board flags depth moves'
          moveValue move moveList_d1 moveTree
      else
        minimax_max_loop recur side board flags depth moves'
          heuristic bestMove bestList moveTree
  end.

Fixpoint minimax_min_loop
  (recur : bool -> Board -> Flags -> Z -> result SearchResult)
  (side : bool) (board : Board) (flags : Flags) (depth : Z)
  (moves : list Move) (heuristic : value) (bestMove : Move)
  (bestList : list Move) (moveTree : MoveTree) : result LoopState :=
  match moves with
  | [] => Return (heuristic, bestMove, bestList, moveTree)
  | move :: moves' =>
      let encodedMove := encodeMove move in
      let '(newSide, newBoard, newFlags) := applyMove side board flags move in
      '(moveValue, moveList_d1, moveTree_d1) <-
        recur newSide newBoard newFlags (depth - 1)%Z ;;
      let moveTree := setitem encodedMove moveTree_d1 moveTree in
      if py_lt moveValue heuristic then
        minimax_min_loop recur side board flags depth moves'
          moveValue move moveList_d1 moveTree
      else
        minimax_min_loop recur side board flags depth moves'
          heuristic bestMove bestList moveTree
  end.

(** [fuel] bounds the number of nested calls. *)
Fixpoint minimax_fuel (fuel : nat) (side : bool) (board : Board)
  (flags : Flags) (depth : Z) : result SearchResult :=
  match fuel with
  | O => NoFuel
  | S fuel' =>
      let moveList : list Move := [] in
      let moveTree := empty in
      if (depth =? 0)%Z then Return (evaluate board, moveList, moveTree)
      else
        let moves := generateMoves side board flags in
        match moves with
        | [] => Raise IndexError
        | bestMove :: _ =>
            let bestList : list Move := [] in
            match side with
            | false =>
                let heuristic := NegInf in
                '(heuristic, bestMove, bestList, moveTree) <-
                  minimax_max_loop (minimax_fuel fuel') side board flags depth
                    moves heuristic bestMove bestList moveTree ;;
                let moveList := bestMove :: bestList in
                Return (heuristic, moveList, moveTree)
            | true =>
                let heuristic := PosInf in
                '(heuristic, bestMove, bestList, moveTree) <-
                  minimax_min_loop (minimax_fuel fuel') side board flags depth
                    moves heuristic bestMove bestList moveTree ;;
                let moveList := bestMove :: bestList in
                Return (heuristic, moveList, moveTree)
            end
        end
  end.

(** [minimax(side, board, flags, depth)]: a call with [depth >= 0] nests at
    most [depth + 1] calls. *)
Definition minimax (side : bool) (board : Board) (flags : Flags) (depth : Z)
  : result SearchResult :=
  minimax_fuel (S (Z.to_nat depth)) side board flags depth.

(** ** [alphabeta] *)

Fixpoint alphabeta_max_loop
  (recur : bool -> Board -> Flags -> Z -> value -> value ->
           result SearchResult)
  (side : bool) (board : Board) (flags : Flags) (depth : Z)
  (moves : list Move) (alpha beta : value) (heuristic : value)
  (bestMove : Move) (bestList : list Move) (moveTree : MoveTree)
  : result LoopState :=
  match moves with
  | [] => Return (heuristic, bestMove, bestList, moveTree)
  | move :: moves' =>
      let encodedMove := encodeMove move in
      let '(newSide, newBoard, newFlags) := applyMove side board flags move in
      '(moveValue, moveList_d1, moveTree_d1) <-
        recur newSide newBoard newFlags (depth - 1)%Z alpha beta ;;
      let moveTree := setitem encodedMove moveTree_d1 moveTree in
      let '(heuristic, bestMove, bestList) :=
        if py_gt moveValue heuristic then (moveValue, move, moveList_d1)
        else (heuristic, bestMove, bestList) in
      let alpha := py_max alpha heuristic in
      if py_le beta alpha then
        Return (heuristic, bestMove, bestList, moveTree)
      else
        alphabeta_max_loop recur side board flags depth moves' alpha beta
          heuristic bestMove bestList moveTree
  end.

Fixpoint alphabeta_min_loop
  (recur : bool -> Board -> Flags -> Z -> value -> value ->
           result SearchResult)
  (side : bool) (board : Board) (flags : Flags) (depth : Z)
  (moves : list Move) (alpha beta : value) (heuristic : value)
  (bestMove : Move) (bestList : list Move) (moveTree : MoveTree)
  : result LoopState :=
  match moves with
  | [] => Return (heuristic, bestMove, bestList, moveTree)
  | move :: moves' =>
      let encodedMove := encodeMove move in
      let '(newSide, newBoard, newFlags) := applyMove side board flags move in
      '(moveValue, moveList_d1, moveTree_d1) <-
        recur newSide newBoard newFlags (depth - 1)%Z alpha beta ;;
      let moveTree := setitem encodedMove moveTree_d1 moveTree in
      let '(heuristic, bestMove, bestList) :=
        if py_lt moveValue heuristic then (moveValue, move, moveList_d1)
        else (heuristic, bestMove, bestList) in
      let beta := py_min beta heuristic in
      if py_le beta alpha then
        Return (heuristic, bestMove, bestList, moveTree)
      else
        alphabeta_min_loop recur side board flags depth moves' alpha beta
          heuristic bestMove bestList moveTree
  end.

Fixpoint alphabeta_fuel (fuel : nat) (side : bool) (board : Board)
  (flags : Flags) (depth : Z) (alpha beta : value) : result SearchResult :=
  match fuel with
  | O => NoFuel
  | S fuel' =>
      let moveList : list Move := [] in
      let moveTree := empty in
      if (depth =? 0)%Z then Return (evaluate board, moveList, moveTree)
      else
        let moves := generateMoves side board flags in
        match moves with
        | [] => Raise IndexError
        | bestMove :: _ =>
            let bestList : list Move := [] in
            match side with
            | false =>
                let heuristic := NegInf in
                '(heuristic, bestMove, bestList, moveTree) <-
                  alphabeta_max_loop (alphabeta_fuel fuel') side board flags
                    depth moves alpha beta heuristic bestMove bestList
                    moveTree ;;
                let moveList := bestMove :: bestList in
                Return (heuristic, moveList, moveTree)
            | true =>
                let heuristic := PosInf in
                '(heuristic, bestMove, bestList, moveTree) <-
                  alphabeta_min_loop (alphabeta_fuel fuel') side board flags
                    depth moves alpha beta heuristic bestMove bestList
                    moveTree ;;
                let moveList := bestMove :: bestList in
                Return (heuristic, moveList, moveTree)
            end
        end
  end.

(** [alphabeta(side, board, flags, depth, alpha, beta)]; the defaults of the
    two bounds are [NegInf] and [PosInf]. *)
Definition alphabeta (side : bool) (board : Board) (flags : Flags)
  (depth : Z) (alpha beta : value) : result SearchResult :=
  alphabeta_fuel (S (Z.to_nat depth)) side board flags depth alpha beta.

(** ** [stochasticHelper] and [stochastic]

    The chooser is an argument of the Python functions; it may keep a state
    (a random generator, a script), threaded here as [cs]. *)

Section WithChooser.

Variable CS : Type.
Variable chooser : list Move -> CS -> result (Move * CS).

Fixpoint stochasticHelper_fuel (fuel : nat) (side : bool) (board : Board)
  (flags : Flags) (depth : Z) (cs : CS) : result (value * MoveTree * CS) :=
  match fuel with
  | O => NoFuel
  | S fuel' =>
      let moveTree := empty in
      if (depth =? 0)%Z then Return (evaluate board, moveTree, cs)
      else
        let moves := generateMoves side board flags in
        '(move, cs) <- chooser moves cs ;;
        let encodedMove := encodeMove move in
        let '(newSide, newBoard, newFlags) :=
          applyMove side board flags move in
        '(moveValue, moveTree_d1, cs) <-
          stochasticHelper_fuel fuel' newSide newBoard newFlags
            (depth - 1)%Z cs ;;
        let moveTree := setitem encodedMove moveTree_d1 moveTree in
        Return (moveValue, moveTree, cs)
  end.

Definition stochasticHelper (side : bool) (board : Board) (flags : Flags)
  (depth : Z) (cs : CS) : result (value * MoveTree * CS) :=
  stochasticHelper_fuel (S (Z.to_nat depth)) side board flags depth cs.

(** [sum / breadth] *)
Definition truediv (sum : value) (breadth : Z) : result value :=
  if (breadth =? 0)%Z then Raise ZeroDivisionError
  else Return (py_truediv sum breadth).

(** The [if encodedMove in moveTree: ... else: ...] of the sampling loop. *)
Definition merge_sample (encodedMove : Key) (moveTree_d1 moveTree : MoveTree)
  : MoveTree :=
  match lookup encodedMove (items_of moveTree) with
  | Some entry => setitem encodedMove (update entry moveTree_d1) moveTree
  | None => setitem encodedMove moveTree_d1 moveTree
  end.

(** [for i in range(breadth)], with [n] iterations to go; [helper] is the
    call of [stochasticHelper] on the position after the move. *)
Fixpoint sample_loop (helper : CS -> result (value * MoveTree * CS))
  (n : nat) (encodedMove : Key) (sum : value) (moveTree : MoveTree) (cs : CS)
  : result (value * MoveTree * CS) :=
  match n with
  | O => Return (sum, moveTree, cs)
  | S n' =>
      '(moveValue, moveTree_d1, cs) <- helper cs ;;
      let sum := py_add sum moveValue in
      let moveTree := merge_sample encodedMove moveTree_d1 moveTree in
      sample_loop helper n' encodedMove sum moveTree cs
  end.

(** The body of [for move in moves] up to [average = sum / breadth]. *)
Definition sample_move (fuel : nat) (side : bool) (board : Board)
  (flags : Flags) (depth breadth : Z) (move : Move) (moveTree : MoveTree)
  (cs : CS) : result (value * MoveTree * CS) :=
  let sum := Num 0%Qc in
  let encodedMove := encodeMove move in
  let '(newSide, newBoard, newFlags) := applyMove side board flags move in
  '(sum, moveTree, cs) <-
    sample_loop
      (stochasticHelper_fuel fuel newSide newBoard newFlags (depth - 1)%Z)
      (Z.to_nat breadth) encodedMove sum moveTree cs ;;
  average <- truediv sum breadth ;;
  Return (average, moveTree, cs).

Fixpoint stochastic_max_loop (fuel : nat) (side : bool) (board : Board)
  (flags : Flags) (depth breadth : Z) (moves : list Move)
  (heuristic : value) (bestMove : Move) (moveTree : MoveTree) (cs : CS)
  : result (value * Move * MoveTree * CS) :=
  match moves with
  | [] => Return (heuristic, bestMove, moveTree, cs)
  | move :: moves' =>
      '(average, moveTree, cs) <-
        sample_move fuel side board flags depth breadth move moveTree cs ;;
      if py_gt average heuristic then
        stochastic_max_loop fuel side board flags depth breadth moves'
          average move moveTree cs
      else
        stochastic_max_loop fuel side board flags depth breadth moves'
          heuristic bestMove moveTree cs
  end.

Fixpoint stochastic_min_loop (fuel : nat) (side : bool) (board : Board)
  (flags : Flags) (depth breadth : Z) (moves : list Move)
  (heuristic : value) (bestMove : Move) (moveTree : MoveTree) (cs : CS)
  : result (value * Move * MoveTree * CS) :=
  match moves with
  | [] => Return (heuristic, bestMove, moveTree, cs)
  | move :: moves' =>
      '(average, moveTree, cs) <-
        sample_move fuel side board flags depth breadth move moveTree cs ;;
      if py_lt average heuristic then
        stochastic_min_loop fuel side board flags depth breadth moves'
          average move moveTree cs
      else
        stochastic_min_loop fuel side board flags depth breadth moves'
          heuristic bestMove moveTree cs
  end.

(** [fuel] bounds the nested calls of [stochasticHelper]. *)
Definition stochastic_fuel (fuel : nat) (side : bool) (board : Board)
  (flags : Flags) (depth breadth : Z) (cs : CS)
  : result (SearchResult * CS) :=
  let moveTree := empty in
  let moves := generateMoves side board flags in
  match moves with
  | [] => Raise IndexError
  | bestMove :: _ =>
      match side with
      | false =>
          let heuristic := NegInf in
          '(heuristic, bestMove, moveTree, cs) <-
            stochastic_max_loop fuel side board flags depth breadth moves
              heuristic bestMove moveTree cs ;;
          Return ((heuristic, [bestMove], moveTree), cs)
      | true =>
          let heuristic := PosInf in
          '(heuristic, bestMove, moveTree, cs) <-
            stochastic_min_loop fuel side board flags depth breadth moves
              heuristic bestMove moveTree cs ;;
          Return ((heuristic, [bestMove], moveTree), cs)
      end
  end.

(** [stochastic(side, board, flags, depth, breadth, chooser)]: the helper is
    called at [depth - 1] and nests at most [depth] calls when [depth >= 1]. *)
Definition stochastic (side : bool) (board : Board) (flags : Flags)
  (depth breadth : Z) (cs : CS) : result (SearchResult * CS) :=
  stochastic_fuel (Z.to_nat depth) side board flags depth breadth cs.

End WithChooser.

End Search.

(** ** Notions the properties are stated with *)

Section Notions.

Context {lib : ChessLib} {arith : PyArith}.

(** The move tree that is one path: each key holds the tree of the next. *)
Fixpoint chain (keys : list Key) : MoveTree :=
  match keys with
  | [] => empty
  | k :: keys' => Dict [(k, chain keys')]
  end.

(** [moves] are the moves the chooser picks, ply after ply, from the given
    position and chooser state. *)
Fixpoint chosen_along (CS : Type)
  (chooser : list Move -> CS -> result (Move * CS))
  (side : bool) (board : Board) (flags : Flags) (cs : CS)
  (moves : list Move) : Prop :=
  match moves with
  | [] => True
  | move :: moves' =>
      exists cs1,
        chooser (generateMoves side board flags) cs = Return (move, cs1)
        /\ let '(newSide, newBoard, newFlags) :=
             applyMove side board flags move in
           chosen_along chooser newSide newBoard newFlags cs1 moves'
  end.

(** [samples] are the values and the move trees of runs of [helper] in a
    row: the first run starts from the chooser state [cs], each later one
    from the state that the run before it left, and [cs'] is the state after
    the last run. *)
Fixpoint drawn (CS : Type) (helper : CS -> result (value * MoveTree * CS))
  (cs : CS) (samples : list (value * MoveTree)) (cs' : CS) : Prop :=
  match samples with
  | [] => cs' = cs
  | (v, t) :: rest =>
      exists cs1, helper cs = Return (v, t, cs1) /\ drawn helper cs1 rest cs'
  end.

(** [samples] are the samples that the sampling loop draws for [move] when
    it is entered with the chooser state [cs]: as many as [range(breadth)]
    has elements, runs of the helper at [depth - 1] from the position after
    the move, in a row. *)
Definition samples_of (CS : Type)
  (chooser : list Move -> CS -> result (Move * CS)) (fuel : nat)
  (side : bool) (board : Board) (flags : Flags) (depth breadth : Z)
  (move : Move) (cs : CS) (samples : list (value * MoveTree)) (cs' : CS)
  : Prop :=
  let '(newSide, newBoard, newFlags) := applyMove side board flags move in
  length samples = Z.to_nat breadth
  /\ drawn
       (stochasticHelper_fuel chooser fuel newSide newBoard newFlags
          (depth - 1)%Z)
       cs samples cs'.

(** [runs] lists, move after move, the samples drawn for [moves]: the
    samples of the first move start from the chooser state [cs], those of
    each later move from the state left by the samples of the move before
    it, and [cs'] is the state after the last move. *)
Fixpoint sampled_in_turn (CS : Type)
  (chooser : list Move -> CS -> result (Move * CS)) (fuel : nat)
  (side : bool) (board : Board) (flags : Flags) (depth breadth : Z)
  (moves : list Move) (cs : CS) (runs : list (list (value * MoveTree)))
  (cs' : CS) : Prop :=
  match moves, runs with
  | [], [] => cs' = cs
  | move :: moves', samples :: runs' =>
      exists cs1,
        samples_of chooser fuel side board flags depth breadth move cs
          samples cs1
        /\ sampled_in_turn chooser fuel side board flags depth breadth moves'
             cs1 runs' cs'
  | _, _ => False
  end.

(** [sum / breadth] for the samples of a move: the sum of their values,
    from [0] on, in the order they were drawn. *)
Definition average_of_samples (breadth : Z)
  (samples : list (value * MoveTree)) : value :=
  py_truediv (fold_left py_add (map fst samples) (Num 0%Qc)) breadth.

(** The moves with the averages of their samples. *)
Definition averages (breadth : Z) (moves : list Move)
  (runs : list (list (value * MoveTree))) : list (Move * value) :=
  combine moves (map (average_of_samples breadth) runs).

(** The value [v] of [minimax] lies inside the window, a bound at infinity
    counting as open. *)
Definition exact_in (alpha beta v : value) : Prop :=
  (alpha <v v \/ alpha = NegInf) /\ (v <v beta \/ beta = PosInf).

(** What a result [(r, l', _)] of [alphabeta] with the window
    [(alpha, beta)] owes to the result [(v, l, _)] of [minimax]: the same
    value and move list when [v] is inside, and a value on the same side
    of the window, no farther than [v], when it is not. *)
Definition agrees (alpha beta : value) (rm ra : SearchResult) : Prop :=
  let '(v, l, _) := rm in
  let '(r, l', _) := ra in
  (exact_in alpha beta v -> r = v /\ l' = l)
  /\ (v <=v alpha -> v <=v r /\ r <=v alpha)
  /\ (beta <=v v -> beta <=v r /\ r <=v v).

(** The loop variables of [minimax] ([hm], [bmm], [blm]) and of [alphabeta]
    ([ha], [bma], [bla]) after the same moves of a maximizing node entered
    with the bound [alpha0]; [a] is the current [alpha].  Either the value of
    [minimax] has come inside the window and the two loops hold the same
    best, or both values are still below it. *)
Definition max_loops_related (alpha0 a hm ha : value) (bmm bma : Move)
  (blm bla : list Move) : Prop :=
  ((alpha0 <v hm \/ alpha0 = NegInf)
   /\ ha = hm /\ bma = bmm /\ bla = blm /\ a = ha)
  \/ (alpha0 <> NegInf /\ hm <=v ha /\ ha <=v alpha0 /\ a = alpha0).

(** The same at a minimizing node entered with the bound [beta0]; [b] is the
    current [beta]. *)
Definition min_loops_related (beta0 b hm ha : value) (bmm bma : Move)
  (blm bla : list Move) : Prop :=
  ((hm <v beta0 \/ beta0 = PosInf)
   /\ ha = hm /\ bma = bmm /\ bla = blm /\ b = ha)
  \/ (beta0 <> PosInf /\ ha <=v hm /\ beta0 <=v ha /\ b = beta0).

(** [agrees], on the variables the loops end with. *)
Definition loops_agree (alpha0 beta H H' : value) (BM BM' : Move)
  (BL BL' : list Move) : Prop :=
  (exact_in alpha0 beta H -> H' = H /\ BM' = BM /\ BL' = BL)
  /\ (H <=v alpha0 -> H <=v H' /\ H' <=v alpha0)
  /\ (beta <=v H -> beta <=v H' /\ H' <=v H).

(** The keys of a dictionary, in order. *)
Definition keys (t : MoveTree) : list Key := map fst (items_of t).

(** The contract of [encode] and of move generation: from one position, no
    two generated moves have the same key. *)
Definition keys_unique : Prop :=
  forall side board flags,
    NoDup (map encodeMove (generateMoves side board flags)).

(** [v] is strictly worse than [h] for the side to move, and [v] is no
    better than [h]: the side [false] maximizes, the side [true] minimizes. *)
Definition worse (side : bool) (v h : value) : Prop :=
  if side then h <v v else v <v h.

Definition no_better (side : bool) (v h : value) : Prop :=
  if side then h <=v v else v <=v h.

(** Among the moves seen with their values, in the order they were seen,
    [move] is the first whose value is the extremum [h]: every earlier value
    is strictly worse and no later value is better. *)
Definition first_best (side : bool) (seen : list (Move * value))
  (move : Move) (h : value) : Prop :=
  exists before after,
    seen = before ++ (move, h) :: after
    /\ Forall (fun o => worse side (snd o) h) before
    /\ Forall (fun o => no_better side (snd o) h) after.

(** The value the loop of [minimax] gets for a move. *)
Definition minimax_sees
  (recur : bool -> Board -> Flags -> Z -> result SearchResult)
  (side : bool) (board : Board) (flags : Flags) (depth : Z)
  (o : Move * value) : Prop :=
  let '(newSide, newBoard, newFlags) := applyMove side board flags (fst o) in
  exists l t,
    recur newSide newBoard newFlags (depth - 1)%Z = Return (snd o, l, t).

(** The moves that a loop of [alphabeta] visits, with the value it gets for
    each of them: the value that the recursive call returns for the bounds
    the loop has reached at this move.  [alpha], [beta] and [heuristic] are
    the variables of the loop before the first of [moves]; the loop goes on
    to the next move unless [beta <= alpha] after this one, and [seen] ends
    where the loop stops: at the cut, or with the last move. *)
Fixpoint alphabeta_visits
  (recur : bool -> Board -> Flags -> Z -> value -> value ->
           result SearchResult)
  (side : bool) (board : Board) (flags : Flags) (depth : Z)
  (moves : list Move) (alpha beta heuristic : value)
  (seen : list (Move * value)) {struct seen} : Prop :=
  match seen with
  | [] => moves = []
  | (move, v) :: seen' =>
      match moves with
      | [] => False
      | m :: moves' =>
          move = m
          /\ (let '(newSide, newBoard, newFlags) :=
                applyMove side board flags m in
              exists l t,
                recur newSide newBoard newFlags (depth - 1)%Z alpha beta
                = Return (v, l, t))
          /\ let heuristic :=
               if side then py_min heuristic v else py_max heuristic v in
             let alpha := if side then alpha else py_max alpha heuristic in
             let beta := if side then py_min beta heuristic else beta in
             if py_le beta alpha then seen' = []
             else alphabeta_visits recur side board flags depth moves'
                    alpha beta heuristic seen'
      end
  end.

End Notions.

(** ** Notions on the game itself

    The game that the library defines, seen from a position: the lines of
    play, the positions where every line can be played, the backed-up value
    and the whole tree of moves. *)

Section GameNotions.

Context {lib : ChessLib}.

(** The position reached by the moves of [moveList], played in order. *)
Fixpoint play (side : bool) (board : Board) (flags : Flags)
  (moveList : list Move) : bool * Board * Flags :=
  match moveList with
  | [] => (side, board, flags)
  | move :: rest =>
      let '(newSide, newBoard, newFlags) := applyMove side board flags move in
      play newSide newBoard newFlags rest
  end.

Definition board_after (side : bool) (board : Board) (flags : Flags)
  (moveList : list Move) : Board :=
  snd (fst (play side board flags moveList)).

(** Every move of [moveList] is generated in the position it is played
    from. *)
Fixpoint legal_line (side : bool) (board : Board) (flags : Flags)
  (moveList : list Move) : Prop :=
  match moveList with
  | [] => True
  | move :: rest =>
      In move (generateMoves side board flags)
      /\ let '(newSide, newBoard, newFlags) :=
           applyMove side board flags move in
         legal_line newSide newBoard newFlags rest
  end.

(** [evaluate] gives ordinary numbers, never an infinity. *)
Definition finite_scores : Prop :=
  forall board : Board, exists q : Qc, evaluate board = Num q.

(** [moveList] is a line of [plies] legal moves from the position, and [v]
    is the evaluation of the board it ends on. *)
Definition ends_line (plies : nat) (side : bool) (board : Board)
  (flags : Flags) (v : value) (moveList : list Move) : Prop :=
  length moveList = plies
  /\ legal_line side board flags moveList
  /\ v = evaluate (board_after side board flags moveList).

(** [move] is a move of the position and [v], [rest] are such a line after
    it. *)
Definition leads (plies : nat) (side : bool) (board : Board) (flags : Flags)
  (move : Move) (v : value) (rest : list Move) : Prop :=
  In move (generateMoves side board flags)
  /\ let '(newSide, newBoard, newFlags) := applyMove side board flags move in
     ends_line plies newSide newBoard newFlags v rest.

(** Every position reached in fewer than [plies] moves has a move. *)
Fixpoint playable (plies : nat) (side : bool) (board : Board) (flags : Flags)
  : bool :=
  match plies with
  | O => true
  | S plies' =>
      match generateMoves side board flags with
      | [] => false
      | moves =>
          forallb
            (fun move =>
               let '(newSide, newBoard, newFlags) :=
                 applyMove side board flags move in
               playable plies' newSide newBoard newFlags)
            moves
      end
  end.

(** The positions after [moves] are playable. *)
Definition moves_playable (plies : nat) (side : bool) (board : Board)
  (flags : Flags) (moves : list Move) : bool :=
  forallb
    (fun move =>
       let '(newSide, newBoard, newFlags) := applyMove side board flags move in
       playable plies newSide newBoard newFlags)
    moves.

(** The outcome [r] of a search is settled by the position: a result where
    it is playable, [IndexError] where it is not. *)
Definition settles (plies : nat) (side : bool) (board : Board) (flags : Flags)
  (r : result SearchResult) : Prop :=
  if playable plies side board flags then exists res, r = Return res
  else r = Raise IndexError.

(** The backed-up value of a position, [plies] moves deep: the evaluation
    at 0; above, the greatest (side [false]) or the least (side [true]) of
    the values of the positions after each move. *)
Fixpoint game_value (plies : nat) (side : bool) (board : Board)
  (flags : Flags) : value :=
  match plies with
  | O => evaluate board
  | S plies' =>
      let values :=
        map (fun move =>
               let '(newSide, newBoard, newFlags) :=
                 applyMove side board flags move in
               game_value plies' newSide newBoard newFlags)
            (generateMoves side board flags) in
      if side then fold_left py_min values PosInf
      else fold_left py_max values NegInf
  end.

(** The backed-up value of the position after [move]. *)
Definition child_value (plies : nat) (side : bool) (board : Board)
  (flags : Flags) (move : Move) : value :=
  let '(newSide, newBoard, newFlags) := applyMove side board flags move in
  game_value plies newSide newBoard newFlags.

(** The whole tree of the game, [plies] moves deep: under the key of each
    move, the tree of the position after it. *)
Fixpoint full_tree (plies : nat) (side : bool) (board : Board)
  (flags : Flags) : MoveTree :=
  match plies with
  | O => empty
  | S plies' =>
      Dict
        (map (fun move =>
                let '(newSide, newBoard, newFlags) :=
                  applyMove side board flags move in
                (encodeMove move, full_tree plies' newSide newBoard newFlags))
             (generateMoves side board flags))
  end.

(** The item of [full_tree] for a move. *)
Definition full_item (plies : nat) (side : bool) (board : Board)
  (flags : Flags) (move : Move) : Key * MoveTree :=
  let '(newSide, newBoard, newFlags) := applyMove side board flags move in
  (encodeMove move, full_tree plies newSide newBoard newFlags).

(** [cut] is [whole] cut short: at every level the first keys of [whole],
    in the same order, each over a tree cut short in turn. *)
#[warnings="-register-all"]
Inductive cut_of : MoveTree -> MoveTree -> Prop :=
| cut_of_Dict (items items' rest : list (Key * MoveTree)) :
    Forall2 (fun a b => fst a = fst b /\ cut_of (snd a) (snd b)) items items' ->
    cut_of (Dict items) (Dict (items' ++ rest)).

(** An item of a tree cut short, against the item of the whole tree. *)
Definition item_cut_of (a b : Key * MoveTree) : Prop :=
  fst a = fst b /\ cut_of (snd a) (snd b).

(** The keys of [entry] are the keys of the [samples], and no other. *)
Definition holds_keys_of (entry : MoveTree) (samples : list MoveTree)
  : Prop :=
  forall k, In k (keys entry) <-> exists s, In s samples /\ In k (keys s).

(** The samples of a move, merged as the sampling loop merges them: the
    first one, updated by each later one in turn. *)
Definition merged (samples : list MoveTree) : MoveTree :=
  match samples with
  | [] => empty
  | sample :: rest => fold_left update rest sample
  end.

(** The entry of the key [k] after the samples [acc]: none before the
    first sample, then the samples merged. *)
Definition entry_after (k : Key) (t : MoveTree) (acc : list MoveTree)
  : Prop :=
  match lookup k (items_of t) with
  | None => acc = []
  | Some entry => acc <> [] /\ entry = merged acc
  end.

(** The entry under the key of each of [moves] in [moveTree] is the samples
    of this move merged, in the order they were drawn, and its keys are
    their keys. *)
Definition samples_kept (moves : list Move)
  (runs : list (list (value * MoveTree))) (moveTree : MoveTree) : Prop :=
  forall i move samples,
    nth_error moves i = Some move ->
    nth_error runs i = Some samples ->
    lookup (encodeMove move) (items_of moveTree)
    = Some (merged (map snd samples))
    /\ holds_keys_of (merged (map snd samples)) (map snd samples).

(** The chooser picks a move of the list it is given, as [random.choice]
    does, whenever there is one. *)
Definition picks_from_list (CS : Type)
  (chooser : list Move -> CS -> result (Move * CS)) : Prop :=
  forall moves cs,
    moves <> [] ->
    exists move cs', chooser moves cs = Return (move, cs') /\ In move moves.

End GameNotions.

(** More fuel, same outcome: [r'] is [r] unless [r] ran out of fuel. *)
Definition extends {A : Type} (r r' : result A) : Prop :=
  r <> NoFuel -> r' = r.

(** ** Concrete games, arithmetic and choosers

    Instances of the library on which the searches can be run. *)

(** The counting game: a position is an integer [n]; the side [false] moves
    [n -> n + 1], the side [true] moves [n -> n - 1], and nobody can move once
    [|n| >= 3]; [evaluate n = n] and the key of a move is its delta. *)
Definition counting_game : ChessLib := {|
  Board := Z;
  Flags := unit;
  Piece := unit;
  Square := Z;
  Promote := unit;
  Key := Z;
  Key_eq_dec := Z.eq_dec;
  pieces := fun _ _ => [tt];
  piece_square := fun _ => 0%Z;
  availableMoves := fun side n _ _ =>
    if (3 <=? Z.abs n)%Z then []
    else if side then [(-1)%Z] else [1%Z];
  getPromote := fun _ _ _ _ => tt;
  makeMove := fun side n _ to _ _ => (negb side, (n + to)%Z, tt);
  evaluate := fun n => Num (Q2Qc (inject_Z n));
  encode := fun _ to _ => to
|}.

(** A game given by its tree: a position carries its static score and the
    positions its moves lead to; the moves are numbered from 1 and both sides
    have the same moves. *)
#[warnings="-register-all"]
Inductive GameTree : Type :=
| Position (score : Z) (replies : list GameTree).

Definition score_of (g : GameTree) : Z :=
  match g with Position s _ => s end.

Definition replies_of (g : GameTree) : list GameTree :=
  match g with Position _ r => r end.

Definition tree_game : ChessLib := {|
  Board := GameTree;
  Flags := unit;
  Piece := unit;
  Square := nat;
  Promote := unit;
  Key := nat;
  Key_eq_dec := Nat.eq_dec;
  pieces := fun _ _ => [tt];
  piece_square := fun _ => 0;
  availableMoves := fun _ g _ _ => seq 1 (length (replies_of g));
  getPromote := fun _ _ _ _ => tt;
  makeMove := fun side g _ to _ _ =>
    (negb side, nth (to - 1) (replies_of g) (Position 0 []), tt);
  evaluate := fun g => Num (Q2Qc (inject_Z (score_of g)));
  encode := fun _ to _ => to
|}.

(** The same game with keys that break the contract of [encode]: the first
    two replies of a position share the key 0. *)
Definition clashing_game : ChessLib := {|
  Board := GameTree;
  Flags := unit;
  Piece := unit;
  Square := nat;
  Promote := unit;
  Key := nat;
  Key_eq_dec := Nat.eq_dec;
  pieces := fun _ _ => [tt];
  piece_square := fun _ => 0;
  availableMoves := fun _ g _ _ => seq 1 (length (replies_of g));
  getPromote := fun _ _ _ _ => tt;
  makeMove := fun side g _ to _ _ =>
    (negb side, nth (to - 1) (replies_of g) (Position 0 []), tt);
  evaluate := fun g => Num (Q2Qc (inject_Z (score_of g)));
  encode := fun _ to _ => if Nat.leb to 2 then 0 else to
|}.

(** Exact arithmetic on numbers; the sum of the two infinities, which Python
    makes [nan], is not used. *)
Definition exact_arith : PyArith := {|
  py_add := fun a b =>
    match a, b with
    | Num p, Num q => Num (p + q)%Qc
    | NegInf, _ | Num _, NegInf => NegInf
    | PosInf, _ | Num _, PosInf => PosInf
    end;
  py_truediv := fun a n =>
    match a with
    | Num p => Num (p / Q2Qc (inject_Z n))%Qc
    | NegInf => if (n <? 0)%Z then PosInf else NegInf
    | PosInf => if (n <? 0)%Z then NegInf else PosInf
    end
|}.

(** A scripted chooser: its state is the list of the indices still to play;
    once the script is used up it takes the first move, and like
    [random.choice] it raises [IndexError] when there is no such move. *)
Definition scripted {A : Type} (moves : list A) (script : list nat)
  : result (A * list nat) :=
  match script with
  | [] =>
      match moves with
      | m :: _ => Return (m, [])
      | [] => Raise IndexError
      end
  | i :: script' =>
      match nth_error moves i with
      | Some m => Return (m, script')
      | None => Raise IndexError
      end
  end.

(** The number [z] as [evaluate] gives it. *)
Definition number (z : Z) : value := Num (Q2Qc (inject_Z z)).

(** The move to the [i]-th reply in a game given by its tree. *)
Definition reply (i : nat) : @Move tree_game :=
  @mkMove tree_game 0 i tt.

(** The move by [delta] in the counting game. *)
Definition step (delta : Z) : @Move counting_game :=
  @mkMove counting_game 0%Z delta tt.

(** Dictionaries of the two games. *)
Abbreviation counting_dict := (@Dict counting_game).
Abbreviation tree_dict := (@Dict tree_game).

Definition leaf (z : Z) : GameTree := Position z [].

(** Two replies everywhere, two plies deep. *)
Definition two_by_two : GameTree :=
  Position 0 [ Position 0 [leaf 5; leaf 7]; Position 0 [leaf 3; leaf 9] ].

(** One reply at the root, one reply to it, and two replies to that one. *)
Definition late_fork : GameTree :=
  Position 0 [ Position 0 [ Position 0 [leaf 1; leaf 2] ] ].

(** The second reply of the root has a wide first reply, where [alphabeta]
    cuts, and a narrow second one. *)
Definition wide_then_narrow : GameTree :=
  Position 0
    [ Position 0 [ Position 0 [leaf 5] ];
      Position 0 [ Position 0 [leaf 3; leaf 2; leaf 1; leaf 0];
                   Position 0 [leaf 9] ] ].

(** Four replies at the root, of the values 3, 5, 5 and 5 three moves deep:
    the second, the third and the fourth tie, and the third has two
    replies of its own. *)
Definition tied_replies : GameTree :=
  Position 0
    [ Position 0 [ Position 0 [leaf 3] ];
      Position 0 [ Position 0 [leaf 5] ];
      Position 0 [ Position 0 [leaf 5; leaf 8]; Position 0 [leaf 5] ];
      Position 0 [ Position 0 [leaf 5] ] ].

(** The second reply of the root leads, one ply further, to a position
    without a move. *)
Definition hidden_fault : GameTree :=
  Position 0
    [ Position 0 [ Position 0 [leaf 5] ];
      Position 0 [ Position 0 [leaf 3]; Position 0 [] ] ].

(** The game given by its tree, with an evaluation that is [-inf]
    everywhere. *)
Definition bottomless_game : ChessLib := {|
  Board := GameTree;
  Flags := unit;
  Piece := unit;
  Square := nat;
  Promote := unit;
  Key := nat;
  Key_eq_dec := Nat.eq_dec;
  pieces := fun _ _ => [tt];
  piece_square := fun _ => 0;
  availableMoves := fun _ g _ _ => seq 1 (length (replies_of g));
  getPromote := fun _ _ _ _ => tt;
  makeMove := fun side g _ to _ _ =>
    (negb side, nth (to - 1) (replies_of g) (Position 0 []), tt);
  evaluate := fun _ => NegInf;
  encode := fun _ to _ => to
|}.

(** The chooser that takes the first move; like [random.choice] it raises
    [IndexError] on an empty list.  It keeps no state. *)
Definition takes_first {A : Type} (moves : list A) (cs : unit)
  : result (A * unit) :=
  match moves with
  | m :: _ => Return (m, cs)
  | [] => Raise IndexError
  end.

(** * Facts *)

(** ** The order of Python numbers is total *)

Lemma value_compare_eq (a b : value) : value_compare a b = Eq <-> a = b.
Proof.
  destruct a, b; simpl; split; intro H; try discriminate; try reflexivity.
  - f_equal. now apply Qceq_alt.
  - apply Qceq_alt. congruence.
Qed.

Lemma value_compare_antisym (a b : value) :
  value_compare b a = CompOpp (value_compare a b).
Proof.
  destruct a, b; simpl; try reflexivity.
  unfold Qccompare. symmetry. apply Qcompare_antisym.
Qed.

Lemma value_lt_trans (a b c : value) : a <v b -> b <v c -> a <v c.
Proof.
  unfold ValueOrder.lt.
  destruct a, b, c; simpl; try discriminate; try reflexivity.
  rewrite <- !Qclt_alt. apply Qclt_trans.
Qed.

Module ValueOrderFacts <: IsTotalOrder ValueOrder.
Import ValueOrder.

#[global] Instance eq_equiv : Equivalence eq.
Proof. unfold eq. split; congruence. Qed.

#[global] Instance lt_strorder : StrictOrder lt.
Proof.
  split.
  - intros a H. unfold lt in H.
    assert (value_compare a a = Eq) by now apply value_compare_eq.
    congruence.
  - intros a b c. apply value_lt_trans.
Qed.

#[global] Instance lt_compat : Proper (eq ==> eq ==> iff) lt.
Proof. unfold eq. intros a b -> c d ->. reflexivity. Qed.

Lemma le_lteq (x y : value) : le x y <-> lt x y \/ eq x y.
Proof.
  unfold le, lt, eq. rewrite <- value_compare_eq.
  destruct (value_compare x y); split; intro H; auto; try congruence.
  destruct H; discriminate.
Qed.

Lemma lt_total (x y : value) : lt x y \/ eq x y \/ lt y x.
Proof.
  unfold lt, eq.
  rewrite <- value_compare_eq, (value_compare_antisym x y).
  destruct (value_compare x y); simpl; auto.
Qed.

End ValueOrderFacts.

Module VO := !MakeOrderTac ValueOrder ValueOrderFacts.

Lemma NegInf_le (a : value) : NegInf <=v a.
Proof. destruct a; discriminate. Qed.

Lemma le_PosInf (a : value) : a <=v PosInf.
Proof. destruct a; discriminate. Qed.

Lemma py_lt_true (a b : value) : py_lt a b = true -> a <v b.
Proof.
  unfold py_lt, ValueOrder.lt. destruct (value_compare a b); congruence.
Qed.

Lemma py_lt_false (a b : value) : py_lt a b = false -> b <=v a.
Proof.
  unfold py_lt, ValueOrder.le. rewrite (value_compare_antisym a b).
  destruct (value_compare a b); simpl; congruence.
Qed.

Lemma py_gt_true (a b : value) : py_gt a b = true -> b <v a.
Proof. apply py_lt_true. Qed.

Lemma py_gt_false (a b : value) : py_gt a b = false -> a <=v b.
Proof. apply py_lt_false. Qed.

Lemma py_le_true (a b : value) : py_le a b = true -> a <=v b.
Proof.
  unfold py_le, ValueOrder.le. destruct (value_compare a b); congruence.
Qed.

Lemma py_le_false (a b : value) : py_le a b = false -> b <v a.
Proof.
  unfold py_le, ValueOrder.lt. rewrite (value_compare_antisym a b).
  destruct (value_compare a b); simpl; congruence.
Qed.

(** Turns the tests of the code that are in the context into facts of the
    order, adds the two bounds of every number at hand, and decides. *)
Ltac reflect_tests :=
  repeat match goal with
  | H : py_lt _ _ = true |- _ => apply py_lt_true in H
  | H : py_lt _ _ = false |- _ => apply py_lt_false in H
  | H : py_gt _ _ = true |- _ => apply py_gt_true in H
  | H : py_gt _ _ = false |- _ => apply py_gt_false in H
  | H : py_le _ _ = true |- _ => apply py_le_true in H
  | H : py_le _ _ = false |- _ => apply py_le_false in H
  end.

Ltac bound_values :=
  repeat match goal with
  | x : value |- _ =>
      lazymatch goal with
      | _ : NegInf <=v x |- _ => fail
      | _ => pose proof (NegInf_le x); pose proof (le_PosInf x)
      end
  end.

Ltac vorder := reflect_tests; bound_values; subst; VO.order.

Lemma py_max_cases (a b : value) :
  (a <v b /\ py_max a b = b) \/ (b <=v a /\ py_max a b = a).
Proof.
  unfold py_max.
  destruct (py_gt b a) eqn:E; [left | right]; split; auto; vorder.
Qed.

Lemma py_min_cases (a b : value) :
  (b <v a /\ py_min a b = b) \/ (a <=v b /\ py_min a b = a).
Proof.
  unfold py_min.
  destruct (py_lt b a) eqn:E; [left | right]; split; auto; vorder.
Qed.

(** ** Outcomes *)

Lemma bind_Return {A B : Type} (r : result A) (k : A -> result B) (b : B) :
  bind r k = Return b -> exists a, r = Return a /\ k a = Return b.
Proof. destruct r; simpl; intros H; try discriminate. eauto. Qed.

Lemma bind_not_Return {A B : Type} (r : result A) (k : A -> result B) :
  (forall a, r <> Return a) -> forall b, bind r k <> Return b.
Proof.
  intros H b Hb. apply bind_Return in Hb. destruct Hb as (a & Ha & _).
  exact (H a Ha).
Qed.

(** Splits an equation [bind r k = Return b] of the context. *)
Ltac bind_inv H :=
  let a := fresh "a" in
  let Hr := fresh "Hr" in
  apply bind_Return in H; destruct H as (a & Hr & H).

Section SearchFacts.

Context {lib : ChessLib} {arith : PyArith}.

(** ** Depth 0 *)

Lemma minimax_fuel_depth0 (fuel : nat) (side : bool) (board : Board)
  (flags : Flags) :
  minimax_fuel (S fuel) side board flags 0 = Return (evaluate board, [], empty).
Proof. reflexivity. Qed.

Lemma alphabeta_fuel_depth0 (fuel : nat) (side : bool) (board : Board)
  (flags : Flags) (alpha beta : value) :
  alphabeta_fuel (S fuel) side board flags 0 alpha beta
  = Return (evaluate board, [], empty).
Proof. reflexivity. Qed.

(** C6. At depth 0, [minimax] returns exactly [(evaluate(board), [], {})],
    and so does [alphabeta], whatever the bounds [alpha] and [beta]. *)
Theorem depth0_identity (side : bool) (board : Board) (flags : Flags)
  (alpha beta : value) :
  minimax side board flags 0 = Return (evaluate board, [], empty)
  /\ alphabeta side board flags 0 alpha beta
     = Return (evaluate board, [], empty).
Proof. split; reflexivity. Qed.

(** ** Positions without a legal move *)

(** C9. On a position without a legal move, [random] returns
    [(evaluate(board), [], {})] and leaves the chooser alone: the outcome is
    the same for every chooser, also one that raises, and its state is
    handed back as it came. *)
Theorem random_without_moves (CS : Type) (side : bool) (board : Board)
  (flags : Flags) (chooser : list Move -> CS -> result (Move * CS)) (cs : CS) :
  generateMoves side board flags = [] ->
  random side board flags chooser cs
  = Return ((evaluate board, [], empty), cs).
Proof. intros H. unfold random. rewrite H. reflexivity. Qed.

(** [minimax] and [alphabeta] index [moves[0]] before the loop: without a
    legal move, at any depth other than 0, they raise [IndexError]. *)
Lemma minimax_fuel_without_moves (fuel : nat) (side : bool) (board : Board)
  (flags : Flags) (depth : Z) :
  generateMoves side board flags = [] -> depth <> 0%Z ->
  minimax_fuel (S fuel) side board flags depth = Raise IndexError.
Proof.
  intros H Hd. simpl. apply Z.eqb_neq in Hd. rewrite Hd, H. reflexivity.
Qed.

Lemma alphabeta_fuel_without_moves (fuel : nat) (side : bool) (board : Board)
  (flags : Flags) (depth : Z) (alpha beta : value) :
  generateMoves side board flags = [] -> depth <> 0%Z ->
  alphabeta_fuel (S fuel) side board flags depth alpha beta = Raise IndexError.
Proof.
  intros H Hd. simpl. apply Z.eqb_neq in Hd. rewrite Hd, H. reflexivity.
Qed.

(** [stochastic] does so at every depth and breadth. *)
Lemma stochastic_fuel_without_moves (CS : Type)
  (chooser : list Move -> CS -> result (Move * CS)) (fuel : nat)
  (side : bool) (board : Board) (flags : Flags) (depth breadth : Z) (cs : CS) :
  generateMoves side board flags = [] ->
  stochastic_fuel chooser fuel side board flags depth breadth cs
  = Raise IndexError.
Proof. intros H. unfold stochastic_fuel. rewrite H. reflexivity. Qed.

(** ** The sampling helper *)

(** C10. When [stochasticHelper] returns at a depth [d >= 0], its move tree
    is a chain of exactly [d] nested keys, one key per level: the keys of the
    moves the chooser picked, in order. *)
Theorem stochasticHelper_tree_is_chain (CS : Type)
  (chooser : list Move -> CS -> result (Move * CS)) (fuel : nat)
  (side : bool) (board : Board) (flags : Flags) (depth : Z) (cs cs' : CS)
  (v : value) (moveTree : MoveTree) :
  (0 <= depth)%Z ->
  stochasticHelper_fuel chooser fuel side board flags depth cs
  = Return (v, moveTree, cs') ->
  exists moves : list Move,
    length moves = Z.to_nat depth
    /\ moveTree = chain (map encodeMove moves)
    /\ chosen_along chooser side board flags cs moves.
Proof.
  revert side board flags depth cs cs' v moveTree.
  induction fuel as [|fuel IH]; intros side board flags depth cs cs' v moveTree
    Hd H; simpl in H; [discriminate|].
  destruct (depth =? 0)%Z eqn:E.
  - apply Z.eqb_eq in E. subst depth. injection H as <- <- <-.
    exists []. repeat split.
  - apply Z.eqb_neq in E.
    bind_inv H. destruct a as [move cs1].
    destruct (applyMove side board flags move) as [[newSide newBoard] newFlags]
      eqn:Ea.
    bind_inv H. destruct a as [[moveValue moveTree_d1] cs2].
    injection H as <- <- <-.
    apply IH in Hr0; [|lia]. destruct Hr0 as (moves & Hlen & Ht & Hc).
    exists (move :: moves). simpl. repeat split.
    + rewrite Hlen. lia.
    + rewrite Ht. reflexivity.
    + exists cs1. split; [assumption|]. rewrite Ea. assumption.
Qed.

(** ** The samples of [stochastic]

    The sampling loop hands the chooser state from one run of the helper to
    the next, and the loop on the moves hands it from one move to the
    next. *)

Section Samples.

Variable CS : Type.
Variable chooser : list Move -> CS -> result (Move * CS).
Variables (fuel : nat) (side : bool) (board : Board) (flags : Flags).
Variables (depth breadth : Z).

Lemma sample_loop_drawn (helper : CS -> result (value * MoveTree * CS))
  (n : nat) (encodedMove : Key) :
  forall (sum : value) (moveTree : MoveTree) (cs : CS) (sum' : value)
    (moveTree' : MoveTree) (cs' : CS),
    sample_loop helper n encodedMove sum moveTree cs
    = Return (sum', moveTree', cs') ->
    exists samples,
      length samples = n
      /\ drawn helper cs samples cs'
      /\ sum' = fold_left py_add (map fst samples) sum.
Proof.
  induction n as [|n IH]; intros sum moveTree cs sum' moveTree' cs' H;
    simpl in H.
  - injection H as <- <- <-. exists []. repeat split.
  - bind_inv H. destruct a as [[moveValue moveTree_d1] cs1].
    apply IH in H. destruct H as (samples & Hlen & Hd & Hsum).
    exists ((moveValue, moveTree_d1) :: samples). simpl.
    repeat split; [congruence | eauto | assumption].
Qed.

Lemma sample_move_drawn (move : Move) (moveTree moveTree' : MoveTree)
  (cs cs' : CS) (average : value) :
  sample_move chooser fuel side board flags depth breadth move moveTree cs
  = Return (average, moveTree', cs') ->
  exists samples,
    samples_of chooser fuel side board flags depth breadth move cs samples cs'
    /\ breadth <> 0%Z
    /\ average = average_of_samples breadth samples.
Proof.
  unfold sample_move, samples_of, average_of_samples. intros H.
  destruct (applyMove side board flags move) as [[newSide newBoard] newFlags].
  bind_inv H. destruct a as [[sum moveTree1] cs1].
  bind_inv H. injection H as <- <- <-.
  unfold truediv in Hr0. destruct (breadth =? 0)%Z eqn:E; [discriminate|].
  injection Hr0 as <-. apply Z.eqb_neq in E.
  apply sample_loop_drawn in Hr. destruct Hr as (samples & Hlen & Hd & ->).
  exists samples. repeat split; auto.
Qed.

(** What the helper returns is the evaluation of a board. *)
Lemma stochasticHelper_fuel_evaluates (n : nat) :
  forall (s : bool) (b : Board) (f : Flags) (d : Z) (cs cs' : CS)
    (v : value) (t : MoveTree),
    stochasticHelper_fuel chooser n s b f d cs = Return (v, t, cs') ->
    exists b', v = evaluate b'.
Proof.
  induction n as [|n IH]; intros s b f d cs cs' v t H; simpl in H;
    [discriminate|].
  destruct (d =? 0)%Z.
  - injection H as <- <- <-. eauto.
  - bind_inv H. destruct a as [move cs1].
    destruct (applyMove s b f move) as [[newSide newBoard] newFlags].
    bind_inv H. destruct a as [[moveValue moveTree_d1] cs2].
    injection H as <- <- <-. eapply IH. eassumption.
Qed.

Lemma samples_of_finite (move : Move) (cs cs' : CS)
  (samples : list (value * MoveTree)) :
  finite_scores ->
  samples_of chooser fuel side board flags depth breadth move cs samples cs' ->
  Forall (fun sample => exists q, fst sample = Num q) samples.
Proof.
  intros Hfin. unfold samples_of.
  destruct (applyMove side board flags move) as [[newSide newBoard] newFlags].
  intros [_ Hd]. revert cs Hd.
  induction samples as [|[v t] samples IH]; intros cs Hd; constructor.
  - destruct Hd as (cs1 & Hr & _).
    apply stochasticHelper_fuel_evaluates in Hr. destruct Hr as (b' & ->).
    apply Hfin.
  - destruct Hd as (cs1 & _ & Hd). eapply IH. eassumption.
Qed.

End Samples.

(** ** Merging the samples of a move

    A sample is a chain, a dictionary with one key.  [update] stores its one
    item into the entry of the move: the subtree under that key is replaced,
    the other keys of the entry stay. *)

Lemma lookup_set_items (k k' : Key) (v : MoveTree)
  (items : list (Key * MoveTree)) :
  lookup k (set_items k' v items)
  = if Key_eq_dec k k' then Some v else lookup k items.
Proof.
  induction items as [|[k0 v0] items IH]; simpl.
  - destruct (Key_eq_dec k k'); reflexivity.
  - destruct (Key_eq_dec k' k0) as [-> | Hne]; simpl.
    + destruct (Key_eq_dec k k0); reflexivity.
    + destruct (Key_eq_dec k k0) as [-> | Hne'].
      * destruct (Key_eq_dec k0 k'); [congruence | reflexivity].
      * exact IH.
Qed.

Lemma update_replaces (entry sub : MoveTree) (k : Key) :
  lookup k (items_of (update entry (Dict [(k, sub)]))) = Some sub.
Proof.
  unfold update, setitem. simpl. rewrite lookup_set_items.
  destruct (Key_eq_dec k k); [reflexivity | congruence].
Qed.

Lemma update_keeps_other_keys (entry sub : MoveTree) (k k' : Key) :
  k <> k' ->
  lookup k (items_of (update entry (Dict [(k', sub)])))
  = lookup k (items_of entry).
Proof.
  intros Hne. unfold update, setitem. simpl. rewrite lookup_set_items.
  destruct (Key_eq_dec k k'); [congruence | reflexivity].
Qed.

(** ** [alphabeta] against [minimax] *)

Lemma NegInf_lt_PosInf : NegInf <v PosInf.
Proof. reflexivity. Qed.

Lemma value_eq_dec (a b : value) : a = b \/ a <> b.
Proof.
  destruct (ValueOrderFacts.lt_total a b) as [H | [H | H]];
    [right | left | right];
    try assumption; intro; subst; revert H; apply VO.lt_irrefl.
Qed.

Lemma agrees_cases (alpha beta v r : value) (l l' : list Move)
  (t t' : MoveTree) :
  agrees alpha beta (v, l, t) (r, l', t') ->
  (exact_in alpha beta v /\ r = v /\ l' = l)
  \/ (alpha <> NegInf /\ v <=v alpha /\ v <=v r /\ r <=v alpha)
  \/ (beta <> PosInf /\ beta <=v v /\ beta <=v r /\ r <=v v).
Proof.
  unfold agrees, exact_in. intros (H1 & H2 & H3).
  destruct (value_eq_dec alpha NegInf) as [Ha | Ha];
    destruct (value_eq_dec beta PosInf) as [Hb | Hb];
    destruct (ValueOrderFacts.lt_total alpha v) as [Hav | [Hav | Hav]];
    destruct (ValueOrderFacts.lt_total v beta) as [Hvb | [Hvb | Hvb]];
    try (left; split; [auto | apply H1; auto]; fail);
    try (right; left; split; [assumption|];
         assert (Hle : v <=v alpha) by vorder;
         destruct (H2 Hle); auto; fail);
    try (right; right; split; [assumption|];
         assert (Hle : beta <=v v) by vorder;
         destruct (H3 Hle); auto; fail).
Qed.

Lemma minimax_max_loop_grows
  (recur : bool -> Board -> Flags -> Z -> result SearchResult)
  (side : bool) (board : Board) (flags : Flags) (depth : Z)
  (moves : list Move) (h : value) (bm : Move) (bl : list Move) (t : MoveTree)
  (H : value) (BM : Move) (BL : list Move) (T : MoveTree) :
  minimax_max_loop recur side board flags depth moves h bm bl t
  = Return (H, BM, BL, T) ->
  h <=v H /\ (H = h -> BM = bm /\ BL = bl).
Proof.
  revert h bm bl t.
  induction moves as [|m moves IH]; intros h bm bl t Hl; simpl in Hl.
  - injection Hl as <- <- <- <-. split; [vorder | auto].
  - destruct (applyMove side board flags m) as [[newSide newBoard] newFlags].
    bind_inv Hl. destruct a as [[v l] tr].
    destruct (py_gt v h) eqn:E; apply IH in Hl; destruct Hl as [Hle Heq];
      split; try vorder; try assumption.
Qed.

Lemma minimax_min_loop_shrinks
  (recur : bool -> Board -> Flags -> Z -> result SearchResult)
  (side : bool) (board : Board) (flags : Flags) (depth : Z)
  (moves : list Move) (h : value) (bm : Move) (bl : list Move) (t : MoveTree)
  (H : value) (BM : Move) (BL : list Move) (T : MoveTree) :
  minimax_min_loop recur side board flags depth moves h bm bl t
  = Return (H, BM, BL, T) ->
  H <=v h /\ (H = h -> BM = bm /\ BL = bl).
Proof.
  revert h bm bl t.
  induction moves as [|m moves IH]; intros h bm bl t Hl; simpl in Hl.
  - injection Hl as <- <- <- <-. split; [vorder | auto].
  - destruct (applyMove side board flags m) as [[newSide newBoard] newFlags].
    bind_inv Hl. destruct a as [[v l] tr].
    destruct (py_lt v h) eqn:E; apply IH in Hl; destruct Hl as [Hle Heq];
      split; try vorder; try assumption.
Qed.

(** Case analysis on the facts at hand, and the three ways a branch of a
    loop ends: the tests contradict each other, the loop stops, or it goes
    on with related variables. *)
Ltac split_facts :=
  repeat match goal with
  | H : _ /\ _ |- _ => destruct H
  | H : _ \/ _ |- _ => destruct H
  | H : exact_in _ _ _ |- _ => unfold exact_in in H
  end.

Ltac use_unchanged :=
  match goal with
  | Hsame : ?x = ?y -> _ /\ _ |- _ =>
      let E := fresh "E" in
      assert (E : x = y) by vorder;
      destruct (Hsame E); clear Hsame
  end.

Ltac close_fact :=
  solve [ assumption | reflexivity | congruence | vorder
        | left; close_fact | right; close_fact ].

Ltac head_of t :=
  lazymatch t with
  | ?f _ => head_of f
  | _ => t
  end.

(** One more move in both loops: [Hl] is the rest of the loop of [minimax],
    [IH] the statement for the moves that remain and [grows] the fact that
    the running value of [minimax] only moves one way. *)
Ltac loop_step IH Hl grows :=
  let Hl' := fresh "Hl'" in
  let Hgrow := fresh "Hgrow" in
  let Hsame := fresh "Hsame" in
  pose proof Hl as Hl';
  match type of Hl with
  | (if ?c then _ else _) = _ => destruct c eqn:?
  end;
  apply grows in Hl'; destruct Hl' as [Hgrow Hsame];
  match goal with
  | |- context [if ?c then (_, _, _) else _] => destruct c eqn:?
  end;
  cbv beta iota;
  first
    [ match goal with
      | |- context [py_max ?x ?y] =>
          destruct (py_max_cases x y) as [[? ->] | [? ->]]
      end
    | match goal with
      | |- context [py_min ?x ?y] =>
          destruct (py_min_cases x y) as [[? ->] | [? ->]]
      end ];
  match goal with
  | |- context [py_le ?x ?y] => destruct (py_le x y) eqn:?
  end;
  unfold max_loops_related, min_loops_related in *; split_facts;
  try (exfalso; vorder);
  try (eapply IH; [ | | eassumption];
       [ vorder | unfold max_loops_related, min_loops_related ];
       solve [ left; repeat split; close_fact
             | right; repeat split; close_fact ]);
  do 4 eexists; (split; [reflexivity|]);
  match goal with |- ?G => let h := head_of G in unfold h end;
  unfold exact_in;
  (split; [intros [? ?] | split; intros ?]); split_facts;
  first [ exfalso; vorder
        | split; vorder
        | use_unchanged; repeat split; close_fact ].

Section OneLevel.

(** The recursive calls of one level: [mm] is [minimax] and [ab] is
    [alphabeta] at the depth below, where they agree on every window. *)
Variable mm : bool -> Board -> Flags -> Z -> result SearchResult.
Variable ab : bool -> Board -> Flags -> Z -> value -> value ->
              result SearchResult.
Variable depth : Z.
Hypothesis below :
  forall side board flags alpha beta rm,
    alpha <v beta ->
    mm side board flags (depth - 1)%Z = Return rm ->
    exists ra,
      ab side board flags (depth - 1)%Z alpha beta = Return ra
      /\ agrees alpha beta rm ra.

Lemma alphabeta_max_loop_agrees (side : bool) (board : Board) (flags : Flags)
  (moves : list Move) (alpha0 beta : value) :
  alpha0 <v beta ->
  forall (a hm ha : value) (bmm bma : Move) (blm bla : list Move)
    (tm ta : MoveTree) (H : value) (BM : Move) (BL : list Move) (T : MoveTree),
    a <v beta ->
    max_loops_related alpha0 a hm ha bmm bma blm bla ->
    minimax_max_loop mm side board flags depth moves hm bmm blm tm
    = Return (H, BM, BL, T) ->
    exists H' BM' BL' T',
      alphabeta_max_loop ab side board flags depth moves a beta ha bma bla ta
      = Return (H', BM', BL', T')
      /\ loops_agree alpha0 beta H H' BM BM' BL BL'.
Proof.
  intros Hab0.
  induction moves as [|m moves IH];
    intros a hm ha bmm bma blm bla tm ta H BM BL T Hab Hrel Hl;
    simpl in Hl |- *.
  - injection Hl as <- <- <- <-. do 4 eexists. split; [reflexivity|].
    unfold loops_agree, exact_in.
    destruct Hrel as [(Hlo & -> & -> & -> & ->) | (Hn & H1 & H2 & ->)].
    + split; [intros _; auto | split; intros Hc; split; vorder].
    + split; [intros [[Hc | Hc] _]; exfalso; [vorder | congruence] |].
      split; intros Hc; split; vorder.
  - destruct (applyMove side board flags m) as [[newSide newBoard] newFlags].
    bind_inv Hl. destruct a0 as [[t l] tr].
    destruct (below Hab Hr) as ([[r l'] tr'] & Hra & Hag).
    rewrite Hra. simpl.
    apply agrees_cases in Hag.
    loop_step IH Hl minimax_max_loop_grows.
Qed.

Lemma alphabeta_min_loop_agrees (side : bool) (board : Board) (flags : Flags)
  (moves : list Move) (alpha beta0 : value) :
  alpha <v beta0 ->
  forall (b hm ha : value) (bmm bma : Move) (blm bla : list Move)
    (tm ta : MoveTree) (H : value) (BM : Move) (BL : list Move) (T : MoveTree),
    alpha <v b ->
    min_loops_related beta0 b hm ha bmm bma blm bla ->
    minimax_min_loop mm side board flags depth moves hm bmm blm tm
    = Return (H, BM, BL, T) ->
    exists H' BM' BL' T',
      alphabeta_min_loop ab side board flags depth moves alpha b ha bma bla ta
      = Return (H', BM', BL', T')
      /\ loops_agree alpha beta0 H H' BM BM' BL BL'.
Proof.
  intros Hab0.
  induction moves as [|m moves IH];
    intros b hm ha bmm bma blm bla tm ta H BM BL T Hab Hrel Hl;
    simpl in Hl |- *.
  - injection Hl as <- <- <- <-. do 4 eexists. split; [reflexivity|].
    unfold loops_agree, exact_in.
    destruct Hrel as [(Hlo & -> & -> & -> & ->) | (Hn & H1 & H2 & ->)].
    + split; [intros _; auto | split; intros Hc; split; vorder].
    + split; [intros [_ [Hc | Hc]]; exfalso; [vorder | congruence] |].
      split; intros Hc; split; vorder.
  - destruct (applyMove side board flags m) as [[newSide newBoard] newFlags].
    bind_inv Hl. destruct a as [[t l] tr].
    destruct (below Hab Hr) as ([[r l'] tr'] & Hra & Hag).
    rewrite Hra. simpl.
    apply agrees_cases in Hag.
    loop_step IH Hl minimax_min_loop_shrinks.
Qed.
End OneLevel.

Lemma minimax_fuel_unfold (fuel : nat) (side : bool) (board : Board)
  (flags : Flags) (depth : Z) :
  depth <> 0%Z ->
  minimax_fuel (S fuel) side board flags depth
  = match generateMoves side board flags with
    | [] => Raise IndexError
    | bestMove :: _ =>
        match side with
        | false =>
            '(heuristic, bestMove, bestList, moveTree) <-
              minimax_max_loop (minimax_fuel fuel) side board flags depth
                (generateMoves side board flags) NegInf bestMove [] empty ;;
            Return (heuristic, bestMove :: bestList, moveTree)
        | true =>
            '(heuristic, bestMove, bestList, moveTree) <-
              minimax_min_loop (minimax_fuel fuel) side board flags depth
                (generateMoves side board flags) PosInf bestMove [] empty ;;
            Return (heuristic, bestMove :: bestList, moveTree)
        end
    end.
Proof.
  intros Hd. apply Z.eqb_neq in Hd.
  change (minimax_fuel (S fuel) side board flags depth) with
    (if (depth =? 0)%Z then Return (evaluate board, @nil Move, empty)
     else match generateMoves side board flags with
          | [] => Raise IndexError
          | bestMove :: _ =>
              match side with
              | false =>
                  '(heuristic, bestMove, bestList, moveTree) <-
                    minimax_max_loop (minimax_fuel fuel) side board flags depth
                      (generateMoves side board flags) NegInf bestMove []
                      empty ;;
                  Return (heuristic, bestMove :: bestList, moveTree)
              | true =>
                  '(heuristic, bestMove, bestList, moveTree) <-
                    minimax_min_loop (minimax_fuel fuel) side board flags depth
                      (generateMoves side board flags) PosInf bestMove []
                      empty ;;
                  Return (heuristic, bestMove :: bestList, moveTree)
              end
          end).
  rewrite Hd. reflexivity.
Qed.

Lemma alphabeta_fuel_unfold (fuel : nat) (side : bool) (board : Board)
  (flags : Flags) (depth : Z) (alpha beta : value) :
  depth <> 0%Z ->
  alphabeta_fuel (S fuel) side board flags depth alpha beta
  = match generateMoves side board flags with
    | [] => Raise IndexError
    | bestMove :: _ =>
        match side with
        | false =>
            '(heuristic, bestMove, bestList, moveTree) <-
              alphabeta_max_loop (alphabeta_fuel fuel) side board flags depth
                (generateMoves side board flags) alpha beta NegInf bestMove []
                empty ;;
            Return (heuristic, bestMove :: bestList, moveTree)
        | true =>
            '(heuristic, bestMove, bestList, moveTree) <-
              alphabeta_min_loop (alphabeta_fuel fuel) side board flags depth
                (generateMoves side board flags) alpha beta PosInf bestMove []
                empty ;;
            Return (heuristic, bestMove :: bestList, moveTree)
        end
    end.
Proof.
  intros Hd. apply Z.eqb_neq in Hd.
  change (alphabeta_fuel (S fuel) side board flags depth alpha beta) with
    (if (depth =? 0)%Z then Return (evaluate board, @nil Move, empty)
     else match generateMoves side board flags with
          | [] => Raise IndexError
          | bestMove :: _ =>
              match side with
              | false =>
                  '(heuristic, bestMove, bestList, moveTree) <-
                    alphabeta_max_loop (alphabeta_fuel fuel) side board flags
                      depth (generateMoves side board flags) alpha beta NegInf
                      bestMove [] empty ;;
                  Return (heuristic, bestMove :: bestList, moveTree)
              | true =>
                  '(heuristic, bestMove, bestList, moveTree) <-
                    alphabeta_min_loop (alphabeta_fuel fuel) side board flags
                      depth (generateMoves side board flags) alpha beta PosInf
                      bestMove [] empty ;;
                  Return (heuristic, bestMove :: bestList, moveTree)
              end
          end).
  rewrite Hd. reflexivity.
Qed.

(** On every window [alpha < beta], [alphabeta] returns wherever [minimax]
    does, with a result that agrees with it. *)
Lemma alphabeta_fuel_agrees (n : nat) :
  forall (depth : Z) (side : bool) (board : Board) (flags : Flags)
    (alpha beta : value) (rm : SearchResult),
    Z.to_nat depth = n -> (0 <= depth)%Z ->
    alpha <v beta ->
    minimax_fuel (S n) side board flags depth = Return rm ->
    exists ra,
      alphabeta_fuel (S n) side board flags depth alpha beta = Return ra
      /\ agrees alpha beta rm ra.
Proof.
  induction n as [|n IH];
    intros depth side board flags alpha beta rm Hn Hd Hab H.
  - assert (depth = 0%Z) as -> by lia.
    rewrite minimax_fuel_depth0 in H. injection H as <-.
    rewrite alphabeta_fuel_depth0. eexists. split; [reflexivity|].
    unfold agrees. repeat split; auto; vorder.
  - assert (Hd0 : depth <> 0%Z) by lia.
    assert (below :
      forall side board flags alpha beta rm,
        alpha <v beta ->
        minimax_fuel (S n) side board flags (depth - 1)%Z = Return rm ->
        exists ra,
          alphabeta_fuel (S n) side board flags (depth - 1)%Z alpha beta
          = Return ra /\ agrees alpha beta rm ra).
    { intros. eapply IH; eauto; lia. }
    rewrite minimax_fuel_unfold in H by assumption.
    rewrite alphabeta_fuel_unfold by assumption.
    destruct (generateMoves side board flags) as [|m0 moves]; [discriminate|].
    destruct side.
    + bind_inv H. destruct a as [[[h bm] bl] t]. injection H as <-.
      eapply (@alphabeta_min_loop_agrees _ _ _ below) with
        (b := beta) (ha := PosInf) (bma := m0) (bla := []) (ta := empty)
        in Hr; [ | eassumption | assumption | ].
      * destruct Hr as (h' & bm' & bl' & t' & -> & Hag). simpl.
        eexists. split; [reflexivity|].
        destruct Hag as (H1 & H2 & H3). unfold agrees.
        split; [|split]; auto.
        intros Hx. destruct (H1 Hx) as (-> & -> & ->). auto.
      * unfold min_loops_related.
        destruct (value_eq_dec beta PosInf) as [-> | Hb].
        -- left. repeat split; auto.
        -- right. repeat split; auto; vorder.
    + bind_inv H. destruct a as [[[h bm] bl] t]. injection H as <-.
      eapply (@alphabeta_max_loop_agrees _ _ _ below) with
        (a := alpha) (ha := NegInf) (bma := m0) (bla := []) (ta := empty)
        in Hr; [ | eassumption | assumption | ].
      * destruct Hr as (h' & bm' & bl' & t' & -> & Hag). simpl.
        eexists. split; [reflexivity|].
        destruct Hag as (H1 & H2 & H3). unfold agrees.
        split; [|split]; auto.
        intros Hx. destruct (H1 Hx) as (-> & -> & ->). auto.
      * unfold max_loops_related.
        destruct (value_eq_dec alpha NegInf) as [-> | Hb].
        -- left. repeat split; auto.
        -- right. repeat split; auto; vorder.
Qed.

(** For every depth [d >= 0] and every position on which [minimax] returns,
    [alphabeta] with its default bounds [-inf] and [+inf] returns the same
    value and the same move list; the move tree is its own. *)
Theorem alphabeta_returns_what_minimax_returns (side : bool) (board : Board)
  (flags : Flags) (depth : Z) (v : value) (moveList : list Move)
  (moveTree : MoveTree) :
  (0 <= depth)%Z ->
  minimax side board flags depth = Return (v, moveList, moveTree) ->
  exists moveTree',
    alphabeta side board flags depth NegInf PosInf
    = Return (v, moveList, moveTree').
Proof.
  unfold minimax, alphabeta. intros Hd H.
  eapply alphabeta_fuel_agrees with (alpha := NegInf) (beta := PosInf) in H;
    [ | reflexivity | assumption | reflexivity ].
  destruct H as ([[r l'] t'] & -> & Hag & _).
  destruct Hag as [-> ->]; [unfold exact_in; auto|].
  eauto.
Qed.

(** ** The size of the move trees *)

Lemma node_count_cons (k : Key) (sub : MoveTree)
  (rest : list (Key * MoveTree)) :
  node_count (Dict ((k, sub) :: rest))
  = S (node_count sub) + node_count (Dict rest).
Proof. reflexivity. Qed.

Lemma set_items_fresh (k : Key) (v : MoveTree) (items : list (Key * MoveTree)) :
  ~ In k (map fst items) ->
  map fst (set_items k v items) = map fst items ++ [k]
  /\ node_count (Dict (set_items k v items))
     = node_count (Dict items) + S (node_count v).
Proof.
  induction items as [|[k' v'] items IH]; intros Hk.
  - simpl. split; [reflexivity | lia].
  - simpl in Hk. cbn [set_items].
    destruct (Key_eq_dec k k') as [-> | Hne]; [exfalso; auto|].
    destruct IH as [IH1 IH2]; [tauto|].
    split.
    + simpl. f_equal. exact IH1.
    + rewrite !node_count_cons, IH2. lia.
Qed.

Lemma setitem_fresh (k : Key) (v t : MoveTree) :
  ~ In k (keys t) ->
  keys (setitem k v t) = keys t ++ [k]
  /\ node_count (setitem k v t) = node_count t + S (node_count v).
Proof.
  destruct t as [items]. unfold keys, setitem. simpl. apply set_items_fresh.
Qed.

Lemma NoDup_app_cons_fresh (A : Type) (l r : list A) (x : A) :
  NoDup (l ++ x :: r) -> ~ In x l /\ NoDup ((l ++ [x]) ++ r).
Proof.
  intros H. split.
  - apply NoDup_remove_2 in H. intro Hin. apply H. apply in_or_app. auto.
  - rewrite <- app_assoc. exact H.
Qed.

(** One step of a loop on the tree: the key of the move is new. *)
Ltac fresh_key Hnd :=
  apply NoDup_app_cons_fresh in Hnd;
  let Hfresh := fresh "Hfresh" in
  destruct Hnd as [Hfresh Hnd].

Lemma minimax_max_loop_count
  (recur : bool -> Board -> Flags -> Z -> result SearchResult)
  (side : bool) (board : Board) (flags : Flags) (depth : Z)
  (moves : list Move) (h : value) (bm : Move) (bl : list Move) (t : MoveTree)
  (H : value) (BM : Move) (BL : list Move) (T : MoveTree) :
  NoDup (keys t ++ map encodeMove moves) ->
  minimax_max_loop recur side board flags depth moves h bm bl t
  = Return (H, BM, BL, T) ->
  node_count t <= node_count T.
Proof.
  revert h bm bl t.
  induction moves as [|m moves IH]; intros h bm bl t Hnd Hl; simpl in Hl.
  - injection Hl as <- <- <- <-. lia.
  - destruct (applyMove side board flags m) as [[newSide newBoard] newFlags].
    bind_inv Hl. destruct a as [[v l] tr]. simpl in Hnd. fresh_key Hnd.
    destruct (setitem_fresh (encodeMove m) tr t Hfresh) as [Hk Hc].
    rewrite <- Hk in Hnd.
    destruct (py_gt v h); apply IH in Hl; auto; lia.
Qed.

Lemma minimax_min_loop_count
  (recur : bool -> Board -> Flags -> Z -> result SearchResult)
  (side : bool) (board : Board) (flags : Flags) (depth : Z)
  (moves : list Move) (h : value) (bm : Move) (bl : list Move) (t : MoveTree)
  (H : value) (BM : Move) (BL : list Move) (T : MoveTree) :
  NoDup (keys t ++ map encodeMove moves) ->
  minimax_min_loop recur side board flags depth moves h bm bl t
  = Return (H, BM, BL, T) ->
  node_count t <= node_count T.
Proof.
  revert h bm bl t.
  induction moves as [|m moves IH]; intros h bm bl t Hnd Hl; simpl in Hl.
  - injection Hl as <- <- <- <-. lia.
  - destruct (applyMove side board flags m) as [[newSide newBoard] newFlags].
    bind_inv Hl. destruct a as [[v l] tr]. simpl in Hnd. fresh_key Hnd.
    destruct (setitem_fresh (encodeMove m) tr t Hfresh) as [Hk Hc].
    rewrite <- Hk in Hnd.
    destruct (py_lt v h); apply IH in Hl; auto; lia.
Qed.

Section OneLevelCount.

Variable mm : bool -> Board -> Flags -> Z -> result SearchResult.
Variable ab : bool -> Board -> Flags -> Z -> value -> value ->
              result SearchResult.
Variable depth : Z.
Hypothesis below :
  forall side board flags alpha beta v l t,
    mm side board flags (depth - 1)%Z = Return (v, l, t) ->
    exists v' l' t',
      ab side board flags (depth - 1)%Z alpha beta = Return (v', l', t')
      /\ node_count t' <= node_count t.

(** Both loops, one move further. *)
Ltac count_step IH Hl Hnd Hkeys grows :=
  match type of Hl with
  | bind (?mm ?s ?b ?f _) _ = _ =>
      let Hr := fresh "Hr" in
      let a := fresh "a" in
      apply bind_Return in Hl; destruct Hl as (a & Hr & Hl);
      destruct a as [[?v ?l] ?tr];
      match goal with
      | |- context [ab s b f _ ?alpha ?beta] =>
          let Hra := fresh "Hra" in
          let Hle := fresh "Hle" in
          destruct (below alpha beta Hr) as (?v' & ?l' & ?tr' & Hra & Hle);
          rewrite Hra; simpl
      end
  end;
  simpl in Hnd; fresh_key Hnd;
  match goal with
  | Hf : ~ In ?k (keys ?tm), Hle : node_count ?tr' <= node_count ?tr
    |- context [setitem ?k ?tr' ?ta] =>
      let Hk := fresh "Hk" in let Hc := fresh "Hc" in
      let Hk' := fresh "Hk'" in let Hc' := fresh "Hc'" in
      destruct (setitem_fresh k tr tm Hf) as [Hk Hc];
      assert (Hf' : ~ In k (keys ta)) by (rewrite Hkeys; exact Hf);
      destruct (setitem_fresh k tr' ta Hf') as [Hk' Hc'];
      rewrite <- Hk in Hnd;
      assert (keys (setitem k tr' ta) = keys (setitem k tr tm))
        by (rewrite Hk, Hk', Hkeys; reflexivity);
      assert (node_count (setitem k tr' ta) <= node_count (setitem k tr tm))
        by lia
  end;
  repeat match goal with
  | |- context [if ?c then _ else _] => destruct c
  | H : context [if ?c then _ else _] |- _ => destruct c
  end;
  cbv beta iota;
  first [ eapply IH; eassumption
        | do 4 eexists; split; [reflexivity|];
          apply grows in Hl; [lia | assumption] ].

Lemma alphabeta_max_loop_count (side : bool) (board : Board) (flags : Flags)
  (moves : list Move) :
  forall (a beta hm ha : value) (bmm bma : Move) (blm bla : list Move)
    (tm ta : MoveTree) (H : value) (BM : Move) (BL : list Move) (T : MoveTree),
    NoDup (keys tm ++ map encodeMove moves) ->
    keys ta = keys tm ->
    node_count ta <= node_count tm ->
    minimax_max_loop mm side board flags depth moves hm bmm blm tm
    = Return (H, BM, BL, T) ->
    exists H' BM' BL' T',
      alphabeta_max_loop ab side board flags depth moves a beta ha bma bla ta
      = Return (H', BM', BL', T')
      /\ node_count T' <= node_count T.
Proof.
  induction moves as [|m moves IH];
    intros a beta hm ha bmm bma blm bla tm ta H BM BL T Hnd Hkeys Hcount Hl;
    simpl in Hl |- *.
  - injection Hl as <- <- <- <-. do 4 eexists.
    split; [reflexivity | assumption].
  - destruct (applyMove side board flags m) as [[newSide newBoard] newFlags].
    count_step IH Hl Hnd Hkeys minimax_max_loop_count.
Qed.

Lemma alphabeta_min_loop_count (side : bool) (board : Board) (flags : Flags)
  (moves : list Move) :
  forall (alpha b hm ha : value) (bmm bma : Move) (blm bla : list Move)
    (tm ta : MoveTree) (H : value) (BM : Move) (BL : list Move) (T : MoveTree),
    NoDup (keys tm ++ map encodeMove moves) ->
    keys ta = keys tm ->
    node_count ta <= node_count tm ->
    minimax_min_loop mm side board flags depth moves hm bmm blm tm
    = Return (H, BM, BL, T) ->
    exists H' BM' BL' T',
      alphabeta_min_loop ab side board flags depth moves alpha b ha bma bla ta
      = Return (H', BM', BL', T')
      /\ node_count T' <= node_count T.
Proof.
  induction moves as [|m moves IH];
    intros alpha b hm ha bmm bma blm bla tm ta H BM BL T Hnd Hkeys Hcount Hl;
    simpl in Hl |- *.
  - injection Hl as <- <- <- <-. do 4 eexists.
    split; [reflexivity | assumption].
  - destruct (applyMove side board flags m) as [[newSide newBoard] newFlags].
    count_step IH Hl Hnd Hkeys minimax_min_loop_count.
Qed.

End OneLevelCount.

Lemma alphabeta_fuel_count (Hkeys : keys_unique) (fuel : nat) :
  forall (side : bool) (board : Board) (flags : Flags) (depth : Z)
    (alpha beta v : value) (l : list Move) (t : MoveTree),
    minimax_fuel fuel side board flags depth = Return (v, l, t) ->
    exists v' l' t',
      alphabeta_fuel fuel side board flags depth alpha beta
      = Return (v', l', t')
      /\ node_count t' <= node_count t.
Proof.
  induction fuel as [|fuel IH];
    intros side board flags depth alpha beta v l t H; [discriminate|].
  destruct (Z.eq_dec depth 0) as [-> | Hd].
  - rewrite minimax_fuel_depth0 in H. injection H as <- <- <-.
    rewrite alphabeta_fuel_depth0. do 3 eexists. split; [reflexivity | lia].
  - assert (below :
      forall side board flags alpha beta v l t,
        minimax_fuel fuel side board flags (depth - 1)%Z = Return (v, l, t) ->
        exists v' l' t',
          alphabeta_fuel fuel side board flags (depth - 1)%Z alpha beta
          = Return (v', l', t') /\ node_count t' <= node_count t).
    { intros. eapply IH; eauto. }
    rewrite minimax_fuel_unfold in H by assumption.
    rewrite alphabeta_fuel_unfold by assumption.
    pose proof (Hkeys side board flags) as Hnd.
    destruct (generateMoves side board flags) as [|m0 moves]; [discriminate|].
    destruct side.
    + bind_inv H. destruct a as [[[h bm] bl] tm]. injection H as <- <- <-.
      eapply (@alphabeta_min_loop_count _ _ _ below) with
        (alpha := alpha) (b := beta) (ha := PosInf) (bma := m0) (bla := [])
        (ta := empty) in Hr; auto.
      destruct Hr as (h' & bm' & bl' & t' & -> & Hle). simpl. eauto.
    + bind_inv H. destruct a as [[[h bm] bl] tm]. injection H as <- <- <-.
      eapply (@alphabeta_max_loop_count _ _ _ below) with
        (a := alpha) (beta := beta) (ha := NegInf) (bma := m0) (bla := [])
        (ta := empty) in Hr; auto.
      destruct Hr as (h' & bm' & bl' & t' & -> & Hle). simpl. eauto.
Qed.

(** C7. With keys that tell the moves of a position apart, and on the same
    side, board, flags and depth, the move tree that [alphabeta] returns
    (default bounds) has at most as many nodes as the one [minimax]
    returns. *)
Theorem alphabeta_tree_no_larger (side : bool) (board : Board)
  (flags : Flags) (depth : Z) (v : value) (moveList : list Move)
  (moveTree : MoveTree) :
  keys_unique ->
  minimax side board flags depth = Return (v, moveList, moveTree) ->
  exists v' moveList' moveTree',
    alphabeta side board flags depth NegInf PosInf
    = Return (v', moveList', moveTree')
    /\ node_count moveTree' <= node_count moveTree.
Proof.
  intros Hkeys H. unfold minimax in H. unfold alphabeta.
  eapply alphabeta_fuel_count in H; eauto.
Qed.

(** ** Ties *)

Lemma first_best_first (side : bool) (move : Move) (h : value) :
  first_best side [(move, h)] move h.
Proof. exists [], []. repeat split; constructor. Qed.

Lemma first_best_keep (side : bool) (seen : list (Move * value))
  (bm m : Move) (h v : value) :
  first_best side seen bm h -> no_better side v h ->
  first_best side (seen ++ [(m, v)]) bm h.
Proof.
  intros (before & after & -> & Hb & Ha) Hv.
  exists before, (after ++ [(m, v)]). repeat split; auto.
  - rewrite <- app_assoc. reflexivity.
  - apply Forall_app. split; auto.
Qed.

Lemma first_best_replace (side : bool) (seen : list (Move * value))
  (bm m : Move) (h v : value) :
  first_best side seen bm h -> worse side h v ->
  first_best side (seen ++ [(m, v)]) m v.
Proof.
  intros (before & after & -> & Hb & Ha) Hv.
  exists (before ++ (bm, h) :: after), []. repeat split; auto.
  apply Forall_app. split; [|constructor; [exact Hv|]].
  - eapply Forall_impl; [|exact Hb]. intros o Ho.
    unfold worse in *. destruct side; simpl in *; vorder.
  - eapply Forall_impl; [|exact Ha]. intros o Ho.
    unfold worse, no_better in *. destruct side; simpl in *; vorder.
Qed.

(** The running best after one more move [m] with value [v]: replaced when
    the test [E] of the loop held, kept when it did not. *)
Ltac best_after IH Hl seen m v :=
  match goal with
  | E : _ = true |- _ =>
      apply (IH (seen ++ [(m, v)])) in Hl;
      [| eapply first_best_replace; [eassumption | simpl; vorder] ]
  | E : _ = false |- _ =>
      apply (IH (seen ++ [(m, v)])) in Hl;
      [| eapply first_best_keep; [eassumption | simpl; vorder] ]
  end.

Lemma minimax_max_loop_first_best
  (recur : bool -> Board -> Flags -> Z -> result SearchResult)
  (side : bool) (board : Board) (flags : Flags) (depth : Z)
  (moves : list Move) :
  forall (seen : list (Move * value)) (h : value) (bm : Move)
    (bl : list Move) (t : MoveTree) (H : value) (BM : Move) (BL : list Move)
    (T : MoveTree),
    first_best false seen bm h ->
    minimax_max_loop recur side board flags depth moves h bm bl t
    = Return (H, BM, BL, T) ->
    exists more,
      map fst more = moves
      /\ Forall (minimax_sees recur side board flags depth) more
      /\ first_best false (seen ++ more) BM H.
Proof.
  induction moves as [|m moves IH]; intros seen h bm bl t H BM BL T Hfb Hl;
    simpl in Hl.
  - injection Hl as <- <- <- <-. exists []. rewrite app_nil_r. auto.
  - destruct (applyMove side board flags m) as [[newSide newBoard] newFlags]
      eqn:Ea.
    bind_inv Hl. destruct a as [[v l] tr].
    assert (Hsee : minimax_sees recur side board flags depth (m, v)).
    { unfold minimax_sees. simpl. rewrite Ea. eauto. }
    destruct (py_gt v h) eqn:E; best_after IH Hl seen m v;
      destruct Hl as (more & Hm & Hall & Hfb');
      exists ((m, v) :: more); rewrite <- app_assoc in Hfb'; simpl;
      repeat split; auto; congruence.
Qed.

Lemma minimax_min_loop_first_best
  (recur : bool -> Board -> Flags -> Z -> result SearchResult)
  (side : bool) (board : Board) (flags : Flags) (depth : Z)
  (moves : list Move) :
  forall (seen : list (Move * value)) (h : value) (bm : Move)
    (bl : list Move) (t : MoveTree) (H : value) (BM : Move) (BL : list Move)
    (T : MoveTree),
    first_best true seen bm h ->
    minimax_min_loop recur side board flags depth moves h bm bl t
    = Return (H, BM, BL, T) ->
    exists more,
      map fst more = moves
      /\ Forall (minimax_sees recur side board flags depth) more
      /\ first_best true (seen ++ more) BM H.
Proof.
  induction moves as [|m moves IH]; intros seen h bm bl t H BM BL T Hfb Hl;
    simpl in Hl.
  - injection Hl as <- <- <- <-. exists []. rewrite app_nil_r. auto.
  - destruct (applyMove side board flags m) as [[newSide newBoard] newFlags]
      eqn:Ea.
    bind_inv Hl. destruct a as [[v l] tr].
    assert (Hsee : minimax_sees recur side board flags depth (m, v)).
    { unfold minimax_sees. simpl. rewrite Ea. eauto. }
    destruct (py_lt v h) eqn:E; best_after IH Hl seen m v;
      destruct Hl as (more & Hm & Hall & Hfb');
      exists ((m, v) :: more); rewrite <- app_assoc in Hfb'; simpl;
      repeat split; auto; congruence.
Qed.

(** The loops of [alphabeta]: the moves visited, with the bounds and the
    running value handed from one move to the next. *)
Lemma alphabeta_max_loop_first_best
  (recur : bool -> Board -> Flags -> Z -> value -> value ->
           result SearchResult)
  (board : Board) (flags : Flags) (depth : Z) (moves : list Move) :
  forall (seen : list (Move * value)) (alpha beta h : value) (bm : Move)
    (bl : list Move) (t : MoveTree) (H : value) (BM : Move) (BL : list Move)
    (T : MoveTree),
    first_best false seen bm h ->
    alphabeta_max_loop recur false board flags depth moves alpha beta h bm bl t
    = Return (H, BM, BL, T) ->
    exists more pruned,
      map fst more ++ pruned = moves
      /\ alphabeta_visits recur false board flags depth moves alpha beta h more
      /\ first_best false (seen ++ more) BM H.
Proof.
  induction moves as [|m moves IH];
    intros seen alpha beta h bm bl t H BM BL T Hfb Hl; simpl in Hl.
  - injection Hl as <- <- <- <-. exists [], []. repeat split; auto.
    rewrite app_nil_r. assumption.
  - destruct (applyMove false board flags m) as [[newSide newBoard] newFlags]
      eqn:Ea.
    bind_inv Hl. destruct a as [[v l] tr].
    assert (Hmax : py_max h v = if py_gt v h then v else h) by reflexivity.
    destruct (py_gt v h) eqn:E;
      match type of Hl with
      | (if ?c then _ else _) = _ => destruct c eqn:Ecut
      end.
    1, 3: injection Hl as <- <- <- <-; exists [(m, v)], moves;
      split; [reflexivity|]; split;
      [ cbn [alphabeta_visits]; rewrite Ea; split; [reflexivity|];
        split; [eauto|]; cbv zeta; rewrite Hmax, Ecut; reflexivity
      | first [ solve [eapply first_best_replace; try eassumption; simpl;
                       vorder]
              | solve [eapply first_best_keep; try eassumption; simpl;
                       vorder] ] ].
    all: best_after IH Hl seen m v;
      destruct Hl as (more & pruned & Hm & Hvis & Hfb');
      exists ((m, v) :: more), pruned; rewrite <- app_assoc in Hfb';
      (split; [simpl; congruence|]); split; [|exact Hfb'];
      cbn [alphabeta_visits]; rewrite Ea; split; [reflexivity|];
      split; [eauto|]; cbv zeta; rewrite Hmax, Ecut; exact Hvis.
Qed.

Lemma alphabeta_min_loop_first_best
  (recur : bool -> Board -> Flags -> Z -> value -> value ->
           result SearchResult)
  (board : Board) (flags : Flags) (depth : Z) (moves : list Move) :
  forall (seen : list (Move * value)) (alpha beta h : value) (bm : Move)
    (bl : list Move) (t : MoveTree) (H : value) (BM : Move) (BL : list Move)
    (T : MoveTree),
    first_best true seen bm h ->
    alphabeta_min_loop recur true board flags depth moves alpha beta h bm bl t
    = Return (H, BM, BL, T) ->
    exists more pruned,
      map fst more ++ pruned = moves
      /\ alphabeta_visits recur true board flags depth moves alpha beta h more
      /\ first_best true (seen ++ more) BM H.
Proof.
  induction moves as [|m moves IH];
    intros seen alpha beta h bm bl t H BM BL T Hfb Hl; simpl in Hl.
  - injection Hl as <- <- <- <-. exists [], []. repeat split; auto.
    rewrite app_nil_r. assumption.
  - destruct (applyMove true board flags m) as [[newSide newBoard] newFlags]
      eqn:Ea.
    bind_inv Hl. destruct a as [[v l] tr].
    assert (Hmin : py_min h v = if py_lt v h then v else h) by reflexivity.
    destruct (py_lt v h) eqn:E;
      match type of Hl with
      | (if ?c then _ else _) = _ => destruct c eqn:Ecut
      end.
    1, 3: injection Hl as <- <- <- <-; exists [(m, v)], moves;
      split; [reflexivity|]; split;
      [ cbn [alphabeta_visits]; rewrite Ea; split; [reflexivity|];
        split; [eauto|]; cbv zeta; rewrite Hmin, Ecut; reflexivity
      | first [ solve [eapply first_best_replace; try eassumption; simpl;
                       vorder]
              | solve [eapply first_best_keep; try eassumption; simpl;
                       vorder] ] ].
    all: best_after IH Hl seen m v;
      destruct Hl as (more & pruned & Hm & Hvis & Hfb');
      exists ((m, v) :: more), pruned; rewrite <- app_assoc in Hfb';
      (split; [simpl; congruence|]); split; [|exact Hfb'];
      cbn [alphabeta_visits]; rewrite Ea; split; [reflexivity|];
      split; [eauto|]; cbv zeta; rewrite Hmin, Ecut; exact Hvis.
Qed.

Section StochasticTies.

Variable CS : Type.
Variable chooser : list Move -> CS -> result (Move * CS).
Variables (fuel : nat) (side : bool) (board : Board) (flags : Flags).
Variables (depth breadth : Z).

Lemma stochastic_max_loop_first_best (moves : list Move) :
  forall (seen : list (Move * value)) (h : value) (bm : Move) (t : MoveTree)
    (cs : CS) (H : value) (BM : Move) (T : MoveTree) (cs' : CS),
    first_best false seen bm h ->
    stochastic_max_loop chooser fuel side board flags depth breadth moves
      h bm t cs = Return (H, BM, T, cs') ->
    exists runs,
      sampled_in_turn chooser fuel side board flags depth breadth moves cs
        runs cs'
      /\ first_best false (seen ++ averages breadth moves runs) BM H.
Proof.
  induction moves as [|m moves IH]; intros seen h bm t cs H BM T cs' Hfb Hl;
    simpl in Hl.
  - injection Hl as <- <- <- <-. exists []. rewrite app_nil_r.
    split; [reflexivity | assumption].
  - bind_inv Hl. destruct a as [[v t1] cs1].
    apply sample_move_drawn in Hr. destruct Hr as (samples & Hs & Hb & ->).
    destruct (py_gt (average_of_samples breadth samples) h) eqn:E;
      best_after IH Hl seen m (average_of_samples breadth samples);
      destruct Hl as (runs & Hrun & Hfb');
      exists (samples :: runs); rewrite <- app_assoc in Hfb';
      (split; [exists cs1; split; assumption | exact Hfb']).
Qed.

Lemma stochastic_min_loop_first_best (moves : list Move) :
  forall (seen : list (Move * value)) (h : value) (bm : Move) (t : MoveTree)
    (cs : CS) (H : value) (BM : Move) (T : MoveTree) (cs' : CS),
    first_best true seen bm h ->
    stochastic_min_loop chooser fuel side board flags depth breadth moves
      h bm t cs = Return (H, BM, T, cs') ->
    exists runs,
      sampled_in_turn chooser fuel side board flags depth breadth moves cs
        runs cs'
      /\ first_best true (seen ++ averages breadth moves runs) BM H.
Proof.
  induction moves as [|m moves IH]; intros seen h bm t cs H BM T cs' Hfb Hl;
    simpl in Hl.
  - injection Hl as <- <- <- <-. exists []. rewrite app_nil_r.
    split; [reflexivity | assumption].
  - bind_inv Hl. destruct a as [[v t1] cs1].
    apply sample_move_drawn in Hr. destruct Hr as (samples & Hs & Hb & ->).
    destruct (py_lt (average_of_samples breadth samples) h) eqn:E;
      best_after IH Hl seen m (average_of_samples breadth samples);
      destruct Hl as (runs & Hrun & Hfb');
      exists (samples :: runs); rewrite <- app_assoc in Hfb';
      (split; [exists cs1; split; assumption | exact Hfb']).
Qed.

End StochasticTies.

(** The whole loop of [stochastic], entered with the first move as the
    running best. *)
Lemma stochastic_fuel_first_best (CS : Type)
  (chooser : list Move -> CS -> result (Move * CS)) (fuel : nat)
  (side : bool) (board : Board) (flags : Flags) (depth breadth : Z)
  (cs cs' : CS) (h : value) (moveList : list Move) (moveTree : MoveTree) :
  stochastic_fuel chooser fuel side board flags depth breadth cs
  = Return ((h, moveList, moveTree), cs') ->
  exists runs move,
    sampled_in_turn chooser fuel side board flags depth breadth
      (generateMoves side board flags) cs runs cs'
    /\ generateMoves side board flags <> []
    /\ breadth <> 0%Z
    /\ moveList = [move]
    /\ first_best side (averages breadth (generateMoves side board flags) runs)
         move h.
Proof.
  unfold stochastic_fuel. intros H.
  destruct (generateMoves side board flags) as [|m0 moves]; [discriminate|].
  destruct side; bind_inv H; destruct a as [[[h1 bm] t1] cs1];
    injection H as <- <- <- <-; simpl in Hr;
    bind_inv Hr; destruct a as [[v t2] cs2];
    apply sample_move_drawn in Hr0; destruct Hr0 as (samples & Hs & Hb & Hv);
    match type of Hr with
    | (if ?c then _ else _) = _ => destruct c eqn:E
    end;
    try (assert (v = PosInf) as -> by vorder);
    try (assert (v = NegInf) as -> by vorder);
    first [ eapply stochastic_min_loop_first_best in Hr;
            [| apply first_best_first ]
          | eapply stochastic_max_loop_first_best in Hr;
            [| apply first_best_first ] ];
    destruct Hr as (runs & Hrun & Hfb);
    exists (samples :: runs), bm;
    (split; [exists cs2; split; assumption|]);
    (split; [discriminate|]); (split; [assumption|]);
    (split; [reflexivity|]);
    unfold averages; simpl; rewrite <- Hv; exact Hfb.
Qed.

Lemma py_max_NegInf (v : value) : py_max NegInf v = v.
Proof.
  unfold py_max. destruct (py_gt v NegInf) eqn:E; [reflexivity | vorder].
Qed.

Lemma py_min_PosInf (v : value) : py_min PosInf v = v.
Proof.
  unfold py_min. destruct (py_lt v PosInf) eqn:E; [reflexivity | vorder].
Qed.

(** The loop of a call of [alphabeta], entered with the first move as the
    running best. *)
Lemma alphabeta_fuel_first_best (fuel : nat) (side : bool) (board : Board)
  (flags : Flags) (depth : Z) (alpha beta h : value) (moveList : list Move)
  (moveTree : MoveTree) :
  depth <> 0%Z ->
  alphabeta_fuel (S fuel) side board flags depth alpha beta
  = Return (h, moveList, moveTree) ->
  exists seen pruned move bestList,
    map fst seen ++ pruned = generateMoves side board flags
    /\ alphabeta_visits (alphabeta_fuel fuel) side board flags depth
         (generateMoves side board flags) alpha beta
         (if side then PosInf else NegInf) seen
    /\ moveList = move :: bestList
    /\ first_best side seen move h.
Proof.
  intros Hd H. rewrite alphabeta_fuel_unfold in H by assumption.
  destruct (generateMoves side board flags) as [|m0 moves]; [discriminate|].
  destruct side; bind_inv H; destruct a as [[[h1 bm] bl] t1];
    injection H as <- <- <-; simpl in Hr;
    destruct (applyMove _ board flags m0) as [[newSide newBoard] newFlags]
      eqn:Ea;
    bind_inv Hr; destruct a as [[v l] tr];
    pose proof (py_max_NegInf v) as Hmax;
    pose proof (py_min_PosInf v) as Hmin;
    match type of Hr with
    | context [if ?c then (_, _, _) else _] => destruct c eqn:E
    end;
    try (assert (v = PosInf) as -> by vorder);
    try (assert (v = NegInf) as -> by vorder);
    match type of Hr with
    | (if ?c then _ else _) = _ => destruct c eqn:Ecut
    end.
  all: first
    [ injection Hr as <- <- <- <-;
      match type of Hr0 with
      | _ = Return (?v, _, _) => exists [(m0, v)], moves, m0
      end; eexists;
      split; [reflexivity|]; split;
      [ cbn [alphabeta_visits]; rewrite Ea; split; [reflexivity|];
        split; [eauto|]; cbv zeta; rewrite ?Hmax, ?Hmin, Ecut; reflexivity
      | split; [reflexivity | apply first_best_first] ]
    | first [ eapply alphabeta_min_loop_first_best in Hr;
              [| apply first_best_first ]
            | eapply alphabeta_max_loop_first_best in Hr;
              [| apply first_best_first ] ];
      destruct Hr as (more & pruned & Hm & Hvis & Hfb);
      match type of Hr0 with
      | _ = Return (?v, _, _) => exists ((m0, v) :: more), pruned, bm, bl
      end;
      split; [simpl; rewrite Hm; reflexivity|]; split;
      [ cbn [alphabeta_visits]; rewrite Ea; split; [reflexivity|];
        split; [eauto|]; cbv zeta; rewrite ?Hmax, ?Hmin, Ecut; exact Hvis
      | split; [reflexivity | exact Hfb] ] ].
Qed.

(** C5. In [minimax], [alphabeta] and [stochastic] the running best move is
    replaced on strict improvement only, so the move that is returned is the
    first one, in generation order, whose value is the extremum of the values
    that the loop compared; it heads the move list.  These values are, move
    after move: for [minimax] the values of the recursive calls; for
    [alphabeta] the values of the recursive calls with the bounds that the
    loop had reached, up to the cut; for [stochastic] the averages of the
    samples drawn, each sample from the chooser state that the one before it
    left. *)
Theorem first_extremum_is_kept :
  (forall fuel side board flags depth h moveList moveTree,
     depth <> 0%Z ->
     minimax_fuel (S fuel) side board flags depth
     = Return (h, moveList, moveTree) ->
     exists seen move bestList,
       map fst seen = generateMoves side board flags
       /\ Forall (minimax_sees (minimax_fuel fuel) side board flags depth) seen
       /\ moveList = move :: bestList
       /\ first_best side seen move h)
  /\ (forall fuel side board flags depth alpha beta h moveList moveTree,
        depth <> 0%Z ->
        alphabeta_fuel (S fuel) side board flags depth alpha beta
        = Return (h, moveList, moveTree) ->
        exists seen pruned move bestList,
          map fst seen ++ pruned = generateMoves side board flags
          /\ alphabeta_visits (alphabeta_fuel fuel) side board flags depth
               (generateMoves side board flags) alpha beta
               (if side then PosInf else NegInf) seen
          /\ moveList = move :: bestList
          /\ first_best side seen move h)
  /\ (forall (CS : Type) (chooser : list Move -> CS -> result (Move * CS))
        fuel side board flags depth breadth cs cs' h moveList moveTree,
        stochastic_fuel chooser fuel side board flags depth breadth cs
        = Return ((h, moveList, moveTree), cs') ->
        exists runs move,
          sampled_in_turn chooser fuel side board flags depth breadth
            (generateMoves side board flags) cs runs cs'
          /\ moveList = [move]
          /\ first_best side
               (averages breadth (generateMoves side board flags) runs)
               move h).
Proof.
  split; [|split].
  - intros fuel side board flags depth h moveList moveTree Hd H.
    rewrite minimax_fuel_unfold in H by assumption.
    destruct (generateMoves side board flags) as [|m0 moves]; [discriminate|].
    destruct side; bind_inv H; destruct a as [[[h1 bm] bl] t1];
      injection H as <- <- <-; simpl in Hr;
      destruct (applyMove _ board flags m0) as [[newSide newBoard] newFlags]
        eqn:Ea;
      bind_inv Hr; destruct a as [[v l] tr];
      match type of Hr with
      | (if ?c then _ else _) = _ => destruct c eqn:E
      end;
      try (assert (v = PosInf) as -> by vorder);
      try (assert (v = NegInf) as -> by vorder);
      first [ eapply minimax_min_loop_first_best in Hr;
              [| apply first_best_first ]
            | eapply minimax_max_loop_first_best in Hr;
              [| apply first_best_first ] ];
      destruct Hr as (more & Hm & Hall & Hfb);
      lazymatch type of Hfb with
      | first_best _ ([?o] ++ _) _ _ => exists (o :: more), bm, bl
      end; simpl; rewrite Hm;
      (repeat split; auto); constructor; auto;
      unfold minimax_sees; simpl; rewrite Ea; eauto.
  - intros fuel side board flags depth alpha beta h moveList moveTree Hd H.
    eapply alphabeta_fuel_first_best; eassumption.
  - intros CS chooser fuel side board flags depth breadth cs cs' h moveList
      moveTree H.
    apply stochastic_fuel_first_best in H.
    destruct H as (runs & move & Hrun & _ & _ & Hl & Hfb). eauto.
Qed.

(** ** What the loops compared is determined

    The values that the loops compare leave no choice: the
    bounds of [alphabeta] and the chooser states of [stochastic] are handed
    on from one move to the next, and the first best of a list is one
    place in it. *)

Lemma first_best_unique (side : bool) (seen : list (Move * value))
  (m m' : Move) (h h' : value) :
  first_best side seen m h -> first_best side seen m' h' ->
  (m, h) = (m', h').
Proof.
  intros (before & after & -> & Hb & Ha) (before' & after' & Heq & Hb' & Ha').
  apply app_eq_app in Heq. destruct Heq as (l & [[-> Hl] | [-> Hl]]).
  - destruct l as [|x l].
    + simpl in Hl. congruence.
    + exfalso. simpl in Hl. injection Hl as <- ->.
      apply Forall_app in Hb. destruct Hb as [_ Hb].
      apply Forall_inv in Hb. simpl in Hb.
      apply Forall_app in Ha'. destruct Ha' as [_ Ha'].
      apply Forall_inv in Ha'. simpl in Ha'.
      unfold worse, no_better in *. destruct side; vorder.
  - destruct l as [|x l].
    + simpl in Hl. congruence.
    + exfalso. simpl in Hl. injection Hl as <- ->.
      apply Forall_app in Hb'. destruct Hb' as [_ Hb'].
      apply Forall_inv in Hb'. simpl in Hb'.
      apply Forall_app in Ha. destruct Ha as [_ Ha].
      apply Forall_inv in Ha. simpl in Ha.
      unfold worse, no_better in *. destruct side; vorder.
Qed.

Lemma alphabeta_visits_unique
  (recur : bool -> Board -> Flags -> Z -> value -> value ->
           result SearchResult)
  (side : bool) (board : Board) (flags : Flags) (depth : Z)
  (seen : list (Move * value)) :
  forall (moves : list Move) (alpha beta heuristic : value)
    (seen' : list (Move * value)),
    alphabeta_visits recur side board flags depth moves alpha beta heuristic
      seen ->
    alphabeta_visits recur side board flags depth moves alpha beta heuristic
      seen' ->
    seen = seen'.
Proof.
  induction seen as [|[move v] seen IH];
    intros moves alpha beta heuristic seen' H H'.
  - simpl in H. subst moves. destruct seen' as [|[move' v'] seen'];
      [reflexivity | destruct H'].
  - destruct moves as [|m moves]; [destruct H|].
    destruct seen' as [|[move' v'] seen']; [discriminate H'|].
    cbn [alphabeta_visits] in H, H'.
    destruct H as (-> & Hr & H). destruct H' as (-> & Hr' & H').
    destruct (applyMove side board flags m) as [[newSide newBoard] newFlags].
    destruct Hr as (l & t & Hr). destruct Hr' as (l' & t' & Hr').
    rewrite Hr in Hr'. injection Hr' as <- _ _.
    cbv zeta in H, H'.
    match type of H with
    | (if ?c then _ else _) => destruct c
    end.
    + congruence.
    + f_equal. eapply IH; eassumption.
Qed.

Lemma drawn_unique (CS : Type)
  (helper : CS -> result (value * MoveTree * CS))
  (samples : list (value * MoveTree)) :
  forall (cs cs1 cs2 : CS) (samples' : list (value * MoveTree)),
    length samples = length samples' ->
    drawn helper cs samples cs1 -> drawn helper cs samples' cs2 ->
    samples = samples' /\ cs1 = cs2.
Proof.
  induction samples as [|[v t] samples IH];
    intros cs cs1 cs2 [|[v' t'] samples'] Hlen H H'; try discriminate.
  - simpl in H, H'. split; congruence.
  - destruct H as (c & Hr & H). destruct H' as (c' & Hr' & H').
    rewrite Hr in Hr'. injection Hr' as <- <- <-.
    injection Hlen as Hlen.
    destruct (IH _ _ _ _ Hlen H H') as [-> ->]. auto.
Qed.

Lemma sampled_in_turn_unique (CS : Type)
  (chooser : list Move -> CS -> result (Move * CS)) (fuel : nat)
  (side : bool) (board : Board) (flags : Flags) (depth breadth : Z)
  (moves : list Move) :
  forall (cs cs1 cs2 : CS) (runs runs' : list (list (value * MoveTree))),
    sampled_in_turn chooser fuel side board flags depth breadth moves cs
      runs cs1 ->
    sampled_in_turn chooser fuel side board flags depth breadth moves cs
      runs' cs2 ->
    runs = runs' /\ cs1 = cs2.
Proof.
  induction moves as [|m moves IH];
    intros cs cs1 cs2 [|samples runs] [|samples' runs'] H H';
    simpl in H, H'; try contradiction.
  - split; congruence.
  - destruct H as (c & Hs & H). destruct H' as (c' & Hs' & H').
    unfold samples_of in Hs, Hs'.
    destruct (applyMove side board flags m) as [[newSide newBoard] newFlags].
    destruct Hs as [Hlen Hd]. destruct Hs' as [Hlen' Hd'].
    assert (Hl : length samples = length samples') by congruence.
    destruct (@drawn_unique _ _ _ _ _ _ _ Hl Hd Hd') as [-> ->].
    destruct (IH _ _ _ _ _ H H') as [-> ->]. auto.
Qed.

(** ** The value and the move list of [stochastic] *)

Lemma nth_error_combine (A B : Type) (l : list A) (l' : list B) (i : nat)
  (a : A) (b : B) :
  nth_error (combine l l') i = Some (a, b) ->
  nth_error l i = Some a /\ nth_error l' i = Some b.
Proof.
  revert l' i. induction l as [|x l IH]; intros [|y l'] [|i] H;
    simpl in H; try discriminate.
  - injection H as -> ->. auto.
  - simpl. apply IH. assumption.
Qed.

Lemma first_best_nth (side : bool) (seen : list (Move * value)) (m : Move)
  (h : value) :
  first_best side seen m h -> exists i, nth_error seen i = Some (m, h).
Proof.
  intros (before & after & -> & _). exists (length before).
  rewrite nth_error_app2 by lia. rewrite Nat.sub_diag. reflexivity.
Qed.

Lemma sampled_in_turn_nth (CS : Type)
  (chooser : list Move -> CS -> result (Move * CS)) (fuel : nat)
  (side : bool) (board : Board) (flags : Flags) (depth breadth : Z)
  (moves : list Move) :
  forall (cs cs' : CS) (runs : list (list (value * MoveTree))) (i : nat)
    (move : Move) (samples : list (value * MoveTree)),
    sampled_in_turn chooser fuel side board flags depth breadth moves cs
      runs cs' ->
    nth_error moves i = Some move -> nth_error runs i = Some samples ->
    exists c c',
      samples_of chooser fuel side board flags depth breadth move c samples c'.
Proof.
  induction moves as [|m moves IH];
    intros cs cs' [|s runs] [|i] move samples H Hm Hs; simpl in H, Hm, Hs;
    try discriminate; try contradiction.
  - injection Hm as <-. injection Hs as <-.
    destruct H as (c & H & _). eauto.
  - destruct H as (c & _ & H). eapply IH; eassumption.
Qed.

(** C8. With an evaluation that gives ordinary numbers, whenever
    [stochastic] returns, its move list is the one chosen top-level move
    alone, a move of the position, and its value is the average of this
    move in the run: the sum of the values of the [breadth] samples that the
    helper drew for it, each from the chooser state that the sample before
    it left, divided by [breadth].  The sampled values are evaluations of
    boards, so they are ordinary numbers too. *)
Theorem stochastic_returns_one_move_and_its_average (CS : Type)
  (chooser : list Move -> CS -> result (Move * CS)) (fuel : nat)
  (side : bool) (board : Board) (flags : Flags) (depth breadth : Z)
  (cs cs' : CS) (h : value) (moveList : list Move) (moveTree : MoveTree) :
  finite_scores ->
  stochastic_fuel chooser fuel side board flags depth breadth cs
  = Return ((h, moveList, moveTree), cs') ->
  exists runs i move samples,
    sampled_in_turn chooser fuel side board flags depth breadth
      (generateMoves side board flags) cs runs cs'
    /\ nth_error (generateMoves side board flags) i = Some move
    /\ nth_error runs i = Some samples
    /\ moveList = [move]
    /\ length samples = Z.to_nat breadth
    /\ Forall (fun sample => exists q, fst sample = Num q) samples
    /\ breadth <> 0%Z
    /\ h = average_of_samples breadth samples.
Proof.
  intros Hfin H. apply stochastic_fuel_first_best in H.
  destruct H as (runs & move & Hrun & _ & Hb & Hl & Hfb).
  apply first_best_nth in Hfb. destruct Hfb as (i & Hi).
  apply nth_error_combine in Hi. destruct Hi as [Hm Ha].
  rewrite nth_error_map in Ha.
  destruct (nth_error runs i) as [samples|] eqn:Hs; [|discriminate].
  simpl in Ha. injection Ha as Ha.
  pose proof Hrun as Hof.
  eapply sampled_in_turn_nth in Hof; [ | exact Hm | exact Hs ].
  destruct Hof as (c & c' & Hof).
  exists runs, i, move, samples. repeat split; auto.
  - unfold samples_of in Hof.
    destruct (applyMove side board flags move) as [[s b] f]. apply Hof.
  - eapply samples_of_finite; eassumption.
Qed.

(** ** Arguments out of range

    No function checks its arguments.  A negative [depth] never meets the
    test [depth == 0]; [range(breadth)] is empty when [breadth <= 0]. *)

Lemma minimax_fuel_negative_depth (fuel : nat) :
  forall (side : bool) (board : Board) (flags : Flags) (depth : Z)
    (r : SearchResult),
    (depth < 0)%Z -> minimax_fuel fuel side board flags depth <> Return r.
Proof.
  induction fuel as [|fuel IH]; intros side board flags depth r Hd;
    [discriminate|].
  rewrite minimax_fuel_unfold by lia.
  destruct (generateMoves side board flags) as [|m0 moves]; [discriminate|].
  destruct side; apply bind_not_Return; intros a; simpl;
    destruct (applyMove _ board flags m0) as [[newSide newBoard] newFlags];
    apply bind_not_Return; intros a'; apply IH; lia.
Qed.

Lemma alphabeta_fuel_negative_depth (fuel : nat) :
  forall (side : bool) (board : Board) (flags : Flags) (depth : Z)
    (alpha beta : value) (r : SearchResult),
    (depth < 0)%Z ->
    alphabeta_fuel fuel side board flags depth alpha beta <> Return r.
Proof.
  induction fuel as [|fuel IH]; intros side board flags depth alpha beta r Hd;
    [discriminate|].
  rewrite alphabeta_fuel_unfold by lia.
  destruct (generateMoves side board flags) as [|m0 moves]; [discriminate|].
  destruct side; apply bind_not_Return; intros a; simpl;
    destruct (applyMove _ board flags m0) as [[newSide newBoard] newFlags];
    apply bind_not_Return; intros a'; apply IH; lia.
Qed.

Section Chooser.

Variable CS : Type.
Variable chooser : list Move -> CS -> result (Move * CS).

Lemma stochasticHelper_fuel_negative_depth (fuel : nat) :
  forall (side : bool) (board : Board) (flags : Flags) (depth : Z) (cs : CS)
    (r : value * MoveTree * CS),
    (depth < 0)%Z ->
    stochasticHelper_fuel chooser fuel side board flags depth cs <> Return r.
Proof.
  induction fuel as [|fuel IH]; intros side board flags depth cs r Hd;
    [discriminate|].
  simpl. destruct (depth =? 0)%Z eqn:E; [apply Z.eqb_eq in E; lia|].
  intros H. bind_inv H. destruct a as [move cs1].
  destruct (applyMove side board flags move) as [[newSide newBoard] newFlags].
  revert H. apply bind_not_Return. intros a. apply IH. lia.
Qed.

(** With [breadth <= 0] no sample is drawn. *)
Lemma sample_loop_no_sample (helper : CS -> result (value * MoveTree * CS))
  (breadth : Z) (encodedMove : Key) (sum : value) (moveTree : MoveTree)
  (cs : CS) :
  (breadth <= 0)%Z ->
  sample_loop helper (Z.to_nat breadth) encodedMove sum moveTree cs
  = Return (sum, moveTree, cs).
Proof.
  intros Hb. replace (Z.to_nat breadth) with 0 by lia. reflexivity.
Qed.

Lemma sample_move_breadth0 (fuel : nat) (side : bool) (board : Board)
  (flags : Flags) (depth : Z) (move : Move) (moveTree : MoveTree) (cs : CS) :
  sample_move chooser fuel side board flags depth 0 move moveTree cs
  = Raise ZeroDivisionError.
Proof.
  unfold sample_move.
  destruct (applyMove side board flags move) as [[newSide newBoard] newFlags].
  reflexivity.
Qed.

Lemma sample_move_negative_breadth (fuel : nat) (side : bool) (board : Board)
  (flags : Flags) (depth breadth : Z) (move : Move) (moveTree : MoveTree)
  (cs : CS) :
  (breadth < 0)%Z ->
  sample_move chooser fuel side board flags depth breadth move moveTree cs
  = Return (py_truediv (Num 0%Qc) breadth, moveTree, cs).
Proof.
  intros Hb. unfold sample_move.
  destruct (applyMove side board flags move) as [[newSide newBoard] newFlags].
  rewrite sample_loop_no_sample by lia. simpl. unfold truediv.
  destruct (breadth =? 0)%Z eqn:E; [apply Z.eqb_eq in E; lia|]. reflexivity.
Qed.

Lemma stochastic_max_loop_negative_breadth (fuel : nat) (side : bool)
  (board : Board) (flags : Flags) (depth breadth : Z) (moves : list Move)
  (h : value) (bm : Move) (moveTree : MoveTree) (cs : CS) :
  (breadth < 0)%Z ->
  py_gt (py_truediv (Num 0%Qc) breadth) h = false ->
  stochastic_max_loop chooser fuel side board flags depth breadth moves
    h bm moveTree cs = Return (h, bm, moveTree, cs).
Proof.
  intros Hb Hz. induction moves as [|m moves IH]; [reflexivity|].
  simpl. rewrite sample_move_negative_breadth by assumption. simpl.
  rewrite Hz. exact IH.
Qed.

Lemma stochastic_min_loop_negative_breadth (fuel : nat) (side : bool)
  (board : Board) (flags : Flags) (depth breadth : Z) (moves : list Move)
  (h : value) (bm : Move) (moveTree : MoveTree) (cs : CS) :
  (breadth < 0)%Z ->
  py_lt (py_truediv (Num 0%Qc) breadth) h = false ->
  stochastic_min_loop chooser fuel side board flags depth breadth moves
    h bm moveTree cs = Return (h, bm, moveTree, cs).
Proof.
  intros Hb Hz. induction moves as [|m moves IH]; [reflexivity|].
  simpl. rewrite sample_move_negative_breadth by assumption. simpl.
  rewrite Hz. exact IH.
Qed.

Lemma py_lt_irrefl (a : value) : py_lt a a = false.
Proof.
  destruct (py_lt a a) eqn:E; [|reflexivity]. exfalso. vorder.
Qed.

Lemma stochastic_fuel_negative_breadth (fuel : nat) (side : bool)
  (board : Board) (flags : Flags) (depth breadth : Z) (cs : CS)
  (move : Move) (moves : list Move) :
  (breadth < 0)%Z ->
  generateMoves side board flags = move :: moves ->
  exists h,
    stochastic_fuel chooser fuel side board flags depth breadth cs
    = Return ((h, [move], empty), cs).
Proof.
  intros Hb Hm. unfold stochastic_fuel. rewrite Hm.
  destruct side; simpl; rewrite sample_move_negative_breadth by assumption;
    simpl.
  - destruct (py_lt (py_truediv (Num 0%Qc) breadth) PosInf) eqn:E.
    + rewrite stochastic_min_loop_negative_breadth;
        [simpl; eauto | assumption | apply py_lt_irrefl].
    + rewrite stochastic_min_loop_negative_breadth;
        [simpl; eauto | assumption | assumption].
  - destruct (py_gt (py_truediv (Num 0%Qc) breadth) NegInf) eqn:E.
    + rewrite stochastic_max_loop_negative_breadth;
        [simpl; eauto | assumption | apply py_lt_irrefl].
    + rewrite stochastic_max_loop_negative_breadth;
        [simpl; eauto | assumption | assumption].
Qed.

Lemma stochastic_fuel_breadth0 (fuel : nat) (side : bool)
  (board : Board) (flags : Flags) (depth : Z) (cs : CS) :
  generateMoves side board flags <> [] ->
  stochastic_fuel chooser fuel side board flags depth 0 cs
  = Raise ZeroDivisionError.
Proof.
  intros Hm. unfold stochastic_fuel.
  destruct (generateMoves side board flags) as [|m0 moves]; [congruence|].
  destruct side; simpl; rewrite sample_move_breadth0; reflexivity.
Qed.

Lemma stochastic_fuel_negative_depth (fuel : nat) (side : bool)
  (board : Board) (flags : Flags) (depth breadth : Z) (cs : CS)
  (r : SearchResult * CS) :
  (depth < 0)%Z -> (1 <= breadth)%Z ->
  stochastic_fuel chooser fuel side board flags depth breadth cs <> Return r.
Proof.
  intros Hd Hb. unfold stochastic_fuel.
  destruct (generateMoves side board flags) as [|m0 moves]; [discriminate|].
  destruct side; apply bind_not_Return; intros a; simpl;
    apply bind_not_Return; intros a'; unfold sample_move;
    destruct (applyMove _ board flags m0) as [[newSide newBoard] newFlags];
    apply bind_not_Return; intros a'';
    destruct (Z.to_nat breadth) as [|n] eqn:En; try lia; simpl;
    apply bind_not_Return; intros a''';
    apply stochasticHelper_fuel_negative_depth; lia.
Qed.

End Chooser.

(** C4, as the code has it.  Arguments out of range are not rejected.  With
    a negative depth, [minimax] and [alphabeta] never return a result, and
    neither does [stochastic] when [breadth >= 1]: the calls go on below
    depth 0 until a position without a move raises [IndexError], if ever.
    With [breadth = 0], [stochastic] on a position with a legal move raises
    [ZeroDivisionError] at the first average, no sample drawn.  With a
    negative [breadth], [stochastic] on a position with a legal move draws
    no sample and returns: the first generated move, an empty move tree and
    the chooser untouched. *)
Theorem arguments_out_of_range :
  (forall fuel side board flags depth r,
     (depth < 0)%Z -> minimax_fuel fuel side board flags depth <> Return r)
  /\ (forall fuel side board flags depth alpha beta r,
        (depth < 0)%Z ->
        alphabeta_fuel fuel side board flags depth alpha beta <> Return r)
  /\ (forall (CS : Type) (chooser : list Move -> CS -> result (Move * CS))
        fuel side board flags depth breadth cs r,
        (depth < 0)%Z -> (1 <= breadth)%Z ->
        stochastic_fuel chooser fuel side board flags depth breadth cs
        <> Return r)
  /\ (forall (CS : Type) (chooser : list Move -> CS -> result (Move * CS))
        fuel side board flags depth cs,
        generateMoves side board flags <> [] ->
        stochastic_fuel chooser fuel side board flags depth 0 cs
        = Raise ZeroDivisionError)
  /\ (forall (CS : Type) (chooser : list Move -> CS -> result (Move * CS))
        fuel side board flags depth breadth cs move moves,
        (breadth < 0)%Z ->
        generateMoves side board flags = move :: moves ->
        exists h,
          stochastic_fuel chooser fuel side board flags depth breadth cs
          = Return ((h, [move], empty), cs)).
Proof.
  repeat split.
  - intros. now apply minimax_fuel_negative_depth.
  - intros. now apply alphabeta_fuel_negative_depth.
  - intros. now apply stochastic_fuel_negative_depth.
  - intros. now apply stochastic_fuel_breadth0.
  - intros. eapply stochastic_fuel_negative_breadth; eauto.
Qed.

(** ** The bound on nested calls

    A call at a depth [d >= 0] nests [d + 1] calls at most, so the fuel that
    [minimax] and [alphabeta] hand to their recursion is enough, and more
    fuel never changes an outcome. *)

Lemma bind_not_NoFuel {A B : Type} (r : result A) (k : A -> result B) :
  r <> NoFuel -> (forall a, k a <> NoFuel) -> bind r k <> NoFuel.
Proof. destruct r; simpl; [auto | discriminate | congruence]. Qed.

Ltac loop_has_fuel IH :=
  simpl;
  match goal with
  | |- context [applyMove ?s ?b ?f ?m] =>
      destruct (applyMove s b f m) as [[? ?] ?]
  end;
  apply bind_not_NoFuel; [auto|];
  intros [[? ?] ?];
  repeat match goal with
  | |- context [if ?c then _ else _] => destruct c
  end; cbv beta iota; first [apply IH | discriminate].

Lemma minimax_max_loop_has_fuel
  (recur : bool -> Board -> Flags -> Z -> result SearchResult)
  (side : bool) (board : Board) (flags : Flags) (depth : Z) :
  (forall s b f, recur s b f (depth - 1)%Z <> NoFuel) ->
  forall moves h bm bl t,
    minimax_max_loop recur side board flags depth moves h bm bl t <> NoFuel.
Proof.
  intros Hrec. induction moves as [|m moves IH]; intros h bm bl t;
    [discriminate | loop_has_fuel IH].
Qed.

Lemma minimax_min_loop_has_fuel
  (recur : bool -> Board -> Flags -> Z -> result SearchResult)
  (side : bool) (board : Board) (flags : Flags) (depth : Z) :
  (forall s b f, recur s b f (depth - 1)%Z <> NoFuel) ->
  forall moves h bm bl t,
    minimax_min_loop recur side board flags depth moves h bm bl t <> NoFuel.
Proof.
  intros Hrec. induction moves as [|m moves IH]; intros h bm bl t;
    [discriminate | loop_has_fuel IH].
Qed.

Lemma alphabeta_max_loop_has_fuel
  (recur : bool -> Board -> Flags -> Z -> value -> value ->
           result SearchResult)
  (side : bool) (board : Board) (flags : Flags) (depth : Z) :
  (forall s b f alpha beta, recur s b f (depth - 1)%Z alpha beta <> NoFuel) ->
  forall moves alpha beta h bm bl t,
    alphabeta_max_loop recur side board flags depth moves alpha beta h bm bl t
    <> NoFuel.
Proof.
  intros Hrec. induction moves as [|m moves IH]; intros alpha beta h bm bl t;
    [discriminate | loop_has_fuel IH].
Qed.

Lemma alphabeta_min_loop_has_fuel
  (recur : bool -> Board -> Flags -> Z -> value -> value ->
           result SearchResult)
  (side : bool) (board : Board) (flags : Flags) (depth : Z) :
  (forall s b f alpha beta, recur s b f (depth - 1)%Z alpha beta <> NoFuel) ->
  forall moves alpha beta h bm bl t,
    alphabeta_min_loop recur side board flags depth moves alpha beta h bm bl t
    <> NoFuel.
Proof.
  intros Hrec. induction moves as [|m moves IH]; intros alpha beta h bm bl t;
    [discriminate | loop_has_fuel IH].
Qed.

Lemma minimax_fuel_enough (fuel : nat) :
  forall (side : bool) (board : Board) (flags : Flags) (depth : Z),
    (0 <= depth)%Z -> Z.to_nat depth < fuel ->
    minimax_fuel fuel side board flags depth <> NoFuel.
Proof.
  induction fuel as [|fuel IH]; intros side board flags depth Hd Hf; [lia|].
  destruct (Z.eq_dec depth 0) as [-> | Hd0];
    [rewrite minimax_fuel_depth0; discriminate|].
  rewrite minimax_fuel_unfold by assumption.
  destruct (generateMoves side board flags) as [|m0 moves]; [discriminate|].
  destruct side; apply bind_not_NoFuel;
    try (intros [[[? ?] ?] ?]; discriminate);
    [apply minimax_min_loop_has_fuel | apply minimax_max_loop_has_fuel];
    intros; apply IH; lia.
Qed.

Lemma alphabeta_fuel_enough (fuel : nat) :
  forall (side : bool) (board : Board) (flags : Flags) (depth : Z)
    (alpha beta : value),
    (0 <= depth)%Z -> Z.to_nat depth < fuel ->
    alphabeta_fuel fuel side board flags depth alpha beta <> NoFuel.
Proof.
  induction fuel as [|fuel IH]; intros side board flags depth alpha beta Hd Hf;
    [lia|].
  destruct (Z.eq_dec depth 0) as [-> | Hd0];
    [rewrite alphabeta_fuel_depth0; discriminate|].
  rewrite alphabeta_fuel_unfold by assumption.
  destruct (generateMoves side board flags) as [|m0 moves]; [discriminate|].
  destruct side; apply bind_not_NoFuel;
    try (intros [[[? ?] ?] ?]; discriminate);
    [apply alphabeta_min_loop_has_fuel | apply alphabeta_max_loop_has_fuel];
    intros; apply IH; lia.
Qed.

(** [minimax] and [alphabeta] come back at every depth [d >= 0]: with a
    result or with the [IndexError] of a position without a move. *)
Lemma minimax_comes_back (side : bool) (board : Board) (flags : Flags)
  (depth : Z) :
  (0 <= depth)%Z -> minimax side board flags depth <> NoFuel.
Proof. intros Hd. apply minimax_fuel_enough; [assumption | lia]. Qed.

Lemma alphabeta_comes_back (side : bool) (board : Board) (flags : Flags)
  (depth : Z) (alpha beta : value) :
  (0 <= depth)%Z -> alphabeta side board flags depth alpha beta <> NoFuel.
Proof. intros Hd. apply alphabeta_fuel_enough; [assumption | lia]. Qed.

Lemma bind_extends {A B : Type} (r r' : result A) (k k' : A -> result B) :
  extends r r' -> (forall a, extends (k a) (k' a)) ->
  extends (bind r k) (bind r' k').
Proof.
  unfold extends. intros Hr Hk H.
  destruct r; simpl in *; try congruence.
  - rewrite Hr by discriminate. simpl. auto.
  - rewrite Hr by discriminate. reflexivity.
Qed.

Ltac loop_extends IH :=
  simpl;
  match goal with
  | |- context [applyMove ?s ?b ?f ?m] =>
      destruct (applyMove s b f m) as [[? ?] ?]
  end;
  apply bind_extends; [auto|];
  intros [[? ?] ?];
  repeat match goal with
  | |- context [if ?c then _ else _] => destruct c
  end; cbv beta iota; first [apply IH | intros _; reflexivity].

Lemma minimax_max_loop_extends
  (recur recur' : bool -> Board -> Flags -> Z -> result SearchResult)
  (side : bool) (board : Board) (flags : Flags) (depth : Z) :
  (forall s b f d, extends (recur s b f d) (recur' s b f d)) ->
  forall moves h bm bl t,
    extends (minimax_max_loop recur side board flags depth moves h bm bl t)
            (minimax_max_loop recur' side board flags depth moves h bm bl t).
Proof.
  intros Hrec. induction moves as [|m moves IH]; intros h bm bl t;
    [intros _; reflexivity | loop_extends IH].
Qed.

Lemma minimax_min_loop_extends
  (recur recur' : bool -> Board -> Flags -> Z -> result SearchResult)
  (side : bool) (board : Board) (flags : Flags) (depth : Z) :
  (forall s b f d, extends (recur s b f d) (recur' s b f d)) ->
  forall moves h bm bl t,
    extends (minimax_min_loop recur side board flags depth moves h bm bl t)
            (minimax_min_loop recur' side board flags depth moves h bm bl t).
Proof.
  intros Hrec. induction moves as [|m moves IH]; intros h bm bl t;
    [intros _; reflexivity | loop_extends IH].
Qed.

Lemma alphabeta_max_loop_extends
  (recur recur' : bool -> Board -> Flags -> Z -> value -> value ->
                  result SearchResult)
  (side : bool) (board : Board) (flags : Flags) (depth : Z) :
  (forall s b f d alpha beta,
     extends (recur s b f d alpha beta) (recur' s b f d alpha beta)) ->
  forall moves alpha beta h bm bl t,
    extends
      (alphabeta_max_loop recur side board flags depth moves alpha beta
         h bm bl t)
      (alphabeta_max_loop recur' side board flags depth moves alpha beta
         h bm bl t).
Proof.
  intros Hrec. induction moves as [|m moves IH]; intros alpha beta h bm bl t;
    [intros _; reflexivity | loop_extends IH].
Qed.

Lemma alphabeta_min_loop_extends
  (recur recur' : bool -> Board -> Flags -> Z -> value -> value ->
                  result SearchResult)
  (side : bool) (board : Board) (flags : Flags) (depth : Z) :
  (forall s b f d alpha beta,
     extends (recur s b f d alpha beta) (recur' s b f d alpha beta)) ->
  forall moves alpha beta h bm bl t,
    extends
      (alphabeta_min_loop recur side board flags depth moves alpha beta
         h bm bl t)
      (alphabeta_min_loop recur' side board flags depth moves alpha beta
         h bm bl t).
Proof.
  intros Hrec. induction moves as [|m moves IH]; intros alpha beta h bm bl t;
    [intros _; reflexivity | loop_extends IH].
Qed.

Lemma minimax_fuel_extends (fuel : nat) :
  forall (side : bool) (board : Board) (flags : Flags) (depth : Z),
    extends (minimax_fuel fuel side board flags depth)
            (minimax_fuel (S fuel) side board flags depth).
Proof.
  induction fuel as [|fuel IH]; intros side board flags depth;
    [intros H; exfalso; apply H; reflexivity|].
  destruct (Z.eq_dec depth 0) as [-> | Hd0];
    [rewrite !minimax_fuel_depth0; intros _; reflexivity|].
  rewrite (minimax_fuel_unfold fuel), (minimax_fuel_unfold (S fuel))
    by assumption.
  destruct (generateMoves side board flags) as [|m0 moves];
    [intros _; reflexivity|].
  destruct side; apply bind_extends;
    try (intros [[[? ?] ?] ?] _; reflexivity);
    [apply minimax_min_loop_extends | apply minimax_max_loop_extends];
    intros; apply IH.
Qed.

Lemma alphabeta_fuel_extends (fuel : nat) :
  forall (side : bool) (board : Board) (flags : Flags) (depth : Z)
    (alpha beta : value),
    extends (alphabeta_fuel fuel side board flags depth alpha beta)
            (alphabeta_fuel (S fuel) side board flags depth alpha beta).
Proof.
  induction fuel as [|fuel IH]; intros side board flags depth alpha beta;
    [intros H; exfalso; apply H; reflexivity|].
  destruct (Z.eq_dec depth 0) as [-> | Hd0];
    [rewrite !alphabeta_fuel_depth0; intros _; reflexivity|].
  rewrite (alphabeta_fuel_unfold fuel), (alphabeta_fuel_unfold (S fuel))
    by assumption.
  destruct (generateMoves side board flags) as [|m0 moves];
    [intros _; reflexivity|].
  destruct side; apply bind_extends;
    try (intros [[[? ?] ?] ?] _; reflexivity);
    [apply alphabeta_min_loop_extends | apply alphabeta_max_loop_extends];
    intros; apply IH.
Qed.

(** The two outcomes can differ in one way only: [alphabeta] raises nowhere
    but where [minimax] raises too. *)
Lemma alphabeta_raises_where_minimax_does (side : bool) (board : Board)
  (flags : Flags) (depth : Z) (e : exn) :
  (0 <= depth)%Z ->
  alphabeta side board flags depth NegInf PosInf = Raise e ->
  exists e', minimax side board flags depth = Raise e'.
Proof.
  intros Hd Ha.
  destruct (minimax side board flags depth) as [[[v l] t] | e' |] eqn:Hm.
  - destruct (alphabeta_returns_what_minimax_returns _ _ _ Hd Hm) as [t' Hr].
    congruence.
  - eauto.
  - exfalso. revert Hm. apply minimax_comes_back. assumption.
Qed.

End SearchFacts.

(** * More facts on the searches *)

Section GameFacts.

Context {lib : ChessLib} {arith : PyArith}.

(** ** [random] *)

(** X2. [random] raises nothing of its own: it raises an exception exactly
    when the position has a move and the chooser, called on the moves,
    raises this exception. *)
Theorem random_raises_with_the_chooser_only (CS : Type) (side : bool)
  (board : Board) (flags : Flags)
  (chooser : list Move -> CS -> result (Move * CS)) (cs : CS) (e : exn) :
  random side board flags chooser cs = Raise e <->
  generateMoves side board flags <> []
  /\ chooser (generateMoves side board flags) cs = Raise e.
Proof.
  unfold random.
  destruct (generateMoves side board flags) as [|m0 moves] eqn:Hm; simpl.
  - split; [discriminate | intros [H _]; congruence].
  - destruct (chooser (m0 :: moves) cs) as [[move cs1] | e' |]; simpl.
    + destruct (applyMove side board flags move) as [[s b] f].
      split; [discriminate | intros [_ H]; discriminate].
    + split; [intros H | intros [_ H]]; injection H as ->;
        [split; [discriminate | reflexivity] | reflexivity].
    + split; [discriminate | intros [_ H]; discriminate].
Qed.

(** X3. On a position with a move, [random] is one run of the sampling
    helper at depth 1: it returns the move that the chooser picked, alone in
    the move list, with the value, the move tree and the chooser state that
    [stochasticHelper] returns at depth 1. *)
Theorem random_is_the_helper_one_ply_deep (CS : Type) (side : bool)
  (board : Board) (flags : Flags)
  (chooser : list Move -> CS -> result (Move * CS)) (cs cs' : CS)
  (v : value) (moveList : list Move) (moveTree : MoveTree) :
  generateMoves side board flags <> [] ->
  random side board flags chooser cs = Return ((v, moveList, moveTree), cs')
  <-> exists move,
        moveList = [move]
        /\ chooser (generateMoves side board flags) cs = Return (move, cs')
        /\ stochasticHelper chooser side board flags 1 cs
           = Return (v, moveTree, cs').
Proof.
  intros Hm. unfold random, stochasticHelper. simpl.
  destruct (generateMoves side board flags) as [|m0 moves]; [congruence|].
  simpl.
  destruct (chooser (m0 :: moves) cs) as [[move cs1] | e' |]; simpl.
  - destruct (applyMove side board flags move) as [[s b] f]. simpl.
    split.
    + intros H. injection H as <- <- <- <-. exists move. auto.
    + intros (move' & -> & H1 & H2). injection H1 as <- <-.
      injection H2 as <- <-. reflexivity.
  - split; [discriminate | intros (move' & _ & H & _); discriminate].
  - split; [discriminate | intros (move' & _ & H & _); discriminate].
Qed.

(** ** The sampling helper *)

(** X4. The value that [stochasticHelper] returns at a depth [d >= 0] is
    the evaluation of the board reached by the [d] moves that the chooser
    picked, ply after ply. *)
Theorem stochasticHelper_value_is_the_leaf (CS : Type)
  (chooser : list Move -> CS -> result (Move * CS)) (fuel : nat)
  (side : bool) (board : Board) (flags : Flags) (depth : Z) (cs cs' : CS)
  (v : value) (moveTree : MoveTree) :
  (0 <= depth)%Z ->
  stochasticHelper_fuel chooser fuel side board flags depth cs
  = Return (v, moveTree, cs') ->
  exists moves : list Move,
    length moves = Z.to_nat depth
    /\ chosen_along chooser side board flags cs moves
    /\ v = evaluate (board_after side board flags moves).
Proof.
  revert side board flags depth cs cs' v moveTree.
  induction fuel as [|fuel IH]; intros side board flags depth cs cs' v moveTree
    Hd H; simpl in H; [discriminate|].
  destruct (depth =? 0)%Z eqn:E.
  - apply Z.eqb_eq in E. subst depth. injection H as <- <- <-.
    exists []. repeat split.
  - apply Z.eqb_neq in E.
    bind_inv H. destruct a as [move cs1].
    destruct (applyMove side board flags move) as [[newSide newBoard] newFlags]
      eqn:Ea.
    bind_inv H. destruct a as [[moveValue moveTree_d1] cs2].
    injection H as <- <- <-.
    apply IH in Hr0; [|lia]. destruct Hr0 as (moves & Hlen & Hc & Hv).
    exists (move :: moves). unfold board_after. simpl. rewrite Ea.
    repeat split.
    + rewrite Hlen. lia.
    + exists cs1. split; [assumption|]. assumption.
    + exact Hv.
Qed.

(** ** [stochastic] at depth 0 *)

(** X5. At depth 0, [stochastic] calls the helper at depth -1, which never
    meets the test [depth == 0]: with [breadth >= 1] it returns no result. *)
Theorem stochastic_at_depth0_never_returns (CS : Type)
  (chooser : list Move -> CS -> result (Move * CS)) (fuel : nat)
  (side : bool) (board : Board) (flags : Flags) (breadth : Z) (cs : CS)
  (r : SearchResult * CS) :
  (1 <= breadth)%Z ->
  stochastic_fuel chooser fuel side board flags 0 breadth cs <> Return r.
Proof.
  intros Hb. unfold stochastic_fuel.
  destruct (generateMoves side board flags) as [|m0 moves]; [discriminate|].
  destruct side; apply bind_not_Return; intros a; simpl;
    apply bind_not_Return; intros a'; unfold sample_move;
    destruct (applyMove _ board flags m0) as [[newSide newBoard] newFlags];
    apply bind_not_Return; intros a'';
    destruct (Z.to_nat breadth) as [|n] eqn:En; try lia; simpl;
    apply bind_not_Return; intros a''';
    apply stochasticHelper_fuel_negative_depth; lia.
Qed.

(** ** Where the searches return *)

Lemma playable_S (plies : nat) (side : bool) (board : Board) (flags : Flags) :
  playable (S plies) side board flags
  = match generateMoves side board flags with
    | [] => false
    | moves => moves_playable plies side board flags moves
    end.
Proof. reflexivity. Qed.

Ltac loop_settles IH Hrec :=
  simpl;
  match goal with
  | |- context [applyMove ?s ?b ?f ?m] =>
      let E := fresh "E" in
      destruct (applyMove s b f m) as [[newSide newBoard] newFlags] eqn:E;
      pose proof (Hrec newSide newBoard newFlags) as Hc;
      unfold settles in Hc;
      destruct (playable _ newSide newBoard newFlags);
      [ destruct Hc as ([[v l] tr] & Hc); rewrite Hc; simpl
      | rewrite Hc; reflexivity ]
  end.

Lemma minimax_max_loop_settles
  (recur : bool -> Board -> Flags -> Z -> result SearchResult)
  (plies : nat) (side : bool) (board : Board) (flags : Flags) (depth : Z) :
  (forall s b f, settles plies s b f (recur s b f (depth - 1)%Z)) ->
  forall moves h bm bl t,
    if moves_playable plies side board flags moves
    then exists res,
           minimax_max_loop recur side board flags depth moves h bm bl t
           = Return res
    else minimax_max_loop recur side board flags depth moves h bm bl t
         = Raise IndexError.
Proof.
  intros Hrec. induction moves as [|m moves IH]; intros h bm bl t.
  - simpl. eauto.
  - loop_settles IH Hrec. destruct (py_gt v h); apply IH.
Qed.

Lemma minimax_min_loop_settles
  (recur : bool -> Board -> Flags -> Z -> result SearchResult)
  (plies : nat) (side : bool) (board : Board) (flags : Flags) (depth : Z) :
  (forall s b f, settles plies s b f (recur s b f (depth - 1)%Z)) ->
  forall moves h bm bl t,
    if moves_playable plies side board flags moves
    then exists res,
           minimax_min_loop recur side board flags depth moves h bm bl t
           = Return res
    else minimax_min_loop recur side board flags depth moves h bm bl t
         = Raise IndexError.
Proof.
  intros Hrec. induction moves as [|m moves IH]; intros h bm bl t.
  - simpl. eauto.
  - loop_settles IH Hrec. destruct (py_lt v h); apply IH.
Qed.

Lemma minimax_fuel_settles (plies : nat) :
  forall (side : bool) (board : Board) (flags : Flags),
    settles plies side board flags
      (minimax_fuel (S plies) side board flags (Z.of_nat plies)).
Proof.
  induction plies as [|plies IH]; intros side board flags.
  - unfold settles. simpl. eauto.
  - unfold settles. rewrite minimax_fuel_unfold by lia. rewrite playable_S.
    assert (Hrec : forall s b f,
              settles plies s b f
                (minimax_fuel (S plies) s b f (Z.of_nat (S plies) - 1)%Z)).
    { intros s b f. replace (Z.of_nat (S plies) - 1)%Z with (Z.of_nat plies)
        by lia. apply IH. }
    destruct (generateMoves side board flags) as [|m0 moves]; [reflexivity|].
    destruct side.
    + pose proof (@minimax_min_loop_settles _ _ true board flags _ Hrec
                    (m0 :: moves) PosInf m0 [] empty) as Hl.
      destruct (moves_playable plies true board flags (m0 :: moves)).
      * destruct Hl as ([[[h bm] bl] t] & ->). simpl. eauto.
      * rewrite Hl. reflexivity.
    + pose proof (@minimax_max_loop_settles _ _ false board flags _ Hrec
                    (m0 :: moves) NegInf m0 [] empty) as Hl.
      destruct (moves_playable plies false board flags (m0 :: moves)).
      * destruct Hl as ([[[h bm] bl] t] & ->). simpl. eauto.
      * rewrite Hl. reflexivity.
Qed.

(** X6. At a depth [d >= 0], [minimax] returns when every position reached
    in fewer than [d] moves has a move, and raises [IndexError] when one of
    them has none. *)
Theorem minimax_returns_where_playable (side : bool) (board : Board)
  (flags : Flags) (depth : Z) :
  (0 <= depth)%Z ->
  (playable (Z.to_nat depth) side board flags = true ->
   exists r, minimax side board flags depth = Return r)
  /\ (playable (Z.to_nat depth) side board flags = false ->
      minimax side board flags depth = Raise IndexError).
Proof.
  intros Hd. unfold minimax.
  pose proof (minimax_fuel_settles (Z.to_nat depth) side board flags) as H.
  unfold settles in H. rewrite Z2Nat.id in H by assumption.
  destruct (playable (Z.to_nat depth) side board flags);
    split; intros Hp; try discriminate; exact H.
Qed.

Ltac loop_returns IH Hrec Hp :=
  simpl in Hp |- *;
  match goal with
  | |- context [applyMove ?s ?b ?f ?m] =>
      destruct (applyMove s b f m) as [[newSide newBoard] newFlags]
  end;
  apply andb_prop in Hp; destruct Hp as [Hp1 Hp];
  match goal with
  | |- context [bind (_ ?s ?b ?f _ ?alpha ?beta) _] =>
      destruct (Hrec s b f alpha beta Hp1) as ([[v l] tr] & Hc);
      rewrite Hc; simpl
  end;
  repeat match goal with
  | |- context [if ?c then _ else _] => destruct c
  end; cbv beta iota; eauto.

Lemma alphabeta_max_loop_returns
  (recur : bool -> Board -> Flags -> Z -> value -> value ->
           result SearchResult)
  (plies : nat) (side : bool) (board : Board) (flags : Flags) (depth : Z) :
  (forall s b f alpha beta,
     playable plies s b f = true ->
     exists res, recur s b f (depth - 1)%Z alpha beta = Return res) ->
  forall moves alpha beta h bm bl t,
    moves_playable plies side board flags moves = true ->
    exists res,
      alphabeta_max_loop recur side board flags depth moves alpha beta
        h bm bl t = Return res.
Proof.
  intros Hrec. induction moves as [|m moves IH];
    intros alpha beta h bm bl t Hp.
  - simpl. eauto.
  - loop_returns IH Hrec Hp.
Qed.

Lemma alphabeta_min_loop_returns
  (recur : bool -> Board -> Flags -> Z -> value -> value ->
           result SearchResult)
  (plies : nat) (side : bool) (board : Board) (flags : Flags) (depth : Z) :
  (forall s b f alpha beta,
     playable plies s b f = true ->
     exists res, recur s b f (depth - 1)%Z alpha beta = Return res) ->
  forall moves alpha beta h bm bl t,
    moves_playable plies side board flags moves = true ->
    exists res,
      alphabeta_min_loop recur side board flags depth moves alpha beta
        h bm bl t = Return res.
Proof.
  intros Hrec. induction moves as [|m moves IH];
    intros alpha beta h bm bl t Hp.
  - simpl. eauto.
  - loop_returns IH Hrec Hp.
Qed.

Lemma alphabeta_fuel_returns (plies : nat) :
  forall (side : bool) (board : Board) (flags : Flags) (alpha beta : value),
    playable plies side board flags = true ->
    exists res,
      alphabeta_fuel (S plies) side board flags (Z.of_nat plies) alpha beta
      = Return res.
Proof.
  induction plies as [|plies IH]; intros side board flags alpha beta Hp.
  - simpl. eauto.
  - rewrite alphabeta_fuel_unfold by lia. rewrite playable_S in Hp.
    assert (Hrec : forall s b f alpha beta,
              playable plies s b f = true ->
              exists res,
                alphabeta_fuel (S plies) s b f (Z.of_nat (S plies) - 1)%Z
                  alpha beta = Return res).
    { intros s b f a b' H.
      replace (Z.of_nat (S plies) - 1)%Z with (Z.of_nat plies) by lia.
      apply IH. assumption. }
    destruct (generateMoves side board flags) as [|m0 moves]; [discriminate|].
    destruct side.
    + destruct (@alphabeta_min_loop_returns _ _ true board flags _ Hrec
                  (m0 :: moves) alpha beta PosInf m0 [] empty Hp)
        as ([[[h bm] bl] t] & ->).
      simpl. eauto.
    + destruct (@alphabeta_max_loop_returns _ _ false board flags _ Hrec
                  (m0 :: moves) alpha beta NegInf m0 [] empty Hp)
        as ([[[h bm] bl] t] & ->).
      simpl. eauto.
Qed.

(** X7. At a depth [d >= 0], [alphabeta] returns, whatever the bounds, when
    every position reached in fewer than [d] moves has a move. *)
Theorem alphabeta_returns_where_playable (side : bool) (board : Board)
  (flags : Flags) (depth : Z) (alpha beta : value) :
  (0 <= depth)%Z ->
  playable (Z.to_nat depth) side board flags = true ->
  exists r, alphabeta side board flags depth alpha beta = Return r.
Proof.
  intros Hd Hp. unfold alphabeta.
  destruct (alphabeta_fuel_returns (Z.to_nat depth) side board flags alpha beta
              Hp) as (r & H).
  rewrite Z2Nat.id in H by assumption. eauto.
Qed.

(** One more move of a loop, where the calls below end with a result or
    with [IndexError]. *)
Ltac loop_ended IH Hrec :=
  simpl;
  match goal with
  | |- context [applyMove ?s ?b ?f ?m] =>
      destruct (applyMove s b f m) as [[newSide newBoard] newFlags]
  end;
  match goal with
  | |- context [bind (_ ?s ?b ?f _ ?alpha ?beta) _] =>
      destruct (Hrec s b f alpha beta) as [([[v l] tr] & Hc) | Hc];
      rewrite Hc; simpl; [|right; reflexivity]
  end;
  repeat match goal with
  | |- context [if ?c then _ else _] => destruct c
  end; cbv beta iota; first [apply IH | left; eauto].

Lemma alphabeta_max_loop_ends
  (recur : bool -> Board -> Flags -> Z -> value -> value ->
           result SearchResult)
  (side : bool) (board : Board) (flags : Flags) (depth : Z) :
  (forall s b f alpha beta,
     (exists res, recur s b f (depth - 1)%Z alpha beta = Return res)
     \/ recur s b f (depth - 1)%Z alpha beta = Raise IndexError) ->
  forall moves alpha beta h bm bl t,
    (exists res,
       alphabeta_max_loop recur side board flags depth moves alpha beta
         h bm bl t = Return res)
    \/ alphabeta_max_loop recur side board flags depth moves alpha beta
         h bm bl t = Raise IndexError.
Proof.
  intros Hrec. induction moves as [|m moves IH];
    intros alpha beta h bm bl t.
  - simpl. left. eauto.
  - loop_ended IH Hrec.
Qed.

Lemma alphabeta_min_loop_ends
  (recur : bool -> Board -> Flags -> Z -> value -> value ->
           result SearchResult)
  (side : bool) (board : Board) (flags : Flags) (depth : Z) :
  (forall s b f alpha beta,
     (exists res, recur s b f (depth - 1)%Z alpha beta = Return res)
     \/ recur s b f (depth - 1)%Z alpha beta = Raise IndexError) ->
  forall moves alpha beta h bm bl t,
    (exists res,
       alphabeta_min_loop recur side board flags depth moves alpha beta
         h bm bl t = Return res)
    \/ alphabeta_min_loop recur side board flags depth moves alpha beta
         h bm bl t = Raise IndexError.
Proof.
  intros Hrec. induction moves as [|m moves IH];
    intros alpha beta h bm bl t.
  - simpl. left. eauto.
  - loop_ended IH Hrec.
Qed.

Lemma alphabeta_fuel_ends (plies : nat) :
  forall (side : bool) (board : Board) (flags : Flags) (alpha beta : value),
    (exists res,
       alphabeta_fuel (S plies) side board flags (Z.of_nat plies) alpha beta
       = Return res)
    \/ alphabeta_fuel (S plies) side board flags (Z.of_nat plies) alpha beta
       = Raise IndexError.
Proof.
  induction plies as [|plies IH]; intros side board flags alpha beta.
  - simpl. left. eauto.
  - rewrite alphabeta_fuel_unfold by lia.
    assert (Hrec : forall s b f alpha beta,
              (exists res,
                 alphabeta_fuel (S plies) s b f (Z.of_nat (S plies) - 1)%Z
                   alpha beta = Return res)
              \/ alphabeta_fuel (S plies) s b f (Z.of_nat (S plies) - 1)%Z
                   alpha beta = Raise IndexError).
    { intros s b f a b'.
      replace (Z.of_nat (S plies) - 1)%Z with (Z.of_nat plies) by lia.
      apply IH. }
    destruct (generateMoves side board flags) as [|m0 moves];
      [right; reflexivity|].
    destruct side.
    + destruct (@alphabeta_min_loop_ends _ true board flags _ Hrec
                  (m0 :: moves) alpha beta PosInf m0 [] empty)
        as [([[[h bm] bl] t] & ->) | ->]; simpl; [left; eauto | right; auto].
    + destruct (@alphabeta_max_loop_ends _ false board flags _ Hrec
                  (m0 :: moves) alpha beta NegInf m0 [] empty)
        as [([[[h bm] bl] t] & ->) | ->]; simpl; [left; eauto | right; auto].
Qed.

(** X8. At a depth [d >= 0], [alphabeta] ends on every position and with
    every bounds, within [d + 1] nested calls: it returns, or it raises the
    [IndexError] of a position without a move. *)
Theorem alphabeta_ends (side : bool) (board : Board) (flags : Flags)
  (depth : Z) (alpha beta : value) :
  (0 <= depth)%Z ->
  (exists r, alphabeta side board flags depth alpha beta = Return r)
  \/ alphabeta side board flags depth alpha beta = Raise IndexError.
Proof.
  intros Hd. unfold alphabeta.
  pose proof (alphabeta_fuel_ends (Z.to_nat depth) side board flags alpha beta)
    as H.
  rewrite Z2Nat.id in H by assumption. exact H.
Qed.

(** ** The value of [minimax] *)

Lemma game_value_S (plies : nat) (side : bool) (board : Board)
  (flags : Flags) :
  game_value (S plies) side board flags
  = if side
    then fold_left py_min
           (map (child_value plies side board flags)
                (generateMoves side board flags)) PosInf
    else fold_left py_max
           (map (child_value plies side board flags)
                (generateMoves side board flags)) NegInf.
Proof. reflexivity. Qed.

Lemma minimax_max_loop_value
  (recur : bool -> Board -> Flags -> Z -> result SearchResult)
  (plies : nat) (side : bool) (board : Board) (flags : Flags) (depth : Z) :
  (forall s b f v l t,
     recur s b f (depth - 1)%Z = Return (v, l, t) ->
     v = game_value plies s b f) ->
  forall moves h bm bl t H BM BL T,
    minimax_max_loop recur side board flags depth moves h bm bl t
    = Return (H, BM, BL, T) ->
    H = fold_left py_max (map (child_value plies side board flags) moves) h.
Proof.
  intros Hrec. induction moves as [|m moves IH];
    intros h bm bl t H BM BL T Hl; simpl in Hl.
  - injection Hl as <- <- <- <-. reflexivity.
  - simpl. unfold child_value at 2.
    destruct (applyMove side board flags m) as [[newSide newBoard] newFlags].
    bind_inv Hl. destruct a as [[v l] tr]. apply Hrec in Hr. subst v.
    unfold py_max at 2.
    destruct (py_gt (game_value plies newSide newBoard newFlags) h);
      eapply IH; eassumption.
Qed.

Lemma minimax_min_loop_value
  (recur : bool -> Board -> Flags -> Z -> result SearchResult)
  (plies : nat) (side : bool) (board : Board) (flags : Flags) (depth : Z) :
  (forall s b f v l t,
     recur s b f (depth - 1)%Z = Return (v, l, t) ->
     v = game_value plies s b f) ->
  forall moves h bm bl t H BM BL T,
    minimax_min_loop recur side board flags depth moves h bm bl t
    = Return (H, BM, BL, T) ->
    H = fold_left py_min (map (child_value plies side board flags) moves) h.
Proof.
  intros Hrec. induction moves as [|m moves IH];
    intros h bm bl t H BM BL T Hl; simpl in Hl.
  - injection Hl as <- <- <- <-. reflexivity.
  - simpl. unfold child_value at 2.
    destruct (applyMove side board flags m) as [[newSide newBoard] newFlags].
    bind_inv Hl. destruct a as [[v l] tr]. apply Hrec in Hr. subst v.
    unfold py_min at 2.
    destruct (py_lt (game_value plies newSide newBoard newFlags) h);
      eapply IH; eassumption.
Qed.

Lemma minimax_fuel_value (plies : nat) :
  forall (side : bool) (board : Board) (flags : Flags) (v : value)
    (l : list Move) (t : MoveTree),
    minimax_fuel (S plies) side board flags (Z.of_nat plies) = Return (v, l, t) ->
    v = game_value plies side board flags.
Proof.
  induction plies as [|plies IH]; intros side board flags v l t H.
  - simpl in H. injection H as <- <- <-. reflexivity.
  - rewrite minimax_fuel_unfold in H by lia. rewrite game_value_S.
    assert (Hrec : forall s b f v l t,
              minimax_fuel (S plies) s b f (Z.of_nat (S plies) - 1)%Z
              = Return (v, l, t) ->
              v = game_value plies s b f).
    { intros s b f v' l' t'.
      replace (Z.of_nat (S plies) - 1)%Z with (Z.of_nat plies) by lia.
      apply IH. }
    destruct (generateMoves side board flags) as [|m0 moves]; [discriminate|].
    destruct side; bind_inv H; destruct a as [[[h bm] bl] tm];
      injection H as <- <- <-.
    + eapply minimax_min_loop_value in Hr; eassumption.
    + eapply minimax_max_loop_value in Hr; eassumption.
Qed.

(** X9. The value that [minimax] returns at a depth [d >= 0] is the
    backed-up value of the position, [d] moves deep. *)
Theorem minimax_value_is_game_value (side : bool) (board : Board)
  (flags : Flags) (depth : Z) (v : value) (moveList : list Move)
  (moveTree : MoveTree) :
  (0 <= depth)%Z ->
  minimax side board flags depth = Return (v, moveList, moveTree) ->
  v = game_value (Z.to_nat depth) side board flags.
Proof.
  intros Hd H. unfold minimax in H.
  eapply minimax_fuel_value. rewrite Z2Nat.id by assumption. eassumption.
Qed.

(** ** [alphabeta] on a window *)

(** X10. On a window [alpha < beta] and where [minimax] returns the value
    [v], [alphabeta] returns: the value [v] and the move list of [minimax]
    when [v] is inside the window, a value from [v] to [alpha] when
    [v <= alpha], and a value from [beta] to [v] when [beta <= v]. *)
Theorem alphabeta_on_a_window (side : bool) (board : Board) (flags : Flags)
  (depth : Z) (alpha beta v : value) (moveList : list Move)
  (moveTree : MoveTree) :
  (0 <= depth)%Z -> alpha <v beta ->
  minimax side board flags depth = Return (v, moveList, moveTree) ->
  exists r moveList' moveTree',
    alphabeta side board flags depth alpha beta
    = Return (r, moveList', moveTree')
    /\ (alpha <v v -> v <v beta -> r = v /\ moveList' = moveList)
    /\ (v <=v alpha -> v <=v r /\ r <=v alpha)
    /\ (beta <=v v -> beta <=v r /\ r <=v v).
Proof.
  unfold minimax, alphabeta. intros Hd Hab H.
  eapply alphabeta_fuel_agrees with (alpha := alpha) (beta := beta) in H;
    [ | reflexivity | assumption | assumption ].
  destruct H as ([[r l'] t'] & -> & Hin & Hlo & Hhi).
  exists r, l', t'. split; [reflexivity|]. split; [|split]; auto.
  intros H1 H2. apply Hin. unfold exact_in. auto.
Qed.

(** X11. Where every position reached in fewer than [d] moves has a move,
    [alphabeta] with its default bounds returns, at depth [d], the backed-up
    value of the position. *)
Theorem alphabeta_value_is_game_value (side : bool) (board : Board)
  (flags : Flags) (depth : Z) :
  (0 <= depth)%Z ->
  playable (Z.to_nat depth) side board flags = true ->
  exists moveList moveTree,
    alphabeta side board flags depth NegInf PosInf
    = Return (game_value (Z.to_nat depth) side board flags, moveList, moveTree).
Proof.
  intros Hd Hp.
  pose proof (minimax_fuel_settles (Z.to_nat depth) side board flags) as H.
  unfold settles in H. rewrite Hp in H. destruct H as ([[v l] t] & H).
  pose proof (minimax_fuel_value _ _ _ _ H) as Hv.
  rewrite Z2Nat.id in H by assumption.
  eapply alphabeta_fuel_agrees with (alpha := NegInf) (beta := PosInf) in H;
    [ | reflexivity | assumption | reflexivity ].
  destruct H as ([[r l'] t'] & Hr & Hin & _).
  destruct Hin as [-> ->]; [unfold exact_in; auto|].
  unfold alphabeta. rewrite Hr, Hv. eauto.
Qed.

(** ** The move list is a line of the game *)

Lemma leads_ends_line (plies : nat) (side : bool) (board : Board)
  (flags : Flags) (move : Move) (v : value) (rest : list Move) :
  leads plies side board flags move v rest ->
  ends_line (S plies) side board flags v (move :: rest).
Proof.
  unfold leads, ends_line, board_after. simpl.
  destruct (applyMove side board flags move) as [[s b] f].
  intros (Hin & Hlen & Hl & Hv). repeat split; auto.
Qed.

Lemma finite_above_NegInf (v : value) :
  (exists q, v = Num q) -> py_gt v NegInf = true.
Proof. intros (q & ->). reflexivity. Qed.

Lemma finite_below_PosInf (v : value) :
  (exists q, v = Num q) -> py_lt v PosInf = true.
Proof. intros (q & ->). reflexivity. Qed.

Section OneLevelLine.

Variable plies : nat.
Variables (side : bool) (board : Board) (flags : Flags) (depth : Z).

(** One more move of a loop: the call below returned a line. *)
Ltac line_step IH Hl Hin Hrec :=
  simpl in Hl;
  match type of Hl with
  | context [applyMove ?s ?b ?f ?m] =>
      let E := fresh "E" in
      destruct (applyMove s b f m) as [[newSide newBoard] newFlags] eqn:E;
      apply bind_Return in Hl;
      let a := fresh "a" in
      let Hr := fresh "Hr" in
      destruct Hl as (a & Hr & Hl); destruct a as [[v l] tr];
      apply Hrec in Hr;
      assert (leads plies s b f m v l)
        by (unfold leads; rewrite E; split; [apply Hin; left; reflexivity
                                            | exact Hr])
  end;
  repeat match type of Hl with
  | context [if ?c then _ else _] => destruct c
  end; cbv beta iota in Hl;
  first [ injection Hl as <- <- <- <-; assumption
        | eapply IH; [ | | exact Hl]; [intros; apply Hin; right; assumption
                                      | assumption] ].

Lemma minimax_max_loop_line
  (recur : bool -> Board -> Flags -> Z -> result SearchResult) :
  (forall s b f v l t,
     recur s b f (depth - 1)%Z = Return (v, l, t) ->
     ends_line plies s b f v l) ->
  forall moves h bm bl t H BM BL T,
    (forall m, In m moves -> In m (generateMoves side board flags)) ->
    leads plies side board flags bm h bl ->
    minimax_max_loop recur side board flags depth moves h bm bl t
    = Return (H, BM, BL, T) ->
    leads plies side board flags BM H BL.
Proof.
  intros Hrec. induction moves as [|m moves IH];
    intros h bm bl t H BM BL T Hin Hg Hl.
  - simpl in Hl. injection Hl as <- <- <- <-. assumption.
  - line_step IH Hl Hin Hrec.
Qed.

Lemma minimax_min_loop_line
  (recur : bool -> Board -> Flags -> Z -> result SearchResult) :
  (forall s b f v l t,
     recur s b f (depth - 1)%Z = Return (v, l, t) ->
     ends_line plies s b f v l) ->
  forall moves h bm bl t H BM BL T,
    (forall m, In m moves -> In m (generateMoves side board flags)) ->
    leads plies side board flags bm h bl ->
    minimax_min_loop recur side board flags depth moves h bm bl t
    = Return (H, BM, BL, T) ->
    leads plies side board flags BM H BL.
Proof.
  intros Hrec. induction moves as [|m moves IH];
    intros h bm bl t H BM BL T Hin Hg Hl.
  - simpl in Hl. injection Hl as <- <- <- <-. assumption.
  - line_step IH Hl Hin Hrec.
Qed.

Lemma alphabeta_max_loop_line
  (recur : bool -> Board -> Flags -> Z -> value -> value ->
           result SearchResult) :
  (forall s b f alpha beta v l t,
     recur s b f (depth - 1)%Z alpha beta = Return (v, l, t) ->
     ends_line plies s b f v l) ->
  forall moves alpha beta h bm bl t H BM BL T,
    (forall m, In m moves -> In m (generateMoves side board flags)) ->
    leads plies side board flags bm h bl ->
    alphabeta_max_loop recur side board flags depth moves alpha beta h bm bl t
    = Return (H, BM, BL, T) ->
    leads plies side board flags BM H BL.
Proof.
  intros Hrec. induction moves as [|m moves IH];
    intros alpha beta h bm bl t H BM BL T Hin Hg Hl.
  - simpl in Hl. injection Hl as <- <- <- <-. assumption.
  - line_step IH Hl Hin Hrec.
Qed.

Lemma alphabeta_min_loop_line
  (recur : bool -> Board -> Flags -> Z -> value -> value ->
           result SearchResult) :
  (forall s b f alpha beta v l t,
     recur s b f (depth - 1)%Z alpha beta = Return (v, l, t) ->
     ends_line plies s b f v l) ->
  forall moves alpha beta h bm bl t H BM BL T,
    (forall m, In m moves -> In m (generateMoves side board flags)) ->
    leads plies side board flags bm h bl ->
    alphabeta_min_loop recur side board flags depth moves alpha beta h bm bl t
    = Return (H, BM, BL, T) ->
    leads plies side board flags BM H BL.
Proof.
  intros Hrec. induction moves as [|m moves IH];
    intros alpha beta h bm bl t H BM BL T Hin Hg Hl.
  - simpl in Hl. injection Hl as <- <- <- <-. assumption.
  - line_step IH Hl Hin Hrec.
Qed.

End OneLevelLine.


Lemma ends_line_finite (plies : nat) (side : bool) (board : Board)
  (flags : Flags) (v : value) (l : list Move) :
  finite_scores -> ends_line plies side board flags v l ->
  exists q, v = Num q.
Proof. intros Hfin (_ & _ & ->). apply Hfin. Qed.

Lemma minimax_fuel_line (Hfin : finite_scores) (fuel : nat) :
  forall (side : bool) (board : Board) (flags : Flags) (depth : Z)
    (v : value) (l : list Move) (t : MoveTree),
    (0 <= depth)%Z ->
    minimax_fuel fuel side board flags depth = Return (v, l, t) ->
    ends_line (Z.to_nat depth) side board flags v l.
Proof.
  induction fuel as [|fuel IH]; intros side board flags depth v l t Hd H;
    [discriminate|].
  destruct (Z.eq_dec depth 0) as [-> | Hd0].
  - rewrite minimax_fuel_depth0 in H. injection H as <- <- <-.
    repeat split.
  - rewrite minimax_fuel_unfold in H by assumption.
    assert (Hrec : forall s b f v l t,
              minimax_fuel fuel s b f (depth - 1)%Z = Return (v, l, t) ->
              ends_line (Z.to_nat (depth - 1)) s b f v l).
    { intros. eapply IH; [lia | eassumption]. }
    replace (Z.to_nat depth) with (S (Z.to_nat (depth - 1))) by lia.
    destruct (generateMoves side board flags) as [|m0 moves] eqn:Hm;
      [discriminate|].
    assert (Hin : forall m, In m (m0 :: moves) ->
                            In m (generateMoves side board flags))
      by (rewrite Hm; auto).
    destruct side; bind_inv H; destruct a as [[[h bm] bl] tm];
      injection H as <- <- <-; apply leads_ends_line; simpl in Hr;
      destruct (applyMove _ board flags m0) as [[newSide newBoard] newFlags]
        eqn:Ea;
      bind_inv Hr; destruct a as [[v0 l0] tr0];
      pose proof (Hrec _ _ _ _ _ _ Hr0) as Hline;
      pose proof (ends_line_finite Hfin Hline) as Hq.
    + rewrite (finite_below_PosInf Hq) in Hr.
      eapply minimax_min_loop_line in Hr; eauto.
      * intros; apply Hin; right; assumption.
      * unfold leads. rewrite Ea. split; [apply Hin; left; reflexivity|].
        assumption.
    + rewrite (finite_above_NegInf Hq) in Hr.
      eapply minimax_max_loop_line in Hr; eauto.
      * intros; apply Hin; right; assumption.
      * unfold leads. rewrite Ea. split; [apply Hin; left; reflexivity|].
        assumption.
Qed.

Lemma alphabeta_fuel_line (Hfin : finite_scores) (fuel : nat) :
  forall (side : bool) (board : Board) (flags : Flags) (depth : Z)
    (alpha beta v : value) (l : list Move) (t : MoveTree),
    (0 <= depth)%Z ->
    alphabeta_fuel fuel side board flags depth alpha beta = Return (v, l, t) ->
    ends_line (Z.to_nat depth) side board flags v l.
Proof.
  induction fuel as [|fuel IH];
    intros side board flags depth alpha beta v l t Hd H; [discriminate|].
  destruct (Z.eq_dec depth 0) as [-> | Hd0].
  - rewrite alphabeta_fuel_depth0 in H. injection H as <- <- <-.
    repeat split.
  - rewrite alphabeta_fuel_unfold in H by assumption.
    assert (Hrec : forall s b f alpha beta v l t,
              alphabeta_fuel fuel s b f (depth - 1)%Z alpha beta
              = Return (v, l, t) ->
              ends_line (Z.to_nat (depth - 1)) s b f v l).
    { intros. eapply IH; [lia | eassumption]. }
    replace (Z.to_nat depth) with (S (Z.to_nat (depth - 1))) by lia.
    destruct (generateMoves side board flags) as [|m0 moves] eqn:Hm;
      [discriminate|].
    assert (Hin : forall m, In m (m0 :: moves) ->
                            In m (generateMoves side board flags))
      by (rewrite Hm; auto).
    destruct side; bind_inv H; destruct a as [[[h bm] bl] tm];
      injection H as <- <- <-; apply leads_ends_line; simpl in Hr;
      destruct (applyMove _ board flags m0) as [[newSide newBoard] newFlags]
        eqn:Ea;
      bind_inv Hr; destruct a as [[v0 l0] tr0];
      pose proof (Hrec _ _ _ _ _ _ _ _ Hr0) as Hline;
      pose proof (ends_line_finite Hfin Hline) as Hq;
      assert (Hfirst : leads (Z.to_nat (depth - 1)) _ board flags m0 v0 l0)
        by (unfold leads; rewrite Ea; split;
            [apply Hin; left; reflexivity | assumption]).
    + rewrite (finite_below_PosInf Hq) in Hr.
      destruct (py_le (py_min beta v0) alpha).
      * injection Hr as <- <- <- <-. assumption.
      * eapply alphabeta_min_loop_line in Hr; eauto.
        intros; apply Hin; right; assumption.
    + rewrite (finite_above_NegInf Hq) in Hr.
      destruct (py_le beta (py_max alpha v0)).
      * injection Hr as <- <- <- <-. assumption.
      * eapply alphabeta_max_loop_line in Hr; eauto.
        intros; apply Hin; right; assumption.
Qed.

(** X12. With an evaluation that gives ordinary numbers, the move list that
    [minimax] returns at a depth [d >= 0] is a line of [d] legal moves from
    the position, and the value is the evaluation of the board this line
    ends on. *)
Theorem minimax_line_is_played_out (side : bool) (board : Board)
  (flags : Flags) (depth : Z) (v : value) (moveList : list Move)
  (moveTree : MoveTree) :
  finite_scores -> (0 <= depth)%Z ->
  minimax side board flags depth = Return (v, moveList, moveTree) ->
  length moveList = Z.to_nat depth
  /\ legal_line side board flags moveList
  /\ v = evaluate (board_after side board flags moveList).
Proof.
  intros Hfin Hd H. eapply minimax_fuel_line; eassumption.
Qed.

(** X13. With an evaluation that gives ordinary numbers, the move list that
    [alphabeta] returns at a depth [d >= 0], whatever the bounds, is a line
    of [d] legal moves from the position, and the value is the evaluation of
    the board this line ends on. *)
Theorem alphabeta_line_is_played_out (side : bool) (board : Board)
  (flags : Flags) (depth : Z) (alpha beta v : value) (moveList : list Move)
  (moveTree : MoveTree) :
  finite_scores -> (0 <= depth)%Z ->
  alphabeta side board flags depth alpha beta
  = Return (v, moveList, moveTree) ->
  length moveList = Z.to_nat depth
  /\ legal_line side board flags moveList
  /\ v = evaluate (board_after side board flags moveList).
Proof.
  intros Hfin Hd H. eapply alphabeta_fuel_line; eassumption.
Qed.

(** ** The move trees against the tree of the game *)

Lemma set_items_new_key (k : Key) (v : MoveTree)
  (items : list (Key * MoveTree)) :
  ~ In k (map fst items) -> set_items k v items = items ++ [(k, v)].
Proof.
  induction items as [|[k' v'] items IH]; intros Hk; [reflexivity|].
  simpl in Hk |- *.
  destruct (Key_eq_dec k k') as [-> | Hne]; [exfalso; auto|].
  rewrite IH by tauto. reflexivity.
Qed.

Lemma full_tree_S (plies : nat) (side : bool) (board : Board)
  (flags : Flags) :
  full_tree (S plies) side board flags
  = Dict (map (full_item plies side board flags)
              (generateMoves side board flags)).
Proof. reflexivity. Qed.

Lemma fst_full_item (plies : nat) (side : bool) (board : Board)
  (flags : Flags) (move : Move) :
  fst (full_item plies side board flags move) = encodeMove move.
Proof.
  unfold full_item. destruct (applyMove side board flags move) as [[s b] f].
  reflexivity.
Qed.

Lemma keys_full_items (plies : nat) (side : bool) (board : Board)
  (flags : Flags) (moves : list Move) :
  map fst (map (full_item plies side board flags) moves)
  = map encodeMove moves.
Proof.
  rewrite map_map. apply map_ext. intros m. apply fst_full_item.
Qed.

Section OneLevelTree.

Variable plies : nat.
Variables (side : bool) (board : Board) (flags : Flags) (depth : Z).

Ltac tree_step IH Hl Hnd Hrec :=
  simpl in Hl;
  match type of Hl with
  | context [applyMove ?s ?b ?f ?m] =>
      let E := fresh "E" in
      destruct (applyMove s b f m) as [[newSide newBoard] newFlags] eqn:E;
      apply bind_Return in Hl;
      let a := fresh "a" in
      let Hr := fresh "Hr" in
      destruct Hl as (a & Hr & Hl); destruct a as [[v l] tr];
      apply Hrec in Hr; subst tr;
      assert (Hitem : (encodeMove m, full_tree plies newSide newBoard newFlags)
                      = full_item plies s b f m)
        by (unfold full_item; rewrite E; reflexivity)
  end.

Lemma minimax_max_loop_tree
  (recur : bool -> Board -> Flags -> Z -> result SearchResult) :
  (forall s b f v l t,
     recur s b f (depth - 1)%Z = Return (v, l, t) ->
     t = full_tree plies s b f) ->
  forall moves h bm bl t H BM BL T,
    NoDup (keys t ++ map encodeMove moves) ->
    minimax_max_loop recur side board flags depth moves h bm bl t
    = Return (H, BM, BL, T) ->
    T = Dict (items_of t ++ map (full_item plies side board flags) moves).
Proof.
  intros Hrec. induction moves as [|m moves IH];
    intros h bm bl t H BM BL T Hnd Hl.
  - simpl in Hl. injection Hl as <- <- <- <-. rewrite app_nil_r.
    destruct t; reflexivity.
  - tree_step IH Hl Hnd Hrec.
    simpl in Hnd. apply NoDup_app_cons_fresh in Hnd.
    destruct Hnd as [Hfresh Hnd].
    assert (Hset : setitem (encodeMove m)
                     (full_tree plies newSide newBoard newFlags) t
                   = Dict (items_of t ++ [full_item plies side board flags m])).
    { unfold setitem. rewrite set_items_new_key by exact Hfresh.
      rewrite Hitem. reflexivity. }
    rewrite Hset in Hl.
    destruct (py_gt v h); apply IH in Hl;
      try (unfold keys; simpl; rewrite map_app; simpl; rewrite fst_full_item;
           exact Hnd);
      rewrite Hl; simpl; rewrite <- app_assoc; reflexivity.
Qed.

Lemma minimax_min_loop_tree
  (recur : bool -> Board -> Flags -> Z -> result SearchResult) :
  (forall s b f v l t,
     recur s b f (depth - 1)%Z = Return (v, l, t) ->
     t = full_tree plies s b f) ->
  forall moves h bm bl t H BM BL T,
    NoDup (keys t ++ map encodeMove moves) ->
    minimax_min_loop recur side board flags depth moves h bm bl t
    = Return (H, BM, BL, T) ->
    T = Dict (items_of t ++ map (full_item plies side board flags) moves).
Proof.
  intros Hrec. induction moves as [|m moves IH];
    intros h bm bl t H BM BL T Hnd Hl.
  - simpl in Hl. injection Hl as <- <- <- <-. rewrite app_nil_r.
    destruct t; reflexivity.
  - tree_step IH Hl Hnd Hrec.
    simpl in Hnd. apply NoDup_app_cons_fresh in Hnd.
    destruct Hnd as [Hfresh Hnd].
    assert (Hset : setitem (encodeMove m)
                     (full_tree plies newSide newBoard newFlags) t
                   = Dict (items_of t ++ [full_item plies side board flags m])).
    { unfold setitem. rewrite set_items_new_key by exact Hfresh.
      rewrite Hitem. reflexivity. }
    rewrite Hset in Hl.
    destruct (py_lt v h); apply IH in Hl;
      try (unfold keys; simpl; rewrite map_app; simpl; rewrite fst_full_item;
           exact Hnd);
      rewrite Hl; simpl; rewrite <- app_assoc; reflexivity.
Qed.

End OneLevelTree.

Lemma minimax_fuel_tree (Hkeys : keys_unique) (fuel : nat) :
  forall (side : bool) (board : Board) (flags : Flags) (depth : Z)
    (v : value) (l : list Move) (t : MoveTree),
    (0 <= depth)%Z ->
    minimax_fuel fuel side board flags depth = Return (v, l, t) ->
    t = full_tree (Z.to_nat depth) side board flags.
Proof.
  induction fuel as [|fuel IH]; intros side board flags depth v l t Hd H;
    [discriminate|].
  destruct (Z.eq_dec depth 0) as [-> | Hd0].
  - rewrite minimax_fuel_depth0 in H. injection H as <- <- <-. reflexivity.
  - rewrite minimax_fuel_unfold in H by assumption.
    assert (Hrec : forall s b f v l t,
              minimax_fuel fuel s b f (depth - 1)%Z = Return (v, l, t) ->
              t = full_tree (Z.to_nat (depth - 1)) s b f).
    { intros. eapply IH; [lia | eassumption]. }
    replace (Z.to_nat depth) with (S (Z.to_nat (depth - 1))) by lia.
    rewrite full_tree_S.
    pose proof (Hkeys side board flags) as Hnd.
    destruct (generateMoves side board flags) as [|m0 moves];
      [discriminate|].
    destruct side; bind_inv H; destruct a as [[[h bm] bl] tm];
      injection H as <- <- <-.
    + eapply minimax_min_loop_tree in Hr; [exact Hr | exact Hrec | exact Hnd].
    + eapply minimax_max_loop_tree in Hr; [exact Hr | exact Hrec | exact Hnd].
Qed.

(** X14. With keys that tell the moves of a position apart, the move tree
    that [minimax] returns at a depth [d >= 0] is the whole tree of the game,
    [d] moves deep. *)
Theorem minimax_tree_is_the_full_tree (side : bool) (board : Board)
  (flags : Flags) (depth : Z) (v : value) (moveList : list Move)
  (moveTree : MoveTree) :
  keys_unique -> (0 <= depth)%Z ->
  minimax side board flags depth = Return (v, moveList, moveTree) ->
  moveTree = full_tree (Z.to_nat depth) side board flags.
Proof.
  intros Hkeys Hd H. eapply minimax_fuel_tree; eassumption.
Qed.


Lemma item_cut_of_keys (items items' : list (Key * MoveTree)) :
  Forall2 item_cut_of items items' -> map fst items = map fst items'.
Proof.
  induction 1 as [|a b items items' [Hk _] _ IH]; simpl; congruence.
Qed.

Lemma NoDup_map_app_cons (A B : Type) (f : A -> B) (l r : list A) (x : A) :
  NoDup (map f (l ++ x :: r)) -> ~ In (f x) (map f l).
Proof.
  rewrite map_app. simpl. intros H. apply NoDup_remove_2 in H.
  intro Hin. apply H. apply in_or_app. auto.
Qed.

Section OneLevelCut.

Variable plies : nat.
Variables (side : bool) (board : Board) (flags : Flags) (depth : Z).
Variable recur : bool -> Board -> Flags -> Z -> value -> value ->
                 result SearchResult.
Hypothesis below :
  forall s b f alpha beta v l t,
    recur s b f (depth - 1)%Z alpha beta = Return (v, l, t) ->
    cut_of t (full_tree plies s b f).

(** The tree after one more move: the items so far and the item of the
    move, cut short. *)
Lemma setitem_cut (done : list Move) (m : Move) (rest : list Move)
  (t tr : MoveTree) (v : value) (l : list Move) (alpha beta : value) :
  NoDup (map encodeMove (done ++ m :: rest)) ->
  Forall2 item_cut_of (items_of t)
    (map (full_item plies side board flags) done) ->
  (let '(newSide, newBoard, newFlags) := applyMove side board flags m in
   recur newSide newBoard newFlags (depth - 1)%Z alpha beta)
  = Return (v, l, tr) ->
  Forall2 item_cut_of (items_of (setitem (encodeMove m) tr t))
    (map (full_item plies side board flags) (done ++ [m])).
Proof.
  intros Hnd Hcut Hr. unfold setitem. simpl.
  rewrite set_items_new_key.
  - rewrite map_app. apply Forall2_app; [assumption|]. simpl.
    constructor; [|constructor]. unfold item_cut_of, full_item.
    destruct (applyMove side board flags m) as [[s b] f]. simpl.
    split; [reflexivity|]. eapply below. eassumption.
  - rewrite (item_cut_of_keys Hcut), keys_full_items.
    eapply NoDup_map_app_cons. eassumption.
Qed.

Ltac cut_step IH Hl Hnd Hcut :=
  let Hset := fresh "Hset" in
  simpl in Hl;
  match type of Hl with
  | context [applyMove ?s ?b ?f ?m] =>
      let E := fresh "E" in
      destruct (applyMove s b f m) as [[newSide newBoard] newFlags] eqn:E;
      apply bind_Return in Hl;
      let a := fresh "a" in
      let Hr := fresh "Hr" in
      destruct Hl as (a & Hr & Hl); destruct a as [[v l] tr];
      epose proof (@setitem_cut _ m _ _ _ _ _ _ _ Hnd Hcut) as Hset;
      rewrite E in Hset; specialize (Hset Hr)
  end;
  repeat match type of Hl with
  | context [if ?c then _ else _] => destruct c
  end; cbv beta iota in Hl;
  first [ injection Hl as <- <- <- <-; do 2 eexists;
          split; [|exact Hset]; rewrite <- app_assoc; reflexivity
        | eapply IH in Hl; [ | | exact Hset];
          [ rewrite <- app_assoc in Hl; exact Hl
          | rewrite <- app_assoc; exact Hnd ] ].

Lemma alphabeta_max_loop_cut (moves : list Move) :
  forall done alpha beta h bm bl t H BM BL T,
    NoDup (map encodeMove (done ++ moves)) ->
    Forall2 item_cut_of (items_of t)
      (map (full_item plies side board flags) done) ->
    alphabeta_max_loop recur side board flags depth moves alpha beta h bm bl t
    = Return (H, BM, BL, T) ->
    exists done' rest,
      done ++ moves = done' ++ rest
      /\ Forall2 item_cut_of (items_of T)
           (map (full_item plies side board flags) done').
Proof.
  induction moves as [|m moves IH];
    intros done alpha beta h bm bl t H BM BL T Hnd Hcut Hl.
  - simpl in Hl. injection Hl as <- <- <- <-. exists done, []. auto.
  - cut_step IH Hl Hnd Hcut.
Qed.

Lemma alphabeta_min_loop_cut (moves : list Move) :
  forall done alpha beta h bm bl t H BM BL T,
    NoDup (map encodeMove (done ++ moves)) ->
    Forall2 item_cut_of (items_of t)
      (map (full_item plies side board flags) done) ->
    alphabeta_min_loop recur side board flags depth moves alpha beta h bm bl t
    = Return (H, BM, BL, T) ->
    exists done' rest,
      done ++ moves = done' ++ rest
      /\ Forall2 item_cut_of (items_of T)
           (map (full_item plies side board flags) done').
Proof.
  induction moves as [|m moves IH];
    intros done alpha beta h bm bl t H BM BL T Hnd Hcut Hl.
  - simpl in Hl. injection Hl as <- <- <- <-. exists done, []. auto.
  - cut_step IH Hl Hnd Hcut.
Qed.

End OneLevelCut.

Lemma alphabeta_fuel_cut (Hkeys : keys_unique) (fuel : nat) :
  forall (side : bool) (board : Board) (flags : Flags) (depth : Z)
    (alpha beta v : value) (l : list Move) (t : MoveTree),
    (0 <= depth)%Z ->
    alphabeta_fuel fuel side board flags depth alpha beta = Return (v, l, t) ->
    cut_of t (full_tree (Z.to_nat depth) side board flags).
Proof.
  induction fuel as [|fuel IH];
    intros side board flags depth alpha beta v l t Hd H; [discriminate|].
  destruct (Z.eq_dec depth 0) as [-> | Hd0].
  - rewrite alphabeta_fuel_depth0 in H. injection H as <- <- <-.
    apply (cut_of_Dict (items := []) (items' := []) []). constructor.
  - rewrite alphabeta_fuel_unfold in H by assumption.
    assert (Hrec : forall s b f alpha beta v l t,
              alphabeta_fuel fuel s b f (depth - 1)%Z alpha beta
              = Return (v, l, t) ->
              cut_of t (full_tree (Z.to_nat (depth - 1)) s b f)).
    { intros. eapply IH; [lia | eassumption]. }
    replace (Z.to_nat depth) with (S (Z.to_nat (depth - 1))) by lia.
    rewrite full_tree_S.
    pose proof (Hkeys side board flags) as Hnd.
    destruct (generateMoves side board flags) as [|m0 moves];
      [discriminate|].
    destruct side; bind_inv H; destruct a as [[[h bm] bl] tm];
      injection H as <- <- <-;
      [ eapply alphabeta_min_loop_cut with (done := []) in Hr
      | eapply alphabeta_max_loop_cut with (done := []) in Hr ];
      try exact Hrec; try exact Hnd; try (simpl; constructor);
      destruct Hr as (done' & rest & Hsplit & Hcut);
      simpl in Hsplit; rewrite Hsplit, map_app;
      destruct tm as [items]; constructor; exact Hcut.
Qed.

(** X15. With keys that tell the moves of a position apart, the move tree
    that [alphabeta] returns at a depth [d >= 0], whatever the bounds, is the
    whole tree of the game cut short: at every level the first moves, in
    generation order. *)
Theorem alphabeta_tree_is_cut_from_the_full_tree (side : bool)
  (board : Board) (flags : Flags) (depth : Z) (alpha beta v : value)
  (moveList : list Move) (moveTree : MoveTree) :
  keys_unique -> (0 <= depth)%Z ->
  alphabeta side board flags depth alpha beta
  = Return (v, moveList, moveTree) ->
  cut_of moveTree (full_tree (Z.to_nat depth) side board flags).
Proof.
  intros Hkeys Hd H. eapply alphabeta_fuel_cut; eassumption.
Qed.

(** ** [alphabeta] on a closed window *)

(** X16. Called at a depth [d >= 1] with [beta <= alpha], [alphabeta] looks
    at the first generated move only: it returns the value of the recursive
    call on this move, a move list headed by the move, and a move tree with
    the key of this move alone. *)
Theorem alphabeta_closed_window_stops_at_first_move (side : bool)
  (board : Board) (flags : Flags) (depth : Z) (alpha beta h : value)
  (moveList : list Move) (moveTree : MoveTree) :
  (1 <= depth)%Z -> beta <=v alpha ->
  alphabeta side board flags depth alpha beta
  = Return (h, moveList, moveTree) ->
  exists move rest bestList moveTree_d1,
    generateMoves side board flags = move :: rest
    /\ (let '(newSide, newBoard, newFlags) :=
          applyMove side board flags move in
        alphabeta newSide newBoard newFlags (depth - 1) alpha beta
        = Return (h, bestList, moveTree_d1))
    /\ (moveList = move :: bestList
        \/ moveList = [move] /\ h = if side then PosInf else NegInf)
    /\ moveTree = Dict [(encodeMove move, moveTree_d1)].
Proof.
  intros Hd Hba H. unfold alphabeta in *.
  replace (Z.to_nat depth) with (S (Z.to_nat (depth - 1))) in H by lia.
  rewrite alphabeta_fuel_unfold in H by lia.
  destruct (generateMoves side board flags) as [|m0 moves]; [discriminate|].
  exists m0, moves.
  destruct side; bind_inv H; destruct a as [[[h1 bm] bl] tm];
    injection H as <- <- <-; simpl in Hr;
    destruct (applyMove _ board flags m0) as [[newSide newBoard] newFlags];
    bind_inv Hr; destruct a as [[v0 l0] tr0]; exists l0, tr0.
  - destruct (py_lt v0 PosInf) eqn:E;
      destruct (py_min_cases beta PosInf) as [[? Hmin] | [? Hmin]];
      destruct (py_min_cases beta v0) as [[? Hmin'] | [? Hmin']];
      rewrite ?Hmin, ?Hmin' in Hr;
      match type of Hr with
      | (if ?c then _ else _) = _ => destruct c eqn:Ec
      end; try (exfalso; vorder);
      injection Hr as <- <- <- <-;
      try (assert (v0 = PosInf) as -> by vorder);
      repeat split; auto.
  - destruct (py_gt v0 NegInf) eqn:E;
      destruct (py_max_cases alpha NegInf) as [[? Hmax] | [? Hmax]];
      destruct (py_max_cases alpha v0) as [[? Hmax'] | [? Hmax']];
      rewrite ?Hmax, ?Hmax' in Hr;
      match type of Hr with
      | (if ?c then _ else _) = _ => destruct c eqn:Ec
      end; try (exfalso; vorder);
      injection Hr as <- <- <- <-;
      try (assert (v0 = NegInf) as -> by vorder);
      repeat split; auto.
Qed.

(** ** The move tree of [stochastic] *)

Lemma lookup_None (k : Key) (items : list (Key * MoveTree)) :
  lookup k items = None <-> ~ In k (map fst items).
Proof.
  induction items as [|[k' v'] items IH]; simpl.
  - tauto.
  - destruct (Key_eq_dec k k') as [-> | Hne].
    + split; [discriminate | intros H; exfalso; auto].
    + rewrite IH. split; [intros H [H1 | H1]; auto | tauto].
Qed.

Lemma set_items_keys_present (k : Key) (v : MoveTree)
  (items : list (Key * MoveTree)) :
  In k (map fst items) -> map fst (set_items k v items) = map fst items.
Proof.
  induction items as [|[k' v'] items IH]; simpl; [tauto|].
  intros Hin. destruct (Key_eq_dec k k') as [-> | Hne]; [reflexivity|].
  simpl. f_equal. apply IH. destruct Hin; [congruence | assumption].
Qed.

Lemma set_items_same (k : Key) (v : MoveTree)
  (items : list (Key * MoveTree)) :
  lookup k items = Some v -> set_items k v items = items.
Proof.
  induction items as [|[k' v'] items IH]; simpl; [discriminate|].
  destruct (Key_eq_dec k k') as [-> | Hne].
  - intros H. injection H as ->. reflexivity.
  - intros H. rewrite IH by assumption. reflexivity.
Qed.

(** Both branches of the merge store under the key of the move: the keys
    of the tree gain this key, last, when it is new. *)
Lemma merge_sample_keys (k : Key) (sample t : MoveTree) :
  keys (merge_sample k sample t)
  = if in_dec Key_eq_dec k (keys t) then keys t else keys t ++ [k].
Proof.
  assert (H : keys (merge_sample k sample t)
              = keys (setitem k sample t)).
  { unfold merge_sample.
    destruct (lookup k (items_of t)) as [entry|] eqn:E; [|reflexivity].
    unfold keys, setitem. simpl.
    assert (Hin : In k (map fst (items_of t))).
    { destruct (in_dec Key_eq_dec k (map fst (items_of t))) as [Hin | Hout];
        [assumption|]. apply lookup_None in Hout. congruence. }
    rewrite !set_items_keys_present by assumption. reflexivity. }
  rewrite H. unfold keys, setitem. simpl.
  destruct (in_dec Key_eq_dec k (map fst (items_of t))) as [Hin | Hout].
  - apply set_items_keys_present. assumption.
  - apply set_items_fresh. assumption.
Qed.

Lemma merge_sample_keys_present (k : Key) (sample t : MoveTree) :
  In k (keys t) -> keys (merge_sample k sample t) = keys t.
Proof.
  intros Hin. rewrite merge_sample_keys.
  destruct (in_dec Key_eq_dec k (keys t)); [reflexivity | contradiction].
Qed.

Lemma merge_sample_keys_new (k : Key) (sample t : MoveTree) :
  ~ In k (keys t) -> keys (merge_sample k sample t) = keys t ++ [k].
Proof.
  intros Hout. rewrite merge_sample_keys.
  destruct (in_dec Key_eq_dec k (keys t)); [contradiction | reflexivity].
Qed.

Section Sampling.

Variable CS : Type.
Variable chooser : list Move -> CS -> result (Move * CS).

Lemma sample_loop_keys_present
  (helper : CS -> result (value * MoveTree * CS)) (n : nat) (k : Key) :
  forall sum t cs sum' t' cs',
    In k (keys t) ->
    sample_loop helper n k sum t cs = Return (sum', t', cs') ->
    keys t' = keys t.
Proof.
  induction n as [|n IH]; intros sum t cs sum' t' cs' Hin H; simpl in H.
  - injection H as <- <- <-. reflexivity.
  - bind_inv H. destruct a as [[v s] cs1].
    apply IH in H.
    + rewrite H. apply merge_sample_keys_present. assumption.
    + rewrite merge_sample_keys_present; assumption.
Qed.

Lemma sample_loop_keys
  (helper : CS -> result (value * MoveTree * CS)) (n : nat) (k : Key) :
  forall sum t cs sum' t' cs',
    ~ In k (keys t) ->
    sample_loop helper (S n) k sum t cs = Return (sum', t', cs') ->
    keys t' = keys t ++ [k].
Proof.
  intros sum t cs sum' t' cs' Hout H. simpl in H.
  bind_inv H. destruct a as [[v s] cs1].
  apply sample_loop_keys_present in H.
  - rewrite H. apply merge_sample_keys_new. assumption.
  - rewrite merge_sample_keys_new by assumption.
    apply in_or_app. right. left. reflexivity.
Qed.

Lemma sample_move_keys (fuel : nat) (side : bool) (board : Board)
  (flags : Flags) (depth breadth : Z) (move : Move) (t t' : MoveTree)
  (cs cs' : CS) (average : value) :
  (1 <= breadth)%Z -> ~ In (encodeMove move) (keys t) ->
  sample_move chooser fuel side board flags depth breadth move t cs
  = Return (average, t', cs') ->
  keys t' = keys t ++ [encodeMove move].
Proof.
  intros Hb Hout H. unfold sample_move in H.
  destruct (applyMove side board flags move) as [[newSide newBoard] newFlags].
  bind_inv H. destruct a as [[sum t1] cs1].
  bind_inv H. injection H as <- <- <-.
  destruct (Z.to_nat breadth) as [|n] eqn:En; [lia|].
  eapply sample_loop_keys; eassumption.
Qed.

Ltac keys_step IH H Hb Hnd :=
  simpl in H;
  apply bind_Return in H;
  let a := fresh "a" in
  let Hr := fresh "Hr" in
  destruct H as (a & Hr & H); destruct a as [[average t1] cs1];
  simpl in Hnd; apply NoDup_app_cons_fresh in Hnd;
  let Hfresh := fresh "Hfresh" in
  destruct Hnd as [Hfresh Hnd];
  eapply sample_move_keys in Hr; [ | exact Hb | exact Hfresh ];
  rewrite <- Hr in Hnd;
  match type of H with
  | (if ?c then _ else _) = _ => destruct c
  end;
  apply IH in H; try exact Hnd;
  rewrite H, Hr, <- app_assoc; reflexivity.

Lemma stochastic_max_loop_keys (fuel : nat) (side : bool) (board : Board)
  (flags : Flags) (depth breadth : Z) (moves : list Move) :
  (1 <= breadth)%Z ->
  forall h bm t cs H BM T cs',
    NoDup (keys t ++ map encodeMove moves) ->
    stochastic_max_loop chooser fuel side board flags depth breadth moves
      h bm t cs = Return (H, BM, T, cs') ->
    keys T = keys t ++ map encodeMove moves.
Proof.
  intros Hb. induction moves as [|m moves IH];
    intros h bm t cs H BM T cs' Hnd Hl.
  - simpl in Hl. injection Hl as <- <- <- <-. rewrite app_nil_r. reflexivity.
  - keys_step IH Hl Hb Hnd.
Qed.

Lemma stochastic_min_loop_keys (fuel : nat) (side : bool) (board : Board)
  (flags : Flags) (depth breadth : Z) (moves : list Move) :
  (1 <= breadth)%Z ->
  forall h bm t cs H BM T cs',
    NoDup (keys t ++ map encodeMove moves) ->
    stochastic_min_loop chooser fuel side board flags depth breadth moves
      h bm t cs = Return (H, BM, T, cs') ->
    keys T = keys t ++ map encodeMove moves.
Proof.
  intros Hb. induction moves as [|m moves IH];
    intros h bm t cs H BM T cs' Hnd Hl.
  - simpl in Hl. injection Hl as <- <- <- <-. rewrite app_nil_r. reflexivity.
  - keys_step IH Hl Hb Hnd.
Qed.

End Sampling.

(** X17. With [breadth >= 1] and keys that tell the moves apart, the keys of
    the move tree that [stochastic] returns are the keys of the generated
    moves, in generation order. *)
Theorem stochastic_tree_has_a_key_for_every_move (CS : Type)
  (chooser : list Move -> CS -> result (Move * CS)) (side : bool)
  (board : Board) (flags : Flags) (depth breadth : Z) (cs cs' : CS)
  (h : value) (moveList : list Move) (moveTree : MoveTree) :
  keys_unique -> (1 <= breadth)%Z ->
  stochastic chooser side board flags depth breadth cs
  = Return ((h, moveList, moveTree), cs') ->
  keys moveTree = map encodeMove (generateMoves side board flags).
Proof.
  intros Hkeys Hb H. unfold stochastic, stochastic_fuel in H.
  pose proof (Hkeys side board flags) as Hnd.
  destruct (generateMoves side board flags) as [|m0 moves]; [discriminate|].
  destruct side; bind_inv H; destruct a as [[[h1 bm] t1] cs1];
    injection H as <- <- <- <-.
  - eapply stochastic_min_loop_keys in Hr; [exact Hr | assumption | exact Hnd].
  - eapply stochastic_max_loop_keys in Hr; [exact Hr | assumption | exact Hnd].
Qed.

(** ** [stochastic] one ply deep *)

Lemma update_empty (entry : MoveTree) : update entry empty = entry.
Proof. reflexivity. Qed.

Lemma merge_empty_sample_present (k : Key) (t : MoveTree) :
  In k (keys t) -> merge_sample k empty t = t.
Proof.
  intros Hin. unfold merge_sample.
  destruct (lookup k (items_of t)) as [entry|] eqn:E.
  - rewrite update_empty. unfold setitem. rewrite set_items_same by assumption.
    destruct t; reflexivity.
  - apply lookup_None in E. contradiction.
Qed.

Lemma merge_empty_sample_new (k : Key) (t : MoveTree) :
  ~ In k (keys t) ->
  merge_sample k empty t = Dict (items_of t ++ [(k, empty)]).
Proof.
  intros Hout. unfold merge_sample.
  destruct (lookup k (items_of t)) as [entry|] eqn:E.
  - exfalso. apply lookup_None in Hout. unfold keys in *. congruence.
  - unfold setitem. rewrite set_items_new_key by assumption. reflexivity.
Qed.

Section OnePly.

Variable CS : Type.
Variable chooser : list Move -> CS -> result (Move * CS).

Lemma sample_loop_leaf_present
  (helper : CS -> result (value * MoveTree * CS)) (v : value) (k : Key) :
  (forall cs, helper cs = Return (v, empty, cs)) ->
  forall n sum t cs,
    In k (keys t) ->
    exists sum', sample_loop helper n k sum t cs = Return (sum', t, cs).
Proof.
  intros Hh. induction n as [|n IH]; intros sum t cs Hin; simpl.
  - eauto.
  - rewrite Hh. simpl. rewrite merge_empty_sample_present by assumption.
    apply IH. assumption.
Qed.

Lemma sample_loop_leaf_new
  (helper : CS -> result (value * MoveTree * CS)) (v : value) (k : Key) :
  (forall cs, helper cs = Return (v, empty, cs)) ->
  forall n sum t cs,
    ~ In k (keys t) ->
    exists sum',
      sample_loop helper (S n) k sum t cs
      = Return (sum', Dict (items_of t ++ [(k, empty)]), cs).
Proof.
  intros Hh n sum t cs Hout. simpl. rewrite Hh. simpl.
  rewrite merge_empty_sample_new by assumption.
  apply sample_loop_leaf_present with (v := v); [assumption|].
  unfold keys. simpl. rewrite map_app. apply in_or_app. right. left.
  reflexivity.
Qed.

Lemma sample_move_one_ply (side : bool) (board : Board) (flags : Flags)
  (breadth : Z) (move : Move) (t : MoveTree) (cs : CS) :
  (1 <= breadth)%Z -> ~ In (encodeMove move) (keys t) ->
  exists average,
    sample_move chooser 1 side board flags 1 breadth move t cs
    = Return (average,
              Dict (items_of t ++ [full_item 0 side board flags move]), cs).
Proof.
  intros Hb Hout. unfold sample_move, full_item.
  destruct (applyMove side board flags move) as [[newSide newBoard] newFlags].
  destruct (Z.to_nat breadth) as [|n] eqn:En; [lia|].
  destruct (@sample_loop_leaf_new
              (stochasticHelper_fuel chooser 1 newSide newBoard newFlags
                 (1 - 1)%Z)
              (evaluate newBoard) (encodeMove move)
              (fun cs => eq_refl) n (Num 0%Qc) t cs Hout) as (sum' & ->).
  simpl. unfold truediv.
  destruct (breadth =? 0)%Z eqn:E; [apply Z.eqb_eq in E; lia|].
  simpl. eauto.
Qed.

Ltac one_ply_step IH Hb Hnd :=
  simpl in Hnd |- *; apply NoDup_app_cons_fresh in Hnd;
  let Hfresh := fresh "Hfresh" in
  destruct Hnd as [Hfresh Hnd];
  match goal with
  | |- context [sample_move _ _ ?s ?b ?f _ ?br ?m ?t ?cs] =>
      let average := fresh "average" in
      let E := fresh "E" in
      destruct (@sample_move_one_ply s b f br m t cs Hb Hfresh)
        as (average & E);
      rewrite E; simpl
  end;
  match goal with
  | |- context [if ?c then _ else _] => destruct c
  end;
  match goal with
  | |- context [Dict (?items ++ ?item :: map ?g ?rest)] =>
      replace (items ++ item :: map g rest)
        with ((items ++ [item]) ++ map g rest)
        by (rewrite <- app_assoc; reflexivity)
  end;
  apply (IH _ _ (Dict _));
  unfold keys; simpl; rewrite map_app; simpl; rewrite fst_full_item;
  exact Hnd.

Lemma stochastic_max_loop_one_ply (side : bool) (board : Board)
  (flags : Flags) (breadth : Z) (moves : list Move) :
  (1 <= breadth)%Z ->
  forall h bm t cs,
    NoDup (keys t ++ map encodeMove moves) ->
    exists H BM,
      stochastic_max_loop chooser 1 side board flags 1 breadth moves h bm t cs
      = Return (H, BM,
                Dict (items_of t ++ map (full_item 0 side board flags) moves),
                cs).
Proof.
  intros Hb. induction moves as [|m moves IH]; intros h bm t cs Hnd.
  - simpl. rewrite app_nil_r. destruct t. simpl. eauto.
  - one_ply_step IH Hb Hnd.
Qed.

Lemma stochastic_min_loop_one_ply (side : bool) (board : Board)
  (flags : Flags) (breadth : Z) (moves : list Move) :
  (1 <= breadth)%Z ->
  forall h bm t cs,
    NoDup (keys t ++ map encodeMove moves) ->
    exists H BM,
      stochastic_min_loop chooser 1 side board flags 1 breadth moves h bm t cs
      = Return (H, BM,
                Dict (items_of t ++ map (full_item 0 side board flags) moves),
                cs).
Proof.
  intros Hb. induction moves as [|m moves IH]; intros h bm t cs Hnd.
  - simpl. rewrite app_nil_r. destruct t. simpl. eauto.
  - one_ply_step IH Hb Hnd.
Qed.

End OnePly.

(** X18. At depth 1, with [breadth >= 1] and keys that tell the moves
    apart, [stochastic] on a position with a move returns without a call of
    the chooser: the state of the chooser comes back as it went, and the
    move tree has the key of every generated move, over [{}]. *)
Theorem stochastic_one_ply_leaves_the_chooser (CS : Type)
  (chooser : list Move -> CS -> result (Move * CS)) (side : bool)
  (board : Board) (flags : Flags) (breadth : Z) (cs : CS) :
  keys_unique -> (1 <= breadth)%Z ->
  generateMoves side board flags <> [] ->
  exists h move,
    stochastic chooser side board flags 1 breadth cs
    = Return ((h, [move], full_tree 1 side board flags), cs).
Proof.
  intros Hkeys Hb Hm. unfold stochastic, stochastic_fuel.
  rewrite full_tree_S.
  pose proof (Hkeys side board flags) as Hnd.
  destruct (generateMoves side board flags) as [|m0 moves]; [congruence|].
  change (Z.to_nat 1) with 1.
  destruct side.
  - destruct (@stochastic_min_loop_one_ply CS chooser true board flags breadth
                (m0 :: moves) Hb PosInf m0 empty cs Hnd) as (H & BM & ->).
    simpl. eauto.
  - destruct (@stochastic_max_loop_one_ply CS chooser false board flags breadth
                (m0 :: moves) Hb NegInf m0 empty cs Hnd) as (H & BM & ->).
    simpl. eauto.
Qed.

(** ** What the merge of the samples keeps *)

Lemma setitem_keys_In (k k' : Key) (v d : MoveTree) :
  In k' (keys (setitem k v d)) <-> k' = k \/ In k' (keys d).
Proof.
  unfold keys, setitem. simpl.
  destruct (in_dec Key_eq_dec k (map fst (items_of d))) as [Hin | Hout].
  - rewrite set_items_keys_present by assumption.
    split; [auto | intros [-> | H]; assumption].
  - destruct (set_items_fresh k v (items_of d) Hout) as [-> _].
    rewrite in_app_iff. simpl. split.
    + intros [H | [H | []]]; auto.
    + intros [-> | H]; auto.
Qed.

Lemma fold_setitem_keys_In (k : Key) (other : list (Key * MoveTree)) :
  forall d,
    In k (keys (fold_left (fun acc kv => setitem (fst kv) (snd kv) acc)
                  other d))
    <-> In k (keys d) \/ In k (map fst other).
Proof.
  induction other as [|[k' v'] other IH]; intros d; simpl.
  - tauto.
  - rewrite IH, setitem_keys_In. simpl. split.
    + intros [[-> | H] | H]; auto.
    + intros [H | [<- | H]]; auto.
Qed.

Lemma update_keys_In (k : Key) (d other : MoveTree) :
  In k (keys (update d other)) <-> In k (keys d) \/ In k (keys other).
Proof. unfold update. apply fold_setitem_keys_In. Qed.

Lemma lookup_merge_sample (k : Key) (sample t : MoveTree) :
  lookup k (items_of (merge_sample k sample t))
  = Some match lookup k (items_of t) with
         | Some entry => update entry sample
         | None => sample
         end.
Proof.
  unfold merge_sample.
  destruct (lookup k (items_of t)); unfold setitem; simpl;
    rewrite lookup_set_items; destruct (Key_eq_dec k k); congruence.
Qed.

Lemma lookup_merge_sample_other (k k' : Key) (sample t : MoveTree) :
  k' <> k ->
  lookup k' (items_of (merge_sample k sample t)) = lookup k' (items_of t).
Proof.
  intros Hne. unfold merge_sample.
  destruct (lookup k (items_of t)); unfold setitem; simpl;
    rewrite lookup_set_items; destruct (Key_eq_dec k' k); congruence.
Qed.

Lemma merged_snoc (acc : list MoveTree) (sample : MoveTree) :
  acc <> [] -> merged (acc ++ [sample]) = update (merged acc) sample.
Proof.
  destruct acc as [|s rest]; [congruence|]. intros _. simpl.
  rewrite fold_left_app. reflexivity.
Qed.

Lemma merged_keys (samples : list MoveTree) :
  holds_keys_of (merged samples) samples.
Proof.
  induction samples as [|sample acc IH] using rev_ind; intros k.
  - simpl. split; [intros [] | intros (s & [] & _)].
  - destruct acc as [|s rest].
    + simpl. split.
      * intros Hk. exists sample. auto.
      * intros (s & [<- | []] & Hk). assumption.
    + rewrite merged_snoc by discriminate.
      rewrite update_keys_In, (IH k). split.
      * intros [(s' & Hs & Hk) | Hk].
        -- exists s'. split; [apply in_or_app; auto | assumption].
        -- exists sample. split; [apply in_or_app; simpl; auto | assumption].
      * intros (s' & Hs & Hk). apply in_app_or in Hs.
        destruct Hs as [Hs | [<- | []]]; [left; eauto | right; assumption].
Qed.

Lemma entry_after_merge (k : Key) (t sample : MoveTree)
  (acc : list MoveTree) :
  entry_after k t acc ->
  entry_after k (merge_sample k sample t) (acc ++ [sample]).
Proof.
  unfold entry_after. rewrite lookup_merge_sample.
  destruct (lookup k (items_of t)) as [entry|].
  - intros [Hne ->]. split.
    + destruct acc; discriminate.
    + symmetry. apply merged_snoc. assumption.
  - intros ->. split; [discriminate | reflexivity].
Qed.

Section Merging.

Variable CS : Type.
Variable chooser : list Move -> CS -> result (Move * CS).

Lemma sample_loop_entry
  (helper : CS -> result (value * MoveTree * CS)) (n : nat) (k : Key) :
  forall sum t cs sum' t' cs' acc,
    entry_after k t acc ->
    sample_loop helper n k sum t cs = Return (sum', t', cs') ->
    exists more,
      length more = n
      /\ drawn helper cs more cs'
      /\ entry_after k t' (acc ++ map snd more).
Proof.
  induction n as [|n IH]; intros sum t cs sum' t' cs' acc Hacc H; simpl in H.
  - injection H as <- <- <-. exists []. simpl. rewrite app_nil_r.
    repeat split. assumption.
  - bind_inv H. destruct a as [[v s] cs1].
    eapply IH in H; [|apply entry_after_merge; eassumption].
    destruct H as (more & Hlen & Hd & Hent).
    exists ((v, s) :: more). simpl. rewrite <- app_assoc in Hent.
    repeat split; [congruence | eauto | assumption].
Qed.

Lemma sample_loop_other_keys
  (helper : CS -> result (value * MoveTree * CS)) (n : nat) (k k' : Key) :
  k' <> k ->
  forall sum t cs sum' t' cs',
    sample_loop helper n k sum t cs = Return (sum', t', cs') ->
    lookup k' (items_of t') = lookup k' (items_of t).
Proof.
  intros Hne. induction n as [|n IH]; intros sum t cs sum' t' cs' H;
    simpl in H.
  - injection H as <- <- <-. reflexivity.
  - bind_inv H. destruct a as [[v s] cs1]. apply IH in H.
    rewrite H. apply lookup_merge_sample_other. assumption.
Qed.

Variables (fuel : nat) (side : bool) (board : Board) (flags : Flags).
Variables (depth breadth : Z).

Lemma sample_move_entry (move : Move) (t t' : MoveTree) (cs cs' : CS)
  (average : value) :
  (1 <= breadth)%Z -> ~ In (encodeMove move) (keys t) ->
  sample_move chooser fuel side board flags depth breadth move t cs
  = Return (average, t', cs') ->
  exists samples,
    samples_of chooser fuel side board flags depth breadth move cs samples cs'
    /\ lookup (encodeMove move) (items_of t')
       = Some (merged (map snd samples))
    /\ forall k, k <> encodeMove move ->
                 lookup k (items_of t') = lookup k (items_of t).
Proof.
  intros Hb Hout H. unfold sample_move in H. unfold samples_of.
  destruct (applyMove side board flags move) as [[newSide newBoard] newFlags].
  bind_inv H. destruct a as [[sum t1] cs1].
  bind_inv H. injection H as <- <- <-.
  pose proof Hr as Hent.
  eapply sample_loop_entry with (acc := []) in Hent.
  - destruct Hent as (samples & Hlen & Hd & Hent). simpl in Hent.
    exists samples. split; [auto|]. split.
    + unfold entry_after in Hent.
      destruct (lookup (encodeMove move) (items_of t1)) as [entry|].
      * destruct Hent as [_ ->]. reflexivity.
      * apply map_eq_nil in Hent. subst samples. simpl in Hlen. lia.
    + intros k Hne. eapply sample_loop_other_keys; eassumption.
  - unfold entry_after. apply lookup_None in Hout. unfold keys in Hout.
    rewrite Hout. reflexivity.
Qed.

(** One more move of the loop on the moves: its entry is new, and the
    entries that are there stay. *)
Ltac kept_step IH Hl Hb Hnd :=
  let a := fresh "a" in
  let Hr := fresh "Hr" in
  let Hk := fresh "Hk" in
  let Hfresh := fresh "Hfresh" in
  let samples := fresh "samples" in
  let Hs := fresh "Hs" in
  let Hentry := fresh "Hentry" in
  let Hother := fresh "Hother" in
  let runs := fresh "runs" in
  let Hrun := fresh "Hrun" in
  let Hrest := fresh "Hrest" in
  let Hold := fresh "Hold" in
  simpl in Hl;
  apply bind_Return in Hl;
  destruct Hl as (a & Hr & Hl); destruct a as [[average t1] cs1];
  simpl in Hnd; apply NoDup_app_cons_fresh in Hnd;
  destruct Hnd as [Hfresh Hnd];
  pose proof Hr as Hk;
  eapply sample_move_keys in Hk; [ | exact Hb | exact Hfresh ];
  apply sample_move_entry in Hr; [ | exact Hb | exact Hfresh ];
  destruct Hr as (samples & Hs & Hentry & Hother);
  rewrite <- Hk in Hnd;
  match type of Hl with
  | (if ?c then _ else _) = _ => destruct c
  end;
  (apply IH in Hl; [ | exact Hnd ]);
  destruct Hl as (runs & Hrun & Hrest & Hold);
  exists (samples :: runs);
  (split; [exists cs1; split; assumption|]);
  (split;
   [ intros [|i] move smp Hm Hsmp; simpl in Hm, Hsmp;
     [ injection Hm as <-; injection Hsmp as <-;
       split; [|apply merged_keys];
       rewrite Hold
         by (rewrite Hk; apply in_or_app; right; left; reflexivity);
       exact Hentry
     | apply (Hrest i); assumption ]
   | intros k Hin; rewrite Hold
       by (rewrite Hk; apply in_or_app; left; assumption);
     apply Hother; intros ->; contradiction ]).

Lemma stochastic_max_loop_kept (moves : list Move) :
  (1 <= breadth)%Z ->
  forall h bm t cs H BM T cs',
    NoDup (keys t ++ map encodeMove moves) ->
    stochastic_max_loop chooser fuel side board flags depth breadth moves
      h bm t cs = Return (H, BM, T, cs') ->
    exists runs,
      sampled_in_turn chooser fuel side board flags depth breadth moves cs
        runs cs'
      /\ samples_kept moves runs T
      /\ (forall k, In k (keys t) ->
            lookup k (items_of T) = lookup k (items_of t)).
Proof.
  intros Hb. induction moves as [|m moves IH];
    intros h bm t cs H BM T cs' Hnd Hl.
  - simpl in Hl. injection Hl as <- <- <- <-. exists [].
    split; [reflexivity|]. split; [|auto].
    intros [|i] move samples Hm; discriminate Hm.
  - kept_step IH Hl Hb Hnd.
Qed.

Lemma stochastic_min_loop_kept (moves : list Move) :
  (1 <= breadth)%Z ->
  forall h bm t cs H BM T cs',
    NoDup (keys t ++ map encodeMove moves) ->
    stochastic_min_loop chooser fuel side board flags depth breadth moves
      h bm t cs = Return (H, BM, T, cs') ->
    exists runs,
      sampled_in_turn chooser fuel side board flags depth breadth moves cs
        runs cs'
      /\ samples_kept moves runs T
      /\ (forall k, In k (keys t) ->
            lookup k (items_of T) = lookup k (items_of t)).
Proof.
  intros Hb. induction moves as [|m moves IH];
    intros h bm t cs H BM T cs' Hnd Hl.
  - simpl in Hl. injection Hl as <- <- <- <-. exists [].
    split; [reflexivity|]. split; [|auto].
    intros [|i] move samples Hm; discriminate Hm.
  - kept_step IH Hl Hb Hnd.
Qed.

End Merging.

(** X19. With [breadth >= 1] and keys that tell the moves apart, the move
    tree that [stochastic] returns holds, under the key of every generated
    move, the samples that the run drew for this move, merged: the first
    sample, updated by each later one in turn.  Its keys are the keys of
    these samples, all of them and no other.  The samples are those of the
    run: each is drawn from the chooser state that the one before it
    left. *)
Theorem stochastic_keeps_the_replies_sampled (CS : Type)
  (chooser : list Move -> CS -> result (Move * CS)) (fuel : nat)
  (side : bool) (board : Board) (flags : Flags) (depth breadth : Z)
  (cs cs' : CS) (h : value) (moveList : list Move) (moveTree : MoveTree) :
  keys_unique -> (1 <= breadth)%Z ->
  stochastic_fuel chooser fuel side board flags depth breadth cs
  = Return ((h, moveList, moveTree), cs') ->
  exists runs,
    sampled_in_turn chooser fuel side board flags depth breadth
      (generateMoves side board flags) cs runs cs'
    /\ samples_kept (generateMoves side board flags) runs moveTree.
Proof.
  intros Hkeys Hb H. unfold stochastic_fuel in H.
  pose proof (Hkeys side board flags) as Hnd.
  destruct (generateMoves side board flags) as [|m0 moves]; [discriminate|].
  destruct side; bind_inv H; destruct a as [[[h1 bm] t1] cs1];
    injection H as <- <- <- <-.
  - eapply stochastic_min_loop_kept in Hr; [ | assumption | exact Hnd ].
    destruct Hr as (runs & Hrun & Hkept & _). eauto.
  - eapply stochastic_max_loop_kept in Hr; [ | assumption | exact Hnd ].
    destruct Hr as (runs & Hrun & Hkept & _). eauto.
Qed.

(** ** Where [stochastic] returns *)

Lemma playable_move (plies : nat) (side : bool) (board : Board)
  (flags : Flags) (move : Move) :
  playable (S plies) side board flags = true ->
  In move (generateMoves side board flags) ->
  let '(newSide, newBoard, newFlags) := applyMove side board flags move in
  playable plies newSide newBoard newFlags = true.
Proof.
  rewrite playable_S. intros Hp Hin.
  destruct (generateMoves side board flags) as [|m0 moves]; [discriminate|].
  unfold moves_playable in Hp. rewrite forallb_forall in Hp.
  specialize (Hp move Hin).
  destruct (applyMove side board flags move) as [[s b] f]. exact Hp.
Qed.

Lemma playable_has_moves (plies : nat) (side : bool) (board : Board)
  (flags : Flags) :
  playable (S plies) side board flags = true ->
  generateMoves side board flags <> [].
Proof.
  rewrite playable_S.
  destruct (generateMoves side board flags); [discriminate | discriminate].
Qed.

Section Returning.

Variable CS : Type.
Variable chooser : list Move -> CS -> result (Move * CS).
Hypothesis picks : picks_from_list chooser.

Lemma stochasticHelper_fuel_returns (fuel : nat) :
  forall (side : bool) (board : Board) (flags : Flags) (depth : Z) (cs : CS),
    (0 <= depth)%Z -> Z.to_nat depth < fuel ->
    playable (Z.to_nat depth) side board flags = true ->
    exists r,
      stochasticHelper_fuel chooser fuel side board flags depth cs = Return r.
Proof.
  induction fuel as [|fuel IH]; intros side board flags depth cs Hd Hf Hp;
    [lia|].
  simpl. destruct (depth =? 0)%Z eqn:E; [eauto|].
  apply Z.eqb_neq in E.
  replace (Z.to_nat depth) with (S (Z.to_nat (depth - 1))) in Hp by lia.
  destruct (picks cs (playable_has_moves _ _ _ _ Hp))
    as (move & cs1 & -> & Hin).
  simpl. pose proof (playable_move _ _ _ _ _ Hp Hin) as Hc.
  destruct (applyMove side board flags move) as [[newSide newBoard] newFlags].
  destruct (IH newSide newBoard newFlags (depth - 1)%Z cs1) as
    ([[v t] cs2] & ->); [lia | lia | assumption |].
  simpl. eauto.
Qed.

Lemma sample_loop_returns (helper : CS -> result (value * MoveTree * CS))
  (k : Key) :
  (forall cs, exists r, helper cs = Return r) ->
  forall n sum t cs,
    exists r, sample_loop helper n k sum t cs = Return r.
Proof.
  intros Hh. induction n as [|n IH]; intros sum t cs; simpl; [eauto|].
  destruct (Hh cs) as ([[v s] cs1] & ->). simpl. apply IH.
Qed.

Variables (side : bool) (board : Board) (flags : Flags) (depth breadth : Z).
Hypothesis deep : (1 <= depth)%Z.
Hypothesis wide : breadth <> 0%Z.
Hypothesis there : playable (Z.to_nat depth) side board flags = true.

Lemma sample_move_returns (move : Move) (t : MoveTree) (cs : CS) :
  In move (generateMoves side board flags) ->
  exists r,
    sample_move chooser (Z.to_nat depth) side board flags depth breadth
      move t cs = Return r.
Proof.
  intros Hin. unfold sample_move.
  pose proof there as Hp.
  replace (Z.to_nat depth) with (S (Z.to_nat (depth - 1))) in Hp by lia.
  pose proof (playable_move _ _ _ _ _ Hp Hin) as Hc.
  destruct (applyMove side board flags move) as [[newSide newBoard] newFlags].
  destruct (@sample_loop_returns
              (stochasticHelper_fuel chooser (Z.to_nat depth) newSide newBoard
                 newFlags (depth - 1)%Z) (encodeMove move))
    with (n := Z.to_nat breadth) (sum := Num 0%Qc) (t := t) (cs := cs)
    as ([[sum t1] cs1] & ->).
  - intros c. apply stochasticHelper_fuel_returns; [lia | lia | assumption].
  - simpl. unfold truediv. apply Z.eqb_neq in wide. rewrite wide. simpl. eauto.
Qed.

Lemma stochastic_max_loop_returns (moves : list Move) :
  (forall m, In m moves -> In m (generateMoves side board flags)) ->
  forall h bm t cs,
    exists r,
      stochastic_max_loop chooser (Z.to_nat depth) side board flags depth
        breadth moves h bm t cs = Return r.
Proof.
  induction moves as [|m moves IH]; intros Hin h bm t cs; simpl; [eauto|].
  destruct (sample_move_returns m t cs) as ([[average t1] cs1] & ->);
    [apply Hin; left; reflexivity|].
  simpl. destruct (py_gt average h); apply IH; intros; apply Hin; right;
    assumption.
Qed.

Lemma stochastic_min_loop_returns (moves : list Move) :
  (forall m, In m moves -> In m (generateMoves side board flags)) ->
  forall h bm t cs,
    exists r,
      stochastic_min_loop chooser (Z.to_nat depth) side board flags depth
        breadth moves h bm t cs = Return r.
Proof.
  induction moves as [|m moves IH]; intros Hin h bm t cs; simpl; [eauto|].
  destruct (sample_move_returns m t cs) as ([[average t1] cs1] & ->);
    [apply Hin; left; reflexivity|].
  simpl. destruct (py_lt average h); apply IH; intros; apply Hin; right;
    assumption.
Qed.

End Returning.

(** X20. With a chooser that picks from the list it is given, [stochastic]
    returns at a depth [d >= 1] and a breadth other than 0 when every
    position reached in fewer than [d] moves has a move. *)
Theorem stochastic_returns_where_playable (CS : Type)
  (chooser : list Move -> CS -> result (Move * CS)) (side : bool)
  (board : Board) (flags : Flags) (depth breadth : Z) (cs : CS) :
  picks_from_list chooser ->
  (1 <= depth)%Z -> breadth <> 0%Z ->
  playable (Z.to_nat depth) side board flags = true ->
  exists r, stochastic chooser side board flags depth breadth cs = Return r.
Proof.
  intros Hc Hd Hb Hp. unfold stochastic, stochastic_fuel.
  pose proof (@stochastic_min_loop_returns CS chooser Hc side board flags
                depth breadth Hd Hb Hp (generateMoves side board flags)
                (fun m H => H)) as Hmin.
  pose proof (@stochastic_max_loop_returns CS chooser Hc side board flags
                depth breadth Hd Hb Hp (generateMoves side board flags)
                (fun m H => H)) as Hmax.
  pose proof Hp as Hm.
  replace (Z.to_nat depth) with (S (Z.to_nat (depth - 1))) in Hm by lia.
  apply playable_has_moves in Hm.
  destruct (generateMoves side board flags) as [|m0 moves]; [congruence|].
  destruct side.
  - destruct (Hmin PosInf m0 empty cs) as ([[[h bm] t] cs1] & ->).
    simpl. eauto.
  - destruct (Hmax NegInf m0 empty cs) as ([[[h bm] t] cs1] & ->).
    simpl. eauto.
Qed.

End GameFacts.

(** * The searches on concrete games *)

(** ** The counting game of the specification *)

(** From [n = 0] at depth 2 the maximizer goes to 1 and the minimizer comes
    back to 0. *)
Example counting_game_depth2 :
  @minimax counting_game false 0%Z tt 2
  = Return (number 0, [step 1; step (-1)],
            counting_dict
              [(1%Z, counting_dict [((-1)%Z, counting_dict [])])])
  /\ @alphabeta counting_game false 0%Z tt 2 NegInf PosInf
     = Return (number 0, [step 1; step (-1)],
               counting_dict
                 [(1%Z, counting_dict [((-1)%Z, counting_dict [])])]).
Proof. split; vm_compute; reflexivity. Qed.

(** C2. On the position [n = 3] of the counting game, where the side
    [false] has no legal move, the three searches called at depth 2 (and
    breadth 2) do not return [(evaluate(board), [], {})]: each of them
    raises [IndexError], at [moves[0]]. *)
Theorem without_moves_the_searches_raise :
  @generateMoves counting_game false 3%Z tt = []
  /\ @minimax counting_game false 3%Z tt 2 = Raise IndexError
  /\ @alphabeta counting_game false 3%Z tt 2 NegInf PosInf = Raise IndexError
  /\ @stochastic counting_game exact_arith (list nat) (@scripted _)
       false 3%Z tt 2 2 [] = Raise IndexError.
Proof. repeat split. Qed.

(** C1. [alphabeta] with its default bounds does not return what [minimax]
    returns on [hidden_fault] at depth 3: the second reply of the root leads,
    one ply further, to a position without a move; [minimax] visits it and
    raises the [IndexError] of [moves[0]], [alphabeta] cuts it off and
    returns the value 5 with its move list. *)
Theorem pruning_hides_the_fault :
  @minimax tree_game false hidden_fault tt 3 = Raise IndexError
  /\ @alphabeta tree_game false hidden_fault tt 3 NegInf PosInf
     = Return (number 5, [reply 1; reply 1; reply 1],
               tree_dict
                 [(1, tree_dict [(1, tree_dict [(1, tree_dict [])])]);
                  (2, tree_dict [(1, tree_dict [(1, tree_dict [])])])]).
Proof. split; vm_compute; reflexivity. Qed.

(** ** A game with two replies everywhere *)

(** The keys of [tree_game] are the numbers of the replies. *)
Lemma tree_game_keys_unique : @keys_unique tree_game.
Proof.
  intros side board flags. unfold generateMoves. simpl.
  rewrite app_nil_r, map_map. simpl. rewrite map_id. apply seq_NoDup.
Qed.

(** The evaluation of [tree_game] is a score of the tree, an integer. *)
Lemma tree_game_finite_scores : @finite_scores tree_game.
Proof. intros board. eexists. reflexivity. Qed.

(** On [two_by_two] at depth 2 [minimax] returns, and so does [alphabeta],
    with the same value and move list. *)
Lemma alphabeta_returns_what_minimax_returns_on_two_by_two :
  (0 <= 2)%Z
  /\ @minimax tree_game false two_by_two tt 2
     = Return (number 5, [reply 1; reply 1],
               tree_dict
                 [(1, tree_dict [(1, tree_dict []); (2, tree_dict [])]);
                  (2, tree_dict [(1, tree_dict []); (2, tree_dict [])])])
  /\ exists moveTree',
       @alphabeta tree_game false two_by_two tt 2 NegInf PosInf
       = Return (number 5, [reply 1; reply 1], moveTree').
Proof.
  split; [lia|]. split; [vm_compute; reflexivity|].
  apply (@alphabeta_returns_what_minimax_returns tree_game false two_by_two
           tt 2 (number 5) [reply 1; reply 1]
           (tree_dict
              [(1, tree_dict [(1, tree_dict []); (2, tree_dict [])]);
               (2, tree_dict [(1, tree_dict []); (2, tree_dict [])])]));
    [lia | vm_compute; reflexivity].
Defined.

(** The tree of [minimax] on [two_by_two] has 6 nodes; the one of
    [alphabeta] has no more. *)
Lemma alphabeta_tree_no_larger_on_two_by_two :
  @keys_unique tree_game
  /\ exists v' moveList' moveTree',
       @alphabeta tree_game false two_by_two tt 2 NegInf PosInf
       = Return (v', moveList', moveTree')
       /\ node_count moveTree' <= 6.
Proof.
  split; [exact tree_game_keys_unique|].
  apply (@alphabeta_tree_no_larger tree_game false two_by_two tt 2
           (number 5) [reply 1; reply 1]
           (tree_dict
              [(1, tree_dict [(1, tree_dict []); (2, tree_dict [])]);
               (2, tree_dict [(1, tree_dict []); (2, tree_dict [])])]));
    [exact tree_game_keys_unique | vm_compute; reflexivity].
Defined.

(** On this game the cut is real: [alphabeta] leaves out the last leaf. *)
Example alphabeta_prunes_two_by_two :
  @alphabeta tree_game false two_by_two tt 2 NegInf PosInf
  = Return (number 5, [reply 1; reply 1],
            tree_dict
              [(1, tree_dict [(1, tree_dict []); (2, tree_dict [])]);
               (2, tree_dict [(1, tree_dict [])])]).
Proof. vm_compute. reflexivity. Qed.

(** The contract on the keys is needed: when two moves of a position share
    a key, [minimax] stores the narrow subtree of the later move over the
    wide one of the earlier move, which is all that [alphabeta] visits. *)
Example clashing_keys_break_the_bound :
  (exists v l t,
     @minimax clashing_game false wide_then_narrow tt 3 = Return (v, l, t)
     /\ node_count t = 3)
  /\ (exists v l t,
       @alphabeta clashing_game false wide_then_narrow tt 3 NegInf PosInf
       = Return (v, l, t)
       /\ node_count t = 5).
Proof.
  split; do 3 eexists; split; try (vm_compute; reflexivity); reflexivity.
Qed.

(** ** Samples that part below a shared reply *)

(** C3. With depth 3 and breadth 2 on [late_fork], a chooser that plays the
    first third-ply move in the first sample and the second in the second
    sample gives two samples with the same second-ply key [1] and different
    third-ply keys [1] and [2].  The returned tree keeps the third-ply key
    of the last sample only: [update] stores the second sample's subtree
    over the first one's, it does not merge them. *)
Theorem later_sample_overwrites_shared_key :
  @stochasticHelper_fuel tree_game (list nat) (@scripted _) 3 true
    (Position 0 [ Position 0 [leaf 1; leaf 2] ]) tt 2 [0; 0; 0; 1]
  = Return (number 1, tree_dict [(1, tree_dict [(1, tree_dict [])])], [0; 1])
  /\ @stochasticHelper_fuel tree_game (list nat) (@scripted _) 3 true
       (Position 0 [ Position 0 [leaf 1; leaf 2] ]) tt 2 [0; 1]
     = Return (number 2, tree_dict [(1, tree_dict [(2, tree_dict [])])], [])
  /\ @stochastic tree_game exact_arith (list nat) (@scripted _)
       false late_fork tt 3 2 [0; 0; 0; 1]
     = Return ((Num (Q2Qc (3 # 2)), [reply 1],
                tree_dict
                  [(1, tree_dict [(1, tree_dict [(2, tree_dict [])])])]),
               []).
Proof. repeat split; vm_compute; reflexivity. Qed.

(** ** Arguments out of range, on [two_by_two] *)

(** No call fails fast on an argument out of range: with [breadth = -1],
    [stochastic] returns; with [depth = -1], [minimax] is still recursing
    after two nested calls and ends in the third, at a leaf, with the
    [IndexError] of [moves[0]]. *)
Lemma arguments_are_not_checked :
  @stochastic tree_game exact_arith (list nat) (@scripted _)
    false two_by_two tt 2 (-1) []
  = Return ((number 0, [reply 1], tree_dict []), [])
  /\ @minimax_fuel tree_game 2 false two_by_two tt (-1) = NoFuel
  /\ @minimax_fuel tree_game 3 false two_by_two tt (-1) = Raise IndexError.
Proof. repeat split; vm_compute; reflexivity. Qed.

(** The five cases of [arguments_out_of_range], on [two_by_two]. *)
Lemma arguments_out_of_range_on_two_by_two :
  ((-1 < 0)%Z
   /\ @minimax_fuel tree_game 3 false two_by_two tt (-1)
      <> Return (number 0, [], tree_dict []))
  /\ ((-1 < 0)%Z
      /\ @alphabeta_fuel tree_game 3 false two_by_two tt (-1) NegInf PosInf
         <> Return (number 0, [], tree_dict []))
  /\ ((-1 < 0)%Z /\ (1 <= 2)%Z
      /\ @stochastic_fuel tree_game exact_arith (list nat) (@scripted _) 3
           false two_by_two tt (-1) 2 []
         <> Return ((number 0, [], tree_dict []), []))
  /\ (@generateMoves tree_game false two_by_two tt <> []
      /\ @stochastic_fuel tree_game exact_arith (list nat) (@scripted _) 3
           false two_by_two tt 2 0 []
         = Raise ZeroDivisionError)
  /\ ((-2 < 0)%Z
      /\ @generateMoves tree_game false two_by_two tt = [reply 1; reply 2]
      /\ exists h,
           @stochastic_fuel tree_game exact_arith (list nat) (@scripted _) 3
             false two_by_two tt 2 (-2) []
           = Return ((h, [reply 1], tree_dict []), [])).
Proof.
  destruct (@arguments_out_of_range tree_game exact_arith)
    as (Hm & Ha & Hs & Hz & Hn).
  split; [|split; [|split; [|split]]].
  - split; [lia | apply Hm; lia].
  - split; [lia | apply Ha; lia].
  - split; [lia | split; [lia | apply Hs; lia]].
  - split; [discriminate | apply Hz; discriminate].
  - split; [lia | split; [reflexivity|]].
    apply (Hn (list nat) (@scripted _) 3 false two_by_two tt 2%Z (-2)%Z []
             (reply 1) [reply 2]); [lia | reflexivity].
Defined.

(** ** The properties at work *)

(** The three searches on [tied_replies] at depth 3 (breadth 2, the script
    of the chooser leading the two samples of the third reply through its
    two replies): the first reply, of value 3, is replaced by the second, of
    value 5, and the second is kept against the ties of the third and the
    fourth. *)
Lemma first_extremum_is_kept_on_tied_replies :
  (3 <> 0)%Z
  /\ (exists seen move bestList,
        map fst seen = @generateMoves tree_game false tied_replies tt
        /\ Forall (@minimax_sees tree_game (@minimax_fuel tree_game 3) false
                     tied_replies tt 3) seen
        /\ [reply 2; reply 1; reply 1] = move :: bestList
        /\ @first_best tree_game false seen move (number 5))
  /\ (exists seen pruned move bestList,
        map fst seen ++ pruned = @generateMoves tree_game false tied_replies tt
        /\ @alphabeta_visits tree_game (@alphabeta_fuel tree_game 3) false
             tied_replies tt 3
             (@generateMoves tree_game false tied_replies tt)
             NegInf PosInf NegInf seen
        /\ [reply 2; reply 1; reply 1] = move :: bestList
        /\ @first_best tree_game false seen move (number 5))
  /\ (exists runs move,
        @sampled_in_turn tree_game (list nat) (@scripted _) 3 false
          tied_replies tt 3 2
          (@generateMoves tree_game false tied_replies tt)
          [0; 0; 0; 0; 0; 0; 0; 0; 0; 0; 1; 0] runs []
        /\ [reply 2] = [move]
        /\ @first_best tree_game false
             (@averages tree_game exact_arith 2
                (@generateMoves tree_game false tied_replies tt) runs)
             move (Num (Q2Qc (10 # 2)))).
Proof.
  destruct (@first_extremum_is_kept tree_game exact_arith) as (Hm & Ha & Hs).
  split; [lia|]. split; [|split].
  - eapply Hm; [lia | vm_compute; reflexivity].
  - eapply (Ha 3 false tied_replies tt 3%Z NegInf PosInf);
      [lia | vm_compute; reflexivity].
  - eapply (Hs (list nat) (@scripted _) 3 false tied_replies tt 3%Z 2%Z
              [0; 0; 0; 0; 0; 0; 0; 0; 0; 0; 1; 0] []).
    vm_compute. reflexivity.
Defined.

(** On [tied_replies] the last of the tied replies is not the one that the
    values compared make the first best, for [alphabeta] and for
    [stochastic]: the values are those of the run and of no other. *)
Example the_last_tied_reply_is_not_kept :
  (forall seen h,
     @alphabeta_visits tree_game (@alphabeta_fuel tree_game 3) false
       tied_replies tt 3 (@generateMoves tree_game false tied_replies tt)
       NegInf PosInf NegInf seen ->
     ~ @first_best tree_game false seen (reply 4) h)
  /\ (forall runs cs' h,
        @sampled_in_turn tree_game (list nat) (@scripted _) 3 false
          tied_replies tt 3 2
          (@generateMoves tree_game false tied_replies tt)
          [0; 0; 0; 0; 0; 0; 0; 0; 0; 0; 1; 0] runs cs' ->
        ~ @first_best tree_game false
            (@averages tree_game exact_arith 2
               (@generateMoves tree_game false tied_replies tt) runs)
            (reply 4) h).
Proof.
  split.
  - intros seen h Hvis Hfb.
    destruct (@alphabeta_fuel_first_best tree_game 3 false tied_replies tt 3
                NegInf PosInf (number 5) [reply 2; reply 1; reply 1]
                (tree_dict
                   [(1, tree_dict [(1, tree_dict [(1, tree_dict [])])]);
                    (2, tree_dict [(1, tree_dict [(1, tree_dict [])])]);
                    (3, tree_dict
                          [(1, tree_dict [(1, tree_dict []);
                                          (2, tree_dict [])]);
                           (2, tree_dict [(1, tree_dict [])])]);
                    (4, tree_dict [(1, tree_dict [(1, tree_dict [])])])]))
      as (seen' & pruned & move & bestList & _ & Hvis' & Hl & Hfb');
      [lia | vm_compute; reflexivity |].
    injection Hl as <- _.
    assert (seen = seen') as ->
      by (eapply alphabeta_visits_unique; eassumption).
    pose proof (first_best_unique Hfb Hfb') as Heq. discriminate Heq.
  - intros runs cs' h Hrun Hfb.
    destruct (@stochastic_fuel_first_best tree_game exact_arith (list nat)
                (@scripted _) 3 false tied_replies tt 3 2
                [0; 0; 0; 0; 0; 0; 0; 0; 0; 0; 1; 0] []
                (Num (Q2Qc (10 # 2))) [reply 2]
                (tree_dict
                   [(1, tree_dict [(1, tree_dict [(1, tree_dict [])])]);
                    (2, tree_dict [(1, tree_dict [(1, tree_dict [])])]);
                    (3, tree_dict
                          [(1, tree_dict [(1, tree_dict [])]);
                           (2, tree_dict [(1, tree_dict [])])]);
                    (4, tree_dict [(1, tree_dict [(1, tree_dict [])])])]))
      as (runs' & move & Hrun' & _ & _ & Hl & Hfb');
      [vm_compute; reflexivity |].
    injection Hl as <-.
    pose proof Hrun as Hu.
    eapply sampled_in_turn_unique in Hu; [|exact Hrun'].
    destruct Hu as [-> _].
    pose proof (first_best_unique Hfb Hfb') as Heq. discriminate Heq.
Qed.

(** [stochastic] on [late_fork]: the one move, and the average 3/2 of its
    two samples. *)
Lemma stochastic_returns_one_move_and_its_average_on_late_fork :
  @finite_scores tree_game
  /\ exists runs i move samples,
       @sampled_in_turn tree_game (list nat) (@scripted _) 3 false late_fork
         tt 3 2 (@generateMoves tree_game false late_fork tt)
         [0; 0; 0; 1] runs []
       /\ nth_error (@generateMoves tree_game false late_fork tt) i
          = Some move
       /\ nth_error runs i = Some samples
       /\ [reply 1] = [move]
       /\ length samples = Z.to_nat 2
       /\ Forall (fun sample => exists q, fst sample = Num q) samples
       /\ (2 <> 0)%Z
       /\ Num (Q2Qc (3 # 2))
          = @average_of_samples tree_game exact_arith 2 samples.
Proof.
  split; [exact tree_game_finite_scores|].
  apply (@stochastic_returns_one_move_and_its_average tree_game exact_arith
           (list nat) (@scripted _) 3 false late_fork tt 3%Z 2%Z
           [0; 0; 0; 1] [] (Num (Q2Qc (3 # 2))) [reply 1]
           (tree_dict
              [(1, tree_dict [(1, tree_dict [(2, tree_dict [])])])]));
    [exact tree_game_finite_scores | vm_compute; reflexivity].
Defined.

(** The samples of this run are the leaves 1 and 2, in this order, and no
    other: the script hands the second sample the state that the first one
    left. *)
Example the_samples_of_late_fork_are_those_of_the_run :
  forall runs cs',
    @sampled_in_turn tree_game (list nat) (@scripted _) 3 false late_fork
      tt 3 2 (@generateMoves tree_game false late_fork tt)
      [0; 0; 0; 1] runs cs' ->
    runs = [ [ (number 1, tree_dict [(1, tree_dict [(1, tree_dict [])])]);
               (number 2, tree_dict [(1, tree_dict [(2, tree_dict [])])]) ] ]
    /\ cs' = [].
Proof.
  intros runs cs' Hrun.
  eapply sampled_in_turn_unique; [exact Hrun|].
  exists []. split; [|reflexivity].
  split; [reflexivity|].
  exists [0; 1]. split; [vm_compute; reflexivity|].
  exists []. split; [vm_compute; reflexivity|]. reflexivity.
Qed.

(** [random] at [n = 3] of the counting game, with a chooser that would
    raise. *)
Lemma random_without_moves_at_the_edge :
  @generateMoves counting_game false 3%Z tt = []
  /\ @random counting_game (list nat) false 3%Z tt (@scripted _) [2]
     = Return ((number 3, [], counting_dict []), [2]).
Proof.
  split; [reflexivity|].
  apply (@random_without_moves counting_game (list nat) false 3%Z tt
           (@scripted _) [2]).
  reflexivity.
Defined.

(** One run of the helper from the root of [late_fork], three plies deep. *)
Lemma stochasticHelper_tree_is_chain_on_late_fork :
  (0 <= 3)%Z
  /\ exists moves : list (@Move tree_game),
       length moves = 3
       /\ tree_dict [(1, tree_dict [(1, tree_dict [(2, tree_dict [])])])]
          = @chain tree_game (map encodeMove moves)
       /\ @chosen_along tree_game (list nat) (@scripted _) false late_fork tt
            [0; 0; 1] moves.
Proof.
  split; [lia|].
  apply (@stochasticHelper_tree_is_chain tree_game (list nat) (@scripted _) 4
           false late_fork tt 3%Z [0; 0; 1] [] (number 2)).
  - lia.
  - vm_compute. reflexivity.
Defined.

(** ** More properties at work *)

(** [takes_first] picks from its list. *)
Lemma takes_first_picks_from_list :
  @picks_from_list tree_game unit (@takes_first _).
Proof.
  intros moves cs Hm. destruct moves as [|m moves]; [congruence|].
  exists m, cs. split; [reflexivity | left; reflexivity].
Qed.

(** [random] on [two_by_two] with a chooser that takes the second move, and
    the helper at depth 1. *)
Lemma random_is_the_helper_one_ply_deep_on_two_by_two :
  @generateMoves tree_game false two_by_two tt <> []
  /\ exists move,
       [reply 2] = [move]
       /\ @scripted (@Move tree_game)
            (@generateMoves tree_game false two_by_two tt) [1]
          = Return (move, [])
       /\ @stochasticHelper tree_game (list nat) (@scripted _) false
            two_by_two tt 1 [1]
          = Return (number 0, tree_dict [(2, tree_dict [])], []).
Proof.
  split; [discriminate|].
  apply (@random_is_the_helper_one_ply_deep tree_game (list nat) false
           two_by_two tt (@scripted _) [1] [] (number 0) [reply 2]
           (tree_dict [(2, tree_dict [])]));
    [discriminate | vm_compute; reflexivity].
Defined.

(** [minimax] returns on [two_by_two] at depth 2, and raises on
    [hidden_fault] at depth 3, where a position two moves away has no
    move. *)
Lemma minimax_returns_where_playable_on_two_by_two :
  (0 <= 2)%Z /\ (0 <= 3)%Z
  /\ @playable tree_game 2 false two_by_two tt = true
  /\ (exists r, @minimax tree_game false two_by_two tt 2 = Return r)
  /\ @playable tree_game 3 false hidden_fault tt = false
  /\ @minimax tree_game false hidden_fault tt 3 = Raise IndexError.
Proof.
  split; [lia|]. split; [lia|]. split; [reflexivity|]. split.
  - apply (@minimax_returns_where_playable tree_game false two_by_two tt 2);
      [lia | reflexivity].
  - split; [reflexivity|].
    apply (@minimax_returns_where_playable tree_game false hidden_fault tt 3);
      [lia | reflexivity].
Defined.

(** The backed-up value of [two_by_two], two moves deep, is 5. *)
Lemma minimax_value_is_game_value_on_two_by_two :
  (0 <= 2)%Z
  /\ number 5 = @game_value tree_game (Z.to_nat 2) false two_by_two tt.
Proof.
  split; [lia|].
  apply (@minimax_value_is_game_value tree_game false two_by_two tt 2
           (number 5) [reply 1; reply 1]
           (tree_dict
              [(1, tree_dict [(1, tree_dict []); (2, tree_dict [])]);
               (2, tree_dict [(1, tree_dict []); (2, tree_dict [])])]));
    [lia | vm_compute; reflexivity].
Defined.

(** The line of [minimax] on [two_by_two]: the first reply, twice, to the
    leaf 5. *)
Lemma minimax_line_is_played_out_on_two_by_two :
  @finite_scores tree_game /\ (0 <= 2)%Z
  /\ length [reply 1; reply 1] = Z.to_nat 2
  /\ @legal_line tree_game false two_by_two tt [reply 1; reply 1]
  /\ number 5
     = @evaluate tree_game
         (@board_after tree_game false two_by_two tt [reply 1; reply 1]).
Proof.
  split; [exact tree_game_finite_scores|]. split; [lia|].
  apply (@minimax_line_is_played_out tree_game false two_by_two tt 2
           (number 5) [reply 1; reply 1]
           (tree_dict
              [(1, tree_dict [(1, tree_dict []); (2, tree_dict [])]);
               (2, tree_dict [(1, tree_dict []); (2, tree_dict [])])]));
    [exact tree_game_finite_scores | lia | vm_compute; reflexivity].
Defined.

(** With an evaluation at [-inf] the maximizer never replaces its first
    move and its empty list: the move list of depth 2 has one move. *)
Example unbounded_scores_shorten_the_line :
  exists moveTree,
    @minimax bottomless_game false two_by_two tt 2
    = Return (NegInf, [@mkMove bottomless_game 0 1 tt], moveTree).
Proof. eexists. vm_compute. reflexivity. Qed.

(** The tree of [minimax] on [two_by_two] is the whole tree: two replies,
    each with two replies. *)
Lemma minimax_tree_is_the_full_tree_on_two_by_two :
  @keys_unique tree_game /\ (0 <= 2)%Z
  /\ tree_dict
       [(1, tree_dict [(1, tree_dict []); (2, tree_dict [])]);
        (2, tree_dict [(1, tree_dict []); (2, tree_dict [])])]
     = @full_tree tree_game (Z.to_nat 2) false two_by_two tt.
Proof.
  split; [exact tree_game_keys_unique|]. split; [lia|].
  apply (@minimax_tree_is_the_full_tree tree_game false two_by_two tt 2
           (number 5) [reply 1; reply 1]);
    [exact tree_game_keys_unique | lia | vm_compute; reflexivity].
Defined.

(** [alphabeta] on [two_by_two] with the bounds 9 and 1. *)
Lemma alphabeta_returns_where_playable_on_two_by_two :
  (0 <= 2)%Z
  /\ @playable tree_game (Z.to_nat 2) false two_by_two tt = true
  /\ exists r,
       @alphabeta tree_game false two_by_two tt 2 (number 9) (number 1)
       = Return r.
Proof.
  split; [lia|]. split; [reflexivity|].
  apply (@alphabeta_returns_where_playable tree_game false two_by_two tt 2
           (number 9) (number 1)); [lia | reflexivity].
Defined.

(** [alphabeta] on [two_by_two], where the value of [minimax] is 5, with
    the window from 6 to 8. *)
Lemma alphabeta_on_a_window_on_two_by_two :
  (0 <= 2)%Z /\ number 6 <v number 8
  /\ exists r moveList' moveTree',
       @alphabeta tree_game false two_by_two tt 2 (number 6) (number 8)
       = Return (r, moveList', moveTree')
       /\ (number 6 <v number 5 -> number 5 <v number 8 ->
           r = number 5 /\ moveList' = [reply 1; reply 1])
       /\ (number 5 <=v number 6 -> number 5 <=v r /\ r <=v number 6)
       /\ (number 8 <=v number 5 -> number 8 <=v r /\ r <=v number 5).
Proof.
  split; [lia|]. split; [reflexivity|].
  apply (@alphabeta_on_a_window tree_game false two_by_two tt 2
           (number 6) (number 8) (number 5) [reply 1; reply 1]
           (tree_dict
              [(1, tree_dict [(1, tree_dict []); (2, tree_dict [])]);
               (2, tree_dict [(1, tree_dict []); (2, tree_dict [])])]));
    [lia | reflexivity | vm_compute; reflexivity].
Defined.

(** [alphabeta] on [two_by_two] returns the backed-up value. *)
Lemma alphabeta_value_is_game_value_on_two_by_two :
  (0 <= 2)%Z
  /\ @playable tree_game (Z.to_nat 2) false two_by_two tt = true
  /\ exists moveList moveTree,
       @alphabeta tree_game false two_by_two tt 2 NegInf PosInf
       = Return (@game_value tree_game (Z.to_nat 2) false two_by_two tt,
                 moveList, moveTree).
Proof.
  split; [lia|]. split; [reflexivity|].
  apply (@alphabeta_value_is_game_value tree_game false two_by_two tt 2);
    [lia | reflexivity].
Defined.

(** The line of [alphabeta] on [two_by_two] with the window from 6 to 8. *)
Lemma alphabeta_line_is_played_out_on_two_by_two :
  @finite_scores tree_game /\ (0 <= 2)%Z
  /\ length [reply 1; reply 1] = Z.to_nat 2
  /\ @legal_line tree_game false two_by_two tt [reply 1; reply 1]
  /\ number 5
     = @evaluate tree_game
         (@board_after tree_game false two_by_two tt [reply 1; reply 1]).
Proof.
  split; [exact tree_game_finite_scores|]. split; [lia|].
  apply (@alphabeta_line_is_played_out tree_game false two_by_two tt 2
           (number 6) (number 8) (number 5) [reply 1; reply 1]
           (tree_dict
              [(1, tree_dict [(1, tree_dict [])]);
               (2, tree_dict [(1, tree_dict [])])]));
    [exact tree_game_finite_scores | lia | vm_compute; reflexivity].
Defined.

(** The tree of [alphabeta] on [two_by_two], the last leaf left out, is the
    whole tree cut short. *)
Lemma alphabeta_tree_is_cut_from_the_full_tree_on_two_by_two :
  @keys_unique tree_game /\ (0 <= 2)%Z
  /\ @cut_of tree_game
       (tree_dict
          [(1, tree_dict [(1, tree_dict []); (2, tree_dict [])]);
           (2, tree_dict [(1, tree_dict [])])])
       (@full_tree tree_game (Z.to_nat 2) false two_by_two tt).
Proof.
  split; [exact tree_game_keys_unique|]. split; [lia|].
  apply (@alphabeta_tree_is_cut_from_the_full_tree tree_game false two_by_two
           tt 2 NegInf PosInf (number 5) [reply 1; reply 1]);
    [exact tree_game_keys_unique | lia | vm_compute; reflexivity].
Defined.

(** [alphabeta] on [two_by_two] with the bounds 9 and 1: the first reply
    and, below it, the first reply again. *)
Lemma alphabeta_closed_window_stops_at_first_move_on_two_by_two :
  (1 <= 2)%Z /\ number 1 <=v number 9
  /\ exists move rest bestList moveTree_d1,
       @generateMoves tree_game false two_by_two tt = move :: rest
       /\ (let '(newSide, newBoard, newFlags) :=
             @applyMove tree_game false two_by_two tt move in
           @alphabeta tree_game newSide newBoard newFlags (2 - 1)
             (number 9) (number 1)
           = Return (number 5, bestList, moveTree_d1))
       /\ ([reply 1; reply 1] = move :: bestList
           \/ [reply 1; reply 1] = [move] /\ number 5 = NegInf)
       /\ tree_dict [(1, tree_dict [(1, tree_dict [])])]
          = tree_dict [(@encodeMove tree_game move, moveTree_d1)].
Proof.
  split; [lia|]. split; [discriminate|].
  apply (@alphabeta_closed_window_stops_at_first_move tree_game false
           two_by_two tt 2 (number 9) (number 1) (number 5)
           [reply 1; reply 1] (tree_dict [(1, tree_dict [(1, tree_dict [])])]));
    [lia | discriminate | vm_compute; reflexivity].
Defined.

(** One run of the helper from the root of [late_fork], three plies deep,
    ends on the leaf 2. *)
Lemma stochasticHelper_value_is_the_leaf_on_late_fork :
  (0 <= 3)%Z
  /\ exists moves : list (@Move tree_game),
       length moves = Z.to_nat 3
       /\ @chosen_along tree_game (list nat) (@scripted _) false late_fork tt
            [0; 0; 1] moves
       /\ number 2
          = @evaluate tree_game (@board_after tree_game false late_fork tt moves).
Proof.
  split; [lia|].
  apply (@stochasticHelper_value_is_the_leaf tree_game (list nat)
           (@scripted _) 4 false late_fork tt 3%Z [0; 0; 1] [] (number 2)
           (tree_dict [(1, tree_dict [(1, tree_dict [(2, tree_dict [])])])])).
  - lia.
  - vm_compute. reflexivity.
Defined.

(** [stochastic] on [two_by_two] at depth 0: no result, also after four
    nested calls of the helper. *)
Lemma stochastic_at_depth0_never_returns_on_two_by_two :
  (1 <= 1)%Z
  /\ @stochastic_fuel tree_game exact_arith (list nat) (@scripted _) 4
       false two_by_two tt 0 1 []
     <> Return ((number 0, [], tree_dict []), []).
Proof.
  split; [lia|].
  apply (@stochastic_at_depth0_never_returns tree_game exact_arith (list nat)
           (@scripted _) 4 false two_by_two tt 1).
  lia.
Defined.

(** [stochastic] on [two_by_two] with the chooser that takes the first
    move. *)
Lemma stochastic_returns_where_playable_on_two_by_two :
  @picks_from_list tree_game unit (@takes_first _)
  /\ (1 <= 2)%Z /\ (2 <> 0)%Z
  /\ @playable tree_game (Z.to_nat 2) false two_by_two tt = true
  /\ exists r,
       @stochastic tree_game exact_arith unit (@takes_first _) false
         two_by_two tt 2 2 tt = Return r.
Proof.
  split; [exact takes_first_picks_from_list|].
  split; [lia|]. split; [lia|]. split; [reflexivity|].
  apply (@stochastic_returns_where_playable tree_game exact_arith unit
           (@takes_first _) false two_by_two tt 2 2 tt);
    [exact takes_first_picks_from_list | lia | lia | reflexivity].
Defined.

(** [stochastic] on [two_by_two] at depth 1 and breadth 3: the script of the
    chooser is not touched. *)
Lemma stochastic_one_ply_leaves_the_chooser_on_two_by_two :
  @keys_unique tree_game /\ (1 <= 3)%Z
  /\ @generateMoves tree_game false two_by_two tt <> []
  /\ exists h move,
       @stochastic tree_game exact_arith (list nat) (@scripted _) false
         two_by_two tt 1 3 [1; 1]
       = Return ((h, [move], @full_tree tree_game 1 false two_by_two tt),
                 [1; 1]).
Proof.
  split; [exact tree_game_keys_unique|]. split; [lia|].
  split; [discriminate|].
  apply (@stochastic_one_ply_leaves_the_chooser tree_game exact_arith
           (list nat) (@scripted _) false two_by_two tt 3 [1; 1]);
    [exact tree_game_keys_unique | lia | discriminate].
Defined.

(** [stochastic] on [two_by_two] at depth 2 and breadth 2: both replies of
    the root are keys of the tree. *)
Lemma stochastic_tree_has_a_key_for_every_move_on_two_by_two :
  @keys_unique tree_game /\ (1 <= 2)%Z
  /\ @keys tree_game
       (tree_dict
          [(1, tree_dict [(1, tree_dict []); (2, tree_dict [])]);
           (2, tree_dict [(2, tree_dict []); (1, tree_dict [])])])
     = map (@encodeMove tree_game)
           (@generateMoves tree_game false two_by_two tt).
Proof.
  split; [exact tree_game_keys_unique|]. split; [lia|].
  apply (@stochastic_tree_has_a_key_for_every_move tree_game exact_arith
           (list nat) (@scripted _) false two_by_two tt 2 2 [0; 1; 1; 0] []
           (Num (Q2Qc (12 # 2))) [reply 1]);
    [exact tree_game_keys_unique | lia | vm_compute; reflexivity].
Defined.

(** [stochastic] on [tied_replies]: under the third reply the tree holds
    the two replies that its two samples went through. *)
Lemma stochastic_keeps_the_replies_sampled_on_tied_replies :
  @keys_unique tree_game /\ (1 <= 2)%Z
  /\ exists runs,
       @sampled_in_turn tree_game (list nat) (@scripted _) 3 false
         tied_replies tt 3 2
         (@generateMoves tree_game false tied_replies tt)
         [0; 0; 0; 0; 0; 0; 0; 0; 0; 0; 1; 0] runs []
       /\ @samples_kept tree_game
            (@generateMoves tree_game false tied_replies tt) runs
            (tree_dict
               [(1, tree_dict [(1, tree_dict [(1, tree_dict [])])]);
                (2, tree_dict [(1, tree_dict [(1, tree_dict [])])]);
                (3, tree_dict
                      [(1, tree_dict [(1, tree_dict [])]);
                       (2, tree_dict [(1, tree_dict [])])]);
                (4, tree_dict [(1, tree_dict [(1, tree_dict [])])])]).
Proof.
  split; [exact tree_game_keys_unique|]. split; [lia|].
  apply (@stochastic_keeps_the_replies_sampled tree_game exact_arith
           (list nat) (@scripted _) 3 false tied_replies tt 3 2
           [0; 0; 0; 0; 0; 0; 0; 0; 0; 0; 1; 0] []
           (Num (Q2Qc (10 # 2))) [reply 2]);
    [exact tree_game_keys_unique | lia | vm_compute; reflexivity].
Defined.

(** [alphabeta] ends on [hidden_fault] with the bounds 9 and 1. *)
Lemma alphabeta_ends_on_hidden_fault :
  (0 <= 3)%Z
  /\ ((exists r,
         @alphabeta tree_game false hidden_fault tt 3 (number 9) (number 1)
         = Return r)
      \/ @alphabeta tree_game false hidden_fault tt 3 (number 9) (number 1)
         = Raise IndexError).
Proof.
  split; [lia|].
  apply (@alphabeta_ends tree_game false hidden_fault tt 3 (number 9)
           (number 1)).
  lia.
Defined.
